(** * CircuitsVis: the Topk component (react/src/topk/Topk.tsx)

    A shallow embedding of the selection widgets ([RangeSelector],
    [NumberSelector]), of the slicing function [getSelectedActivations]
    and of the top-k / bottom-k pipeline in the body of [Topk], with the
    properties the specification states about them.

    Conventions.
    - JavaScript numbers that hold integers (indices, counts, bounds) are
      [nat] or [Z]; [Z] wherever the source subtracts.  Where the source
      computes with numbers that need not be small, its arithmetic is the
      arithmetic of IEEE doubles ([jsAdd], [jsSub]).
    - Activation values are integers, [Z]; a tensor stores each of them
      as the nearest IEEE single ([stored]).  The component only
      compares the stored values and multiplies them by [-1]; both are
      exact (NaN is outside the model).
    - A thrown exception is [None] in the [option] monad.
    - Reading a JavaScript array out of range gives [undefined]; such a
      read is [nth_error], with [None] for [undefined]. *)

From Stdlib Require Import String Ascii DecimalString DecimalZ DecimalPos.
From Stdlib Require Import ZArith Lia Bool Arith List.
From Stdlib Require Import Sorting.Sorted Sorting.Permutation.
Import ListNotations.

Local Open Scope Z_scope.

(** ** The error monad *)

Definition bind {A B : Type} (m : option A) (f : A -> option B) : option B :=
  match m with
  | Some a => f a
  | None => None
  end.

Notation "x <- m ;; k" := (bind m (fun x => k))
  (at level 61, m at next level, right associativity).
Notation "' p <- m ;; k" := (bind m (fun x => let p := x in k))
  (at level 61, p pattern, m at next level, right associativity).

Definition assert (b : bool) : option unit := if b then Some tt else None.

(** ** Numbers

    [roundTo prec emax v] is the number with [prec] bits of precision
    nearest to the integer [v], ties going to the even significand, as
    IEEE arithmetic rounds.  A result of magnitude [2 ^ emax] or more is
    an infinity; [2 ^ emax] and [- 2 ^ emax] stand for the two infinities
    (each is beyond every finite number of the format, equal to itself
    and the opposite of the other, which is all the code asks of them). *)
Definition roundTo (prec emax : Z) (v : Z) : Z :=
  let a := Z.abs v in
  if a <? 2 ^ prec then v
  else
    let ulp := 2 ^ (Z.log2 a - prec + 1) in
    let q := a / ulp in
    let r := a mod ulp in
    let q' :=
      if 2 * r <? ulp then q
      else if ulp <? 2 * r then q + 1
      else if Z.even q then q else q + 1 in
    Z.sgn v * Z.min (q' * ulp) (2 ^ emax).

(** A JavaScript number: an IEEE double. *)
Definition double (v : Z) : Z := roundTo 53 1024 v.

(** The single precision in which a tensor of dtype [float32] stores its
    values. *)
Definition float32 (v : Z) : Z := roundTo 24 128 v.

(** What a tensor of dtype [float32] holds for the number written [v] in
    a JavaScript array: the single nearest to the double that [v] is
    there. *)
Definition stored (v : Z) : Z := float32 (double v).

(** [a + b] and [a - b] on JavaScript numbers. *)
Definition jsAdd (a b : Z) : Z := double (a + b).
Definition jsSub (a b : Z) : Z := double (a - b).

(** Up to [2 ^ 53] in magnitude every integer is a double, and up to
    [2 ^ 24] a single. *)
Definition maxSafe : Z := 9007199254740992.
Definition maxSafe32 : Z := 16777216.

(** [Array(n)] accepts the lengths below [2 ^ 32]. *)
Definition maxArrayLength : Z := 4294967296.

(** ** Tensors of the tensor library

    The tensor library is a third-party dependency; its primitives are
    modelled from their documented behaviour.  A tensor is its shape and
    its values in row-major order, as the library stores it. *)

Module Tf.

Record Tensor3D : Type := mkTensor3D
  { shape3 : nat * nat * nat;
    data3 : list Z }.

Record Tensor2D : Type := mkTensor2D
  { shape2 : nat * nat;
    data2 : list Z }.

(** [x.subarray(b * size, b * size + size)]: the [b]-th chunk of length
    [size] of a flat buffer. *)
Definition subarray (size : nat) (x : list Z) (b : nat) : list Z :=
  firstn size (skipn (b * size) x).

(** Element access, [x.bufferSync().get(i, j)] and [get(i, j, k)], on a
    tensor whose buffer fills its shape, as every tensor the component
    slices does ([tensor3] yields no other); the [0] read beyond a
    shorter buffer is never used. *)
Definition get2 (x : Tensor2D) (i j : nat) : Z :=
  nth (i * snd (shape2 x) + j) (data2 x) 0.

Definition get3 (x : Tensor3D) (i j k : nat) : Z :=
  let '(_, d1, d2) := shape3 x in
  nth (i * (d1 * d2) + j * d2 + k)%nat (data3 x) 0.

(** [tensor<Rank.R3>(values)]: the shape is read off the first element at
    each nesting level, the values are flattened and stored as singles
    ([stored]).  When the outer array or its first element is empty the
    inferred rank is below 3, and every use the component makes of the
    tensor throws.  Consistency of the nested array with the shape is
    only checked by the library in its debug mode: an array that does not
    hold as many numbers as the shape says gives a tensor whose buffer
    does not fill its shape.  [slice], the one operation the component
    applies to the tensor, throws on such a buffer when it gathers its
    result entry by entry; when the slice is one contiguous block it
    copies what lies at the expected place of the buffer, which is not
    the data the shape describes.  [tensor3] is [None] for a tensor of
    either kind: no matrix of the selected activations comes out of it.
    The properties that tell when the component throws are stated for
    arrays that fill their shape ([fills]). *)
Definition inferShape3 (values : list (list (list Z))) : option (nat * nat * nat) :=
  match values with
  | [] => None
  | v0 :: _ =>
      match v0 with
      | [] => None
      | v00 :: _ => Some (length values, length v0, length v00)
      end
  end.

Definition tensor3 (values : list (list (list Z))) : option Tensor3D :=
  sh <- inferShape3 values ;;
  let '(d0, d1, d2) := sh in
  let data := map stored (concat (concat values)) in
  _ <- assert (length data =? d0 * d1 * d2)%nat ;;
  Some (mkTensor3D sh data).

(** One axis of [slice]: a size of [-1] means "up to the end of the axis",
    any other negative size is refused, and the slice must fit. *)
Definition sliceSize (dim begin : nat) (size : Z) : option nat :=
  let size_ :=
    if 0 <=? size then Some (Z.to_nat size)
    else if size =? -1 then Some (dim - begin)%nat
    else None in
  n <- size_ ;;
  _ <- assert (begin + n <=? dim)%nat ;;
  Some n.

(** [x.slice(begin, size)] on a rank-3 tensor. *)
Definition slice (x : Tensor3D) (begin : nat * nat * nat) (size : Z * Z * Z)
  : option Tensor3D :=
  let '(d0, d1, d2) := shape3 x in
  let '(b0, b1, b2) := begin in
  let '(z0, z1, z2) := size in
  s0 <- sliceSize d0 b0 z0 ;;
  s1 <- sliceSize d1 b1 z1 ;;
  s2 <- sliceSize d2 b2 z2 ;;
  Some (mkTensor3D (s0, s1, s2)
          (flat_map (fun i =>
             flat_map (fun j =>
               map (fun k => get3 x (b0 + i) (b1 + j) (b2 + k)) (seq 0 s2))
               (seq 0 s1))
             (seq 0 s0))).

(** [x.squeeze([1])]: drops axis 1, which must have size 1. *)
Definition squeeze1 (x : Tensor3D) : option Tensor2D :=
  let '(d0, d1, d2) := shape3 x in
  _ <- assert (d1 =? 1)%nat ;;
  Some (mkTensor2D (d0, d2) (data3 x)).

(** [x.transpose()] on a rank-2 tensor. *)
Definition transpose (x : Tensor2D) : Tensor2D :=
  let '(r, c) := shape2 x in
  mkTensor2D (c, r)
    (flat_map (fun j => map (fun i => get2 x i j) (seq 0 r)) (seq 0 c)).

(** [x.mul(s)] with a scalar [s]. *)
Definition mul (x : Tensor2D) (s : Z) : Tensor2D :=
  mkTensor2D (shape2 x) (map (fun v => v * s) (data2 x)).

(** [reverse(x, -1)]: reverses along the last axis. *)
Definition reverse (x : Tensor2D) : Tensor2D :=
  let '(r, c) := shape2 x in
  mkTensor2D (r, c) (flat_map (fun b => rev (subarray c (data2 x) b)) (seq 0 r)).

(** [x.arraySync()] on a rank-2 tensor: the nested array, which is the
    empty array when the tensor has no element. *)
Definition arraySync (x : Tensor2D) : list (list Z) :=
  let '(r, c) := shape2 x in
  if (r * c =? 0)%nat then []
  else map (subarray c (data2 x)) (seq 0 r).

(** *** [topk]

    The library pairs every value of a row with its position, orders the
    pairs with [comparePair] (larger value first, smaller position first
    among equal values) and keeps the first [k].  [comparePair] is a
    strict total order on the pairs of a row, so the sorted list does not
    depend on the sorting algorithm; insertion sort stands for it. *)

Record Pair : Type := mkPair { value : Z; index : nat }.

Definition comparePair (a b : Pair) : Z :=
  if value b =? value a then Z.of_nat (index a) - Z.of_nat (index b)
  else value b - value a.

Fixpoint insert (p : Pair) (l : list Pair) : list Pair :=
  match l with
  | [] => [p]
  | q :: l' => if comparePair p q <=? 0 then p :: l else q :: insert p l'
  end.

Definition sort (l : list Pair) : list Pair := fold_right insert [] l.

Definition valAndInd (vals : list Z) : list Pair :=
  map (fun '(v, i) => mkPair v i) (combine vals (seq 0 (length vals))).

Definition topkRow (k : nat) (vals : list Z) : list Pair :=
  firstn k (sort (valAndInd vals)).

(** [topk(x, k, true)] on a rank-2 tensor; throws when [k] exceeds the
    size of the last axis. *)
Definition topk (x : Tensor2D) (k : nat) : option (Tensor2D * Tensor2D) :=
  let '(batch, size) := shape2 x in
  _ <- assert (k <=? size)%nat ;;
  let rows := map (fun b => topkRow k (subarray size (data2 x) b)) (seq 0 batch) in
  Some (mkTensor2D (batch, k) (flat_map (map value) rows),
        mkTensor2D (batch, k) (flat_map (map (fun p => Z.of_nat (index p))) rows)).

End Tf.

(** ** The selectors *)

(** A template literal [`${n}`] on an integer below [10 ^ 21] in
    magnitude: its decimal digits.  (From [10 ^ 21] on JavaScript prints
    an exponent; the selectors are only studied on bounds far below.) *)
Definition numberToString (n : Z) : string := NilZero.string_of_int (Z.to_int n).

(** One entry of [ranges] in [RangeSelector]: [`${start}`] when the range
    is a single number and [`${start}-${end}`] otherwise. *)
Definition rangeLabel (r : Z * Z) : string :=
  let '(start, end_) := r in
  if start =? end_ then numberToString start
  else (numberToString start ++ "-" ++ numberToString end_)%string.

(** The loop of [RangeSelector],
    [for (let i = smallestNumber; i <= largestNumber; i += numValsInRange)],
    collecting the bounds [(start, end)] of every range pushed.  The loop
    need not terminate (it does not when [numValsInRange <= 0]), so it runs
    on fuel: [None] is "no result within [fuel] iterations".

    [RangeSelector_loop] is the loop on the integers, with exact sums;
    [RangeSelector_loop_double] below is the loop on doubles, as the
    source runs it.  The two agree as long as the counter stays within
    the integers every double holds ([RangeSelector_loop_double_exact]),
    which covers the neuron counts [Topk] hands to the selector. *)
Fixpoint RangeSelector_loop (fuel : nat) (i largestNumber numValsInRange : Z)
  (ranges : list (Z * Z)) : option (list (Z * Z)) :=
  if i <=? largestNumber then
    match fuel with
    | O => None
    | S fuel' =>
        let start := i in
        let end_ := Z.min (i + numValsInRange - 1) largestNumber in
        RangeSelector_loop fuel' (i + numValsInRange) largestNumber numValsInRange
          (ranges ++ [(start, end_)])
    end
  else Some ranges.

Definition RangeSelector_bounds (fuel : nat)
  (smallestNumber largestNumber numValsInRange : Z) : option (list (Z * Z)) :=
  RangeSelector_loop fuel smallestNumber largestNumber numValsInRange [].

(** The option strings of the select built by [RangeSelector]. *)
Definition RangeSelector_ranges (fuel : nat)
  (smallestNumber largestNumber numValsInRange : Z) : option (list string) :=
  option_map (map rangeLabel)
    (RangeSelector_bounds fuel smallestNumber largestNumber numValsInRange).

(** The loop as the source runs it, on doubles: [i += numValsInRange]
    and [i + numValsInRange - 1] round to the nearest double. *)
Fixpoint RangeSelector_loop_double (fuel : nat) (i largestNumber numValsInRange : Z)
  (ranges : list (Z * Z)) : option (list (Z * Z)) :=
  if i <=? largestNumber then
    match fuel with
    | O => None
    | S fuel' =>
        let start := i in
        let end_ := Z.min (jsSub (jsAdd i numValsInRange) 1) largestNumber in
        RangeSelector_loop_double fuel' (jsAdd i numValsInRange) largestNumber
          numValsInRange (ranges ++ [(start, end_)])
    end
  else Some ranges.

Definition RangeSelector_bounds_double (fuel : nat)
  (smallestNumber largestNumber numValsInRange : Z) : option (list (Z * Z)) :=
  RangeSelector_loop_double fuel smallestNumber largestNumber numValsInRange [].

Definition RangeSelector_ranges_double (fuel : nat)
  (smallestNumber largestNumber numValsInRange : Z) : option (list string) :=
  option_map (map rangeLabel)
    (RangeSelector_bounds_double fuel smallestNumber largestNumber numValsInRange).

(** [[...Array(n).keys()]]: [0 .. n-1]; [Array(n)] throws a [RangeError]
    on a negative length and on a length of [2 ^ 32] or more. *)
Definition arrayKeys (n : Z) : option (list Z) :=
  if (n <? 0) || (maxArrayLength <=? n) then None
  else Some (map Z.of_nat (seq 0 (Z.to_nat n))).

(** The [options] of [NumberSelector],
    [[...Array(largestNumber - smallestNumber + 1).keys()].map((i) => i + smallestNumber)]. *)
Definition NumberSelector_options (smallestNumber largestNumber : Z)
  : option (list Z) :=
  keys <- arrayKeys (jsAdd (jsSub largestNumber smallestNumber) 1) ;;
  Some (map (fun i => jsAdd i smallestNumber) keys).

(** The k selector of [Topk]: [smallestNumber={1} largestNumber={20}]. *)
Definition kSelector_options : option (list Z) := NumberSelector_options 1 20.

(** ** [getSelectedActivations] *)

Definition getSelectedActivations (activations : Tf.Tensor3D)
  (layerNumber neuronStartNumber neuronEndNumber : nat) : option Tf.Tensor2D :=
  sliced <- Tf.slice activations
              (0%nat, layerNumber, neuronStartNumber)
              (-1, 1, Z.of_nat neuronEndNumber - Z.of_nat neuronStartNumber + 1) ;;
  squeezed <- Tf.squeeze1 sliced ;;
  Some (Tf.transpose squeezed).

(** ** The [Topk] component *)

(** The props that carry data; the three dimension names only label the
    selectors. *)
Record TopkProps : Type := mkTopkProps
  { tokens : list (list string);
    activations : list (list (list (list Z))) }.

(** The state held by the [useState] hooks of [Topk]. *)
Record State : Type := mkState
  { sampleNumber : nat;
    layerNumber : nat;
    colsToShow : nat;
    k : nat;
    neuronNumbers : list nat }.

(** [activationsTensors.length] *)
Definition numberOfSamples (props : TopkProps) : nat := length (activations props).

(** [numberOfSamples > 1 ? [...Array(colsToShow).keys()] : [0]] *)
Definition firstNeurons (numberOfSamples colsToShow : nat) : list nat :=
  if (1 <? numberOfSamples)%nat then seq 0 colsToShow else [0%nat].

(** The initial values given to [useState]. *)
Definition initialState (props : TopkProps) : State :=
  mkState 0 0 5 5 (firstNeurons (numberOfSamples props) 5).

(** The state setters handed to the selectors. *)
Inductive Event : Type :=
| SetSampleNumber (n : nat)
| SetLayerNumber (n : nat)
| SetColsToShow (n : nat)
| SetK (n : nat)
| SetNeuronNumbers (rangeArr : list nat).

Definition setState (st : State) (ev : Event) : State :=
  match ev with
  | SetSampleNumber n =>
      mkState n (layerNumber st) (colsToShow st) (k st) (neuronNumbers st)
  | SetLayerNumber n =>
      mkState (sampleNumber st) n (colsToShow st) (k st) (neuronNumbers st)
  | SetColsToShow n =>
      mkState (sampleNumber st) (layerNumber st) n (k st) (neuronNumbers st)
  | SetK n =>
      mkState (sampleNumber st) (layerNumber st) (colsToShow st) n (neuronNumbers st)
  | SetNeuronNumbers rangeArr =>
      mkState (sampleNumber st) (layerNumber st) (colsToShow st) (k st) rangeArr
  end.

(** The [useEffect] hook with dependencies [[colsToShow, numberOfSamples]]:
    it runs after a render in which a dependency differs from the previous
    render ([prev]), and then resets [neuronNumbers].  (It also runs after
    the first render, where it stores the value [neuronNumbers] already
    has.) *)
Definition useEffect (props : TopkProps) (prev st : State) : State :=
  if (colsToShow prev =? colsToShow st)%nat then st
  else mkState (sampleNumber st) (layerNumber st) (colsToShow st) (k st)
         (firstNeurons (numberOfSamples props) (colsToShow st)).

(** The state one interaction leaves: a setter is called and the effect
    runs (the props, hence [numberOfSamples], stay the same).  The
    renders in between, and what becomes of the session when one of them
    throws, are the matter of [interact] below. *)
Definition step (props : TopkProps) (st : State) (ev : Event) : State :=
  useEffect props st (setState st ev).

(** A session: the setters called one after the other. *)
Definition run (props : TopkProps) (st : State) (evs : list Event) : State :=
  fold_left (step props) evs st.

(** A read [arr[i]] of a JavaScript array at a numeric index. *)
Definition arrayGet {A : Type} (arr : list A) (i : Z) : option A :=
  if i <? 0 then None else nth_error arr (Z.to_nat i).

(** [idxs.map((outerArr) => outerArr.map((token_idx) => currentTokens[token_idx]))];
    a cell is [None] where the source reads [undefined]. *)
Definition tokensAt (toks : list string) (idxs : list (list Z))
  : list (list (option string)) :=
  map (fun outerArr => map (fun token_idx => arrayGet toks token_idx) outerArr)
    idxs.

(** The four numeric matrices computed in the body of [Topk] from
    [currentActivations] and [k]. *)
Record TopBottomK : Type := mkTopBottomK
  { topkVals : list (list Z);
    topkIdxs : list (list Z);
    bottomkVals : list (list Z);
    bottomkIdxs : list (list Z) }.

Definition topBottomK (currentActivations : Tf.Tensor2D) (k : nat)
  : option TopBottomK :=
  '(topkValsRaw, topkIdxsRaw) <- Tf.topk currentActivations k ;;
  '(bottomkValsRaw, bottomkIdxsRaw) <- Tf.topk (Tf.mul currentActivations (-1)) k ;;
  Some (mkTopBottomK
          (Tf.arraySync (Tf.transpose topkValsRaw))
          (Tf.arraySync (Tf.transpose topkIdxsRaw))
          (Tf.arraySync (Tf.transpose (Tf.reverse (Tf.mul bottomkValsRaw (-1)))))
          (Tf.arraySync (Tf.transpose (Tf.reverse bottomkIdxsRaw)))).

(** What [Topk] hands to [TopBottomKTable]. *)
Record Derived : Type := mkDerived
  { matrices : TopBottomK;
    topkTokens : list (list (option string));
    bottomkTokens : list (list (option string)) }.

(** The body of [Topk] up to the table, stage by stage under the names
    of the source.  Reading a sample that is not there gives [undefined],
    on which the body throws; so does an empty [neuronNumbers].  An entry
    of [activationsTensors] is [None] for a tensor that cannot be sliced
    (see [Tf.tensor3]); the body throws when it slices the one of the
    selected sample. *)
Definition activationsTensors (props : TopkProps) : list (option Tf.Tensor3D) :=
  map Tf.tensor3 (activations props).

Definition currentTokens (props : TopkProps) (st : State) : option (list string) :=
  nth_error (tokens props) (sampleNumber st).

Definition currentActivations (props : TopkProps) (st : State)
  : option Tf.Tensor2D :=
  sampleTensor <- nth_error (activationsTensors props) (sampleNumber st) ;;
  sampleTensor <- sampleTensor ;;
  neuronStartNumber <- nth_error (neuronNumbers st) 0 ;;
  neuronEndNumber <- nth_error (neuronNumbers st) (length (neuronNumbers st) - 1) ;;
  getSelectedActivations sampleTensor (layerNumber st)
    neuronStartNumber neuronEndNumber.

Definition Topk_derived (props : TopkProps) (st : State) : option Derived :=
  toks <- currentTokens props st ;;
  acts <- currentActivations props st ;;
  tb <- topBottomK acts (k st) ;;
  Some (mkDerived tb
          (tokensAt toks (topkIdxs tb))
          (tokensAt toks (bottomkIdxs tb))).

(** The cell of a display matrix at rank [r] and column [n]. *)
Definition cell {A : Type} (m : list (list A)) (r n : nat) : option A :=
  row <- nth_error m r ;; nth_error row n.

(** Column [n] of a display matrix, read down the ranks. *)
Definition column (m : list (list Z)) (n : nat) : list Z :=
  map (fun row => nth n row 0) m.

(** A tensor is well formed when its buffer has as many values as its
    shape says; the library maintains this for every tensor it builds. *)
Definition wf2 (x : Tf.Tensor2D) : Prop :=
  length (Tf.data2 x) = (fst (Tf.shape2 x) * snd (Tf.shape2 x))%nat.

(** Row [n] of a rank-2 tensor. *)
Definition tensorRow (x : Tf.Tensor2D) (n : nat) : list Z :=
  Tf.subarray (snd (Tf.shape2 x)) (Tf.data2 x) n.

(** [a] comes no later than [b] in the order of [comparePair]. *)
Definition before (a b : Tf.Pair) : Prop := Tf.comparePair a b <= 0.

(** The position of a pair as [topk] stores it in its index tensor. *)
Definition indexZ (p : Tf.Pair) : Z := Z.of_nat (Tf.index p).

(** The negation the component applies before and after [topk]. *)
Definition negate (v : Z) : Z := v * -1.

(** [M] is the [k x N] display matrix whose column [n] is [rows n]. *)
Definition displays (M : list (list Z)) (N k : nat) (rows : nat -> list Z) : Prop :=
  (forall n, (n < N)%nat -> column M n = rows n) /\
  (forall r n, (r < k)%nat -> (n < N)%nat ->
     cell M r n = Some (nth r (rows n) 0)) /\
  (forall r n v, cell M r n = Some v -> (r < k)%nat /\ (n < N)%nat).

(** The integers [lo .. hi] in ascending order (empty when [hi < lo]). *)
Definition interval (lo hi : Z) : list Z :=
  map (fun j => lo + Z.of_nat j) (seq 0 (Z.to_nat (hi - lo + 1))).

(** The integers a range with bounds [(start, end)] stands for. *)
Definition rangeOf (r : Z * Z) : list Z := interval (fst r) (snd r).

(** [Chunked size lo hi bs]: the ranges [bs] cut [lo .. hi] from the left
    into pieces of [size] numbers, the last piece holding what is left. *)
Inductive Chunked (size : Z) : Z -> Z -> list (Z * Z) -> Prop :=
| Chunked_none lo hi :
    hi < lo -> Chunked size lo hi []
| Chunked_last lo hi :
    lo <= hi -> hi - lo + 1 <= size -> Chunked size lo hi [(lo, hi)]
| Chunked_more lo hi bs :
    lo + size - 1 < hi -> Chunked size (lo + size) hi bs ->
    Chunked size lo hi ((lo, lo + size - 1) :: bs).

(** ** The rest of the selectors *)

(** [Number(text)] on the text of an option.  The selects only hold
    decimal integer literals; the empty text reads as [0], and [None]
    stands for every other text (where JavaScript yields [NaN] or reads
    another number format). *)
Definition Number (text : string) : option Z :=
  match NilZero.int_of_string text with
  | Some d => Some (Z.of_int d)
  | None =>
      match text with
      | EmptyString => Some 0
      | String _ _ => None
      end
  end.

(** The text of the option [NumberSelector] renders for [value],
    [<option key={value}>{value}</option>]. *)
Definition NumberSelector_optionText (value : Z) : string := numberToString value.

(** [onChange] of [NumberSelector]: what is handed to [setCurrentValue]
    when the option with this text is chosen. *)
Definition NumberSelector_onChange (text : string) : option Z := Number text.

(** A nested array with [rows] rows of [cols] entries each. *)
Definition rectangular {A : Type} (rows cols : nat) (m : list (list A)) : Prop :=
  length m = rows /\ Forall (fun row => length row = cols) m.

(** A nested array fills its shape when it holds as many numbers as the
    shape read off its first elements says (as every array of [T]
    matrices of [L] rows of [N] numbers does). *)
Definition fills (values : list (list (list Z))) : Prop :=
  forall T L N, Tf.inferShape3 values = Some (T, L, N) ->
    length (concat (concat values)) = (T * L * N)%nat.

(** The conditions under which the selection of the state can be sliced
    out of the props: the sample has a rank-3 tensor of shape
    [T x L x N], the layer exists and the first and last of
    [neuronNumbers] are accepted as bounds. *)
Definition selectable (props : TopkProps) (st : State) (T : nat) : Prop :=
  exists values L N s e,
    nth_error (activations props) (sampleNumber st) = Some values /\
    Tf.inferShape3 values = Some (T, L, N) /\
    nth_error (neuronNumbers st) 0 = Some s /\
    nth_error (neuronNumbers st) (length (neuronNumbers st) - 1) = Some e /\
    (layerNumber st < L)%nat /\
    ((s <= e + 1 /\ e < N)%nat \/ (s = e + 2 /\ s <= N)%nat).

(** ** [TopBottomKTable] and what [Topk] renders with it *)

(** [Math.max(...currentTokens.map((token) => token.length))]; [None] is
    the [-Infinity] that [Math.max] gives without arguments.  A token is
    held as a string of one-unit characters, so its [length] is
    [String.length]. *)
Definition maxTokenLength (toks : list string) : option Z :=
  match toks with
  | [] => None
  | tok :: toks' =>
      Some (fold_left Z.max (map (fun token => Z.of_nat (String.length token)) toks')
              (Z.of_nat (String.length tok)))
  end.

(** One [Col] of a data row: the token and the value handed to
    [ColoredTokens], and the number of the width [`${maxTokenLength + 2}ch`]
    set by [tdStyle] ([None] for [-Infinity]).  The background colour of
    [tdStyle] comes from a utility outside this file and is left out. *)
Record TableCell : Type := mkTableCell
  { cellToken : option string;
    cellValue : Z;
    cellWidth : option Z }.

Inductive TableRow : Type :=
| HeaderRow (neuronNumbers : list nat)
| CellRow (cells : list TableCell)
| EllipsisRow (columns : nat).

(** [l.map((a, i) => f(a, i))], counting from [i]. *)
Fixpoint mapi_from {A B : Type} (f : A -> nat -> B) (i : nat) (l : list A) : list B :=
  match l with
  | [] => []
  | a :: l' => f a i :: mapi_from f (S i) l'
  end.

Definition mapi {A B : Type} (f : A -> nat -> B) (l : list A) : list B :=
  mapi_from f 0 l.

(** The list of the results, unless one of them is a throw. *)
Fixpoint sequence {A : Type} (l : list (option A)) : option (list A) :=
  match l with
  | [] => Some []
  | x :: l' => a <- x ;; rest <- sequence l' ;; Some (a :: rest)
  end.

(** One data row of the table,
    [activations.map((activation, neuronIdx) => ... tokens[tokenIdx][neuronIdx] ...)].
    Where the row has a cell, [tokens[tokenIdx]] must be there: reading
    [[neuronIdx]] of [undefined] throws. *)
Definition tableRow (rowTokens : list (list (option string))) (maxTokenLength : option Z)
  (activations : list Z) (tokenIdx : nat) : option (list TableCell) :=
  match activations with
  | [] => Some []
  | _ :: _ =>
      tokenRow <- nth_error rowTokens tokenIdx ;;
      Some (mapi (fun activation neuronIdx =>
                    mkTableCell
                      (match nth_error tokenRow neuronIdx with
                       | Some token => token
                       | None => None
                       end)
                      activation
                      (option_map (fun m => m + 2) maxTokenLength))
              activations)
  end.

Definition tableRows (rowTokens : list (list (option string))) (maxTokenLength : option Z)
  (rowActivations : list (list Z)) : option (list (list TableCell)) :=
  sequence (mapi (tableRow rowTokens maxTokenLength) rowActivations).

(** The rows of the [Container] built by [TopBottomKTable]: the header,
    the top-k rows, a row of ellipses as wide as the first top-k row
    ([topkActivations[0].length], which throws without a first row) and
    the bottom-k rows. *)
Definition TopBottomKTable (topkActivations bottomkActivations : list (list Z))
  (topkTokens bottomkTokens : list (list (option string)))
  (maxTokenLength : option Z) (neuronNumbers : list nat) : option (list TableRow) :=
  top <- tableRows topkTokens maxTokenLength topkActivations ;;
  first_ <- nth_error topkActivations 0 ;;
  bottom <- tableRows bottomkTokens maxTokenLength bottomkActivations ;;
  Some (HeaderRow neuronNumbers :: map CellRow top
          ++ EllipsisRow (length first_) :: map CellRow bottom).

(** The table [Topk] returns inside its [Container]. *)
Definition Topk_table (props : TopkProps) (st : State) : option (list TableRow) :=
  d <- Topk_derived props st ;;
  toks <- currentTokens props st ;;
  TopBottomKTable (topkVals (matrices d)) (bottomkVals (matrices d))
    (topkTokens d) (bottomkTokens d) (maxTokenLength toks) (neuronNumbers st).

(** Events that neither pick a neuron range nor change the column count. *)
Definition keepsColumns (st : State) (ev : Event) : Prop :=
  match ev with
  | SetNeuronNumbers _ => False
  | SetColsToShow c => c = colsToShow st
  | _ => True
  end.

(** A nested array of [T] matrices, each of [L] rows of [N] numbers: the
    form the [activations] of one sample are documented to have. *)
Definition rectangular3 (T L N : nat) (values : list (list (list Z))) : Prop :=
  rectangular T L values /\ Forall (rectangular L N) values.

(** The number a text starts with: an optional minus sign and the
    decimal digits that follow. *)
Definition isDigit (c : ascii) : bool :=
  ((48 <=? nat_of_ascii c) && (nat_of_ascii c <=? 57))%nat.

Fixpoint digitsPrefix (text : string) : string :=
  match text with
  | EmptyString => EmptyString
  | String c text' =>
      if isDigit c then String c (digitsPrefix text') else EmptyString
  end.

Definition leadingNumber (text : string) : string :=
  match text with
  | EmptyString => EmptyString
  | String c text' =>
      if Ascii.eqb c "-" then String c (digitsPrefix text') else digitsPrefix text
  end.

(** ** What [Topk] renders, and the sessions of the component *)

(** [activationsTensors[0].shape], which the library reads off the nested
    array of the first sample; reading it throws without a first sample.
    (For a first sample of rank below 3 the counts read from the shape
    are [undefined], on which the selectors throw.) *)
Definition firstShape (props : TopkProps) : option (nat * nat * nat) :=
  first_ <- nth_error (activations props) 0 ;;
  Tf.inferShape3 first_.

(** What one render of [Topk] puts on the page: the options of the five
    selects and the table. *)
Record View : Type := mkView
  { sampleOptions : list Z;
    layerOptions : list Z;
    neuronOptions : list string;
    colsOptions : list Z;
    kOptions : list Z;
    table : list TableRow }.

(** The argument handed to [useState] for [neuronNumbers],
    [numberOfSamples > 1 ? [...Array(colsToShow).keys()] : [0]].  It is
    evaluated at every render, though only the first render uses its
    value (which is [firstNeurons]). *)
Definition useState_neuronNumbers (numberOfSamples colsToShow : nat)
  : option (list Z) :=
  if (1 <? numberOfSamples)%nat then arrayKeys (Z.of_nat colsToShow) else Some [0].

(** One render of [Topk]: the body, then the selectors and the table it
    returns.  A throw anywhere leaves nothing rendered.  [fuel] bounds
    the iterations of the loop of the neuron select.  (The text the
    neuron select shows as its current value comes from
    [rangeArrToString], a utility outside this file, and is left out.) *)
Definition Topk_render (fuel : nat) (props : TopkProps) (st : State) : option View :=
  '(_, numberOfLayers, numberOfNeurons) <- firstShape props ;;
  _ <- useState_neuronNumbers (numberOfSamples props) (colsToShow st) ;;
  table <- Topk_table props st ;;
  sampleOptions <-
    NumberSelector_options 0 (jsSub (Z.of_nat (numberOfSamples props)) 1) ;;
  layerOptions <- NumberSelector_options 0 (jsSub (Z.of_nat numberOfLayers) 1) ;;
  neuronOptions <-
    RangeSelector_ranges_double fuel 0 (jsSub (Z.of_nat numberOfNeurons) 1)
      (Z.of_nat (colsToShow st)) ;;
  colsOptions <- NumberSelector_options 1 (Z.of_nat numberOfNeurons) ;;
  kOptions <- kSelector_options ;;
  Some (mkView sampleOptions layerOptions neuronOptions colsOptions kOptions table).

(** The calls of the setters the selectors rendered in state [st] can
    make: the number of an option of the sample, layer, column or k
    select, or the array for one of the ranges of the neuron select.
    That array comes from [rangeStringToArr], a utility outside this
    file; all that is used of it is that its first and last entries are
    the bounds of the range. *)
Definition offered (fuel : nat) (props : TopkProps) (st : State) (ev : Event) : Prop :=
  exists view,
    Topk_render fuel props st = Some view /\
    match ev with
    | SetSampleNumber n => In (Z.of_nat n) (sampleOptions view)
    | SetLayerNumber n => In (Z.of_nat n) (layerOptions view)
    | SetColsToShow c => In (Z.of_nat c) (colsOptions view)
    | SetK n => In (Z.of_nat n) (kOptions view)
    | SetNeuronNumbers rangeArr =>
        exists T L N bs a b,
          firstShape props = Some (T, L, N) /\
          RangeSelector_bounds_double fuel 0 (jsSub (Z.of_nat N) 1)
            (Z.of_nat (colsToShow st)) = Some bs /\
          In (a, b) bs /\
          hd_error rangeArr = Some (Z.to_nat a) /\
          nth_error rangeArr (length rangeArr - 1) = Some (Z.to_nat b)
    end.

(** Mounting: the first render, then the effect, which runs after the
    first render and stores [firstNeurons] again, and the render that
    follows. *)
Definition mount (fuel : nat) (props : TopkProps) : option State :=
  let st := initialState props in
  _ <- Topk_render fuel props st ;;
  let st' :=
    setState st
      (SetNeuronNumbers (firstNeurons (numberOfSamples props) (colsToShow st))) in
  _ <- Topk_render fuel props st' ;;
  Some st'.

(** One interaction with the mounted component: a setter is called and
    the component renders the new state; then the effect runs, and when
    it resets [neuronNumbers] the component renders once more.  A render
    that throws ends the session. *)
Definition interact (fuel : nat) (props : TopkProps) (st : State) (ev : Event)
  : option State :=
  let st1 := setState st ev in
  _ <- Topk_render fuel props st1 ;;
  let st2 := useEffect props st st1 in
  _ <- Topk_render fuel props st2 ;;
  Some st2.

(** The states in which the component is on the page after a session of
    offered calls. *)
Inductive Mounted (fuel : nat) (props : TopkProps) : State -> Prop :=
| Mounted_first st :
    mount fuel props = Some st -> Mounted fuel props st
| Mounted_next st ev st' :
    Mounted fuel props st -> offered fuel props st ev ->
    interact fuel props st ev = Some st' ->
    Mounted fuel props st'.

(** Props with room for every selection: each sample has a token list
    and a nested array of the same [L >= 1] layers and [N] neurons that
    fills its shape, with at least 20 tokens, and there are at least 5
    neurons when there are several samples (at least one otherwise).  As
    JavaScript arrays, the arrays of the props have fewer than [2 ^ 32]
    entries. *)
Definition roomy (props : TopkProps) (L N : nat) : Prop :=
  activations props <> [] /\
  (length (activations props) <= length (tokens props))%nat /\
  Forall (fun values => exists T,
            Tf.inferShape3 values = Some (T, L, N) /\
            length (concat (concat values)) = (T * L * N)%nat /\
            (20 <= T)%nat)
    (activations props) /\
  (1 <= L)%nat /\
  (if (1 <? numberOfSamples props)%nat then (5 <= N)%nat else (1 <= N)%nat) /\
  Z.of_nat (numberOfSamples props) < maxArrayLength /\
  Z.of_nat L < maxArrayLength /\
  Z.of_nat N < maxArrayLength.

(** What holds of every state a session on roomy props goes through. *)
Definition selectionValid (props : TopkProps) (L N : nat) (st : State) : Prop :=
  (sampleNumber st < numberOfSamples props)%nat /\
  (layerNumber st < L)%nat /\
  (1 <= colsToShow st <= Nat.max 5 N)%nat /\
  (1 <= k st <= 20)%nat /\
  exists s e,
    nth_error (neuronNumbers st) 0 = Some s /\
    nth_error (neuronNumbers st) (length (neuronNumbers st) - 1) = Some e /\
    (s <= e)%nat /\ (e < N)%nat.

(** ** Sample inputs *)

Definition ex_tensor : Tf.Tensor3D :=
  Tf.mkTensor3D (2, 2, 3)%nat [1; 2; 3; 4; 5; 6; 7; 8; 9; 10; 11; 12].

(** Two neurons over three tokens. *)
Definition ex_matrix : Tf.Tensor2D :=
  Tf.mkTensor2D (2, 3)%nat [3; 1; 2; -5; 4; 0].

(** One neuron over 25 tokens. *)
Definition ex_long : Tf.Tensor2D :=
  Tf.mkTensor2D (1, 25)%nat (map Z.of_nat (seq 0 25)).

Definition ex_tokens : list (list string) :=
  [["a"; "b"; "c"; "d"]; ["e"; "f"; "g"; "h"]]%string.

(** Two samples of four tokens, two layers and three neurons. *)
Definition ex_activations : list (list (list (list Z))) :=
  [ [ [[1; 2; 3]; [4; 5; 6]]; [[7; -8; 9]; [10; 11; 12]];
      [[-1; -2; -3]; [0; 0; 0]]; [[5; 5; 5]; [6; 7; 8]] ];
    [ [[1; 2; 3]; [4; 5; 6]]; [[7; 8; 9]; [10; 11; 12]];
      [[-1; -2; -3]; [0; 0; 0]]; [[5; 5; 5]; [6; 7; 8]] ] ].

Definition ex_props : TopkProps := mkTopkProps ex_tokens ex_activations.

Definition ex_state : State := mkState 0 0 3 2 [0; 1; 2]%nat.

(** Token lists shorter than the four tokens of the activations. *)
Definition ex_short_props : TopkProps :=
  mkTopkProps [["a"]; ["e"]]%string ex_activations.

(** A single sample: the first sample of [ex_props]. *)
Definition ex_single_props : TopkProps :=
  mkTopkProps (firstn 1 ex_tokens) (firstn 1 ex_activations).

(** Two samples of 20 tokens, one layer and five neurons. *)
Definition ex_roomy_sample (offset : Z) : list (list (list Z)) :=
  map (fun t => [map (fun n => offset + Z.of_nat t * (Z.of_nat n - 2)) (seq 0 5)])
    (seq 0 20).

Definition ex_roomy_props : TopkProps :=
  mkTopkProps [repeat "t"%string 20; repeat "u"%string 20]
    [ex_roomy_sample 0; ex_roomy_sample 7].

(** One sample of five tokens, one layer and three neurons. *)
Definition ex_one_sample_props : TopkProps :=
  mkTopkProps [["a"; "b"; "c"; "d"; "e"]]%string
    [ [ [[1; 2; 3]]; [[4; -5; 6]]; [[-7; 8; 9]]; [[0; 1; -2]]; [[3; 3; 3]] ] ].

(** Two samples of five tokens, one layer and five neurons. *)
Definition ex_pair_props : TopkProps :=
  mkTopkProps [["a"; "b"; "c"; "d"; "e"]; ["v"; "w"; "x"; "y"; "z"]]%string
    [ [ [[1; 2; 3; 4; 5]]; [[4; -5; 6; 0; 1]]; [[-7; 8; 9; 2; 2]];
        [[0; 1; -2; 7; 3]]; [[3; 3; 3; -1; 4]] ];
      [ [[2; 0; 1; 1; 9]]; [[9; 4; -3; 2; 8]]; [[5; 7; 0; 3; 7]];
        [[-1; 6; 8; 4; 6]]; [[3; -2; 5; 5; 5]] ] ].

(** One sample of five tokens, one layer and two neurons, with one
    number that no single holds. *)
Definition ex_large_props : TopkProps :=
  mkTopkProps [["a"; "b"; "c"; "d"; "e"]]%string
    [ [ [[16777217; 2]]; [[-3; 4]]; [[5; 6]]; [[7; 8]]; [[9; 10]] ] ].

(** The second sample of [ex_pair_props] with all five neurons and
    [k = 2]. *)
Definition ex_pair_state : State := mkState 1 0 5 2 [0; 1; 2; 3; 4]%nat.

(** * Properties *)

(** ** Numbers *)

Lemma double_exact (v : Z) : - maxSafe <= v <= maxSafe -> double v = v.
Proof.
  intros Hv. unfold double, roundTo.
  change (2 ^ 53) with maxSafe.
  destruct (Z.ltb_spec (Z.abs v) maxSafe) as [_ | Habs]; [reflexivity|].
  assert (Hcase : v = maxSafe \/ v = - maxSafe) by lia.
  destruct Hcase as [-> | ->]; vm_compute; reflexivity.
Qed.

Lemma float32_exact (v : Z) : - maxSafe32 <= v <= maxSafe32 -> float32 v = v.
Proof.
  intros Hv. unfold float32, roundTo.
  change (2 ^ 24) with maxSafe32.
  destruct (Z.ltb_spec (Z.abs v) maxSafe32) as [_ | Habs]; [reflexivity|].
  assert (Hcase : v = maxSafe32 \/ v = - maxSafe32) by lia.
  destruct Hcase as [-> | ->]; vm_compute; reflexivity.
Qed.

Lemma stored_exact (v : Z) : - maxSafe32 <= v <= maxSafe32 -> stored v = v.
Proof.
  intros Hv. unfold stored.
  rewrite double_exact by (unfold maxSafe32, maxSafe in *; lia).
  now apply float32_exact.
Qed.

Lemma jsAdd_exact (a b : Z) : - maxSafe <= a + b <= maxSafe -> jsAdd a b = a + b.
Proof. apply double_exact. Qed.

Lemma jsSub_exact (a b : Z) : - maxSafe <= a - b <= maxSafe -> jsSub a b = a - b.
Proof. apply double_exact. Qed.

(** The first integers that are not stored as they are. *)
Example double_rounds : double (maxSafe + 1) = maxSafe /\ double (maxSafe + 3) = maxSafe + 4.
Proof. split; reflexivity. Qed.

Example float32_rounds :
  float32 16777217 = 16777216 /\ float32 16777219 = 16777220 /\
  float32 (2 ^ 128 - 2 ^ 103) = 2 ^ 128 /\
  float32 (2 ^ 128 - 2 ^ 103 - 2 ^ 75) = 2 ^ 128 - 2 ^ 104.
Proof. repeat split; reflexivity. Qed.

(** ** Flat buffers cut into chunks of equal length *)

Section Chunks.

Context {A B : Type}.

Lemma length_flat_map_uniform (f : B -> list A) (m : nat) (l : list B) :
  (forall x, In x l -> length (f x) = m) ->
  length (flat_map f l) = (length l * m)%nat.
Proof.
  induction l as [| x l IH]; intros Hlen; simpl; [reflexivity|].
  rewrite length_app, IH by (intros; apply Hlen; simpl; auto).
  rewrite (Hlen x) by (simpl; auto).
  reflexivity.
Qed.

Lemma chunk_flat_map_uniform (f : B -> list A) (m : nat) (l : list B) (d : B) :
  (forall x, In x l -> length (f x) = m) ->
  forall i, (i < length l)%nat ->
  firstn m (skipn (i * m) (flat_map f l)) = f (nth i l d).
Proof.
  induction l as [| x l IH]; intros Hlen i Hi; simpl in *; [lia|].
  assert (Hx : length (f x) = m) by (apply Hlen; auto).
  destruct i as [| i]; simpl.
  - rewrite firstn_app, <- Hx, firstn_all, Nat.sub_diag. simpl.
    apply app_nil_r.
  - rewrite skipn_app, Hx.
    rewrite (skipn_all2 (f x)) by lia. simpl.
    replace (m + i * m - m)%nat with (i * m)%nat by lia.
    apply IH; [intros; apply Hlen; auto | lia].
Qed.

End Chunks.

Lemma chunk_flat_map_seq {A : Type} (f : nat -> list A) (m n i : nat) :
  (forall b, (b < n)%nat -> length (f b) = m) ->
  (i < n)%nat ->
  firstn m (skipn (i * m) (flat_map f (seq 0 n))) = f i.
Proof.
  intros Hlen Hi.
  rewrite (chunk_flat_map_uniform f m (seq 0 n) 0%nat).
  - rewrite seq_nth by lia. reflexivity.
  - intros x Hx. apply in_seq in Hx. apply Hlen; lia.
  - rewrite length_seq; lia.
Qed.

Lemma length_flat_map_seq {A : Type} (f : nat -> list A) (m n : nat) :
  (forall b, (b < n)%nat -> length (f b) = m) ->
  length (flat_map f (seq 0 n)) = (n * m)%nat.
Proof.
  intros Hlen.
  rewrite (length_flat_map_uniform f m).
  - now rewrite length_seq.
  - intros x Hx. apply in_seq in Hx. apply Hlen; lia.
Qed.

Lemma nth_chunk {A : Type} (size b j : nat) (x : list A) (d : A) :
  (j < size)%nat ->
  nth j (firstn size (skipn (b * size) x)) d = nth (b * size + j) x d.
Proof.
  intros Hj.
  rewrite nth_firstn.
  destruct (Nat.ltb_spec j size) as [_ | ?]; [|lia].
  apply nth_skipn.
Qed.

Lemma length_chunk {A : Type} (size r b : nat) (x : list A) :
  length x = (r * size)%nat -> (b < r)%nat ->
  length (firstn size (skipn (b * size) x)) = size.
Proof.
  intros Hlen Hb.
  rewrite length_firstn, length_skipn. nia.
Qed.

(** ** The tensor primitives *)

Section TensorFacts.

Import Tf.

Lemma nth_subarray (size b j : nat) (x : list Z) :
  (j < size)%nat -> nth j (subarray size x b) 0 = nth (b * size + j) x 0.
Proof. apply nth_chunk. Qed.

Lemma length_subarray (size r b : nat) (x : list Z) :
  length x = (r * size)%nat -> (b < r)%nat -> length (subarray size x b) = size.
Proof. apply length_chunk. Qed.

Lemma subarray_flat_map (f : nat -> list Z) (m n i : nat) :
  (forall b, (b < n)%nat -> length (f b) = m) -> (i < n)%nat ->
  subarray m (flat_map f (seq 0 n)) i = f i.
Proof. apply chunk_flat_map_seq. Qed.

Lemma get2_tensorRow (x : Tensor2D) (i j : nat) :
  (j < snd (shape2 x))%nat -> nth j (tensorRow x i) 0 = get2 x i j.
Proof. intros Hj. unfold tensorRow, get2. now apply nth_subarray. Qed.

Lemma length_tensorRow (x : Tensor2D) (r c n : nat) :
  shape2 x = (r, c) -> wf2 x -> (n < r)%nat -> length (tensorRow x n) = c.
Proof.
  unfold wf2, tensorRow. intros -> Hwf Hn. simpl in *.
  now apply (length_subarray c r).
Qed.

Lemma tensorRow_eq_map_get2 (x : Tensor2D) (r c n : nat) :
  shape2 x = (r, c) -> wf2 x -> (n < r)%nat ->
  tensorRow x n = map (fun j => get2 x n j) (seq 0 c).
Proof.
  intros Hs Hwf Hn.
  apply (nth_ext _ _ 0 0).
  - rewrite length_map, length_seq. now apply (length_tensorRow x r c).
  - intros j Hj. rewrite (length_tensorRow x r c) in Hj by assumption.
    rewrite get2_tensorRow by (rewrite Hs; assumption).
    rewrite (nth_indep _ 0 (get2 x n 0)) by (rewrite length_map, length_seq; lia).
    rewrite (map_nth (fun j => get2 x n j)), seq_nth by lia. reflexivity.
Qed.

(** *** [transpose] *)

Lemma shape2_transpose (x : Tensor2D) (r c : nat) :
  shape2 x = (r, c) -> shape2 (transpose x) = (c, r).
Proof. unfold transpose. now intros ->. Qed.

Lemma wf2_transpose (x : Tensor2D) : wf2 (transpose x).
Proof.
  unfold wf2, transpose. destruct (shape2 x) as [r c]. simpl.
  apply length_flat_map_seq. intros. now rewrite length_map, length_seq.
Qed.

Lemma tensorRow_transpose (x : Tensor2D) (r c j : nat) :
  shape2 x = (r, c) -> (j < c)%nat ->
  tensorRow (transpose x) j = map (fun i => get2 x i j) (seq 0 r).
Proof.
  intros Hs Hj. unfold tensorRow, transpose. rewrite Hs. simpl.
  apply (subarray_flat_map (fun j => map (fun i => get2 x i j) (seq 0 r)));
    [|assumption].
  intros. now rewrite length_map, length_seq.
Qed.

Lemma get2_transpose (x : Tensor2D) (r c i j : nat) :
  shape2 x = (r, c) -> (i < r)%nat -> (j < c)%nat ->
  get2 (transpose x) j i = get2 x i j.
Proof.
  intros Hs Hi Hj.
  rewrite <- get2_tensorRow by (rewrite (shape2_transpose x r c Hs); assumption).
  rewrite (tensorRow_transpose x r c) by assumption.
  rewrite (nth_indep _ 0 (get2 x 0 j)) by (rewrite length_map, length_seq; lia).
  rewrite (map_nth (fun i => get2 x i j)), seq_nth by lia. reflexivity.
Qed.

(** *** [arraySync] *)

Lemma arraySync_rows (x : Tensor2D) (r c : nat) :
  shape2 x = (r, c) -> (0 < r)%nat -> (0 < c)%nat ->
  arraySync x = map (tensorRow x) (seq 0 r).
Proof.
  intros Hs Hr Hc. unfold arraySync, tensorRow. rewrite Hs. simpl.
  destruct (Nat.eqb_spec (r * c) 0) as [E | _]; [nia | reflexivity].
Qed.

Lemma arraySync_empty (x : Tensor2D) (r c : nat) :
  shape2 x = (r, c) -> (r = 0 \/ c = 0)%nat -> arraySync x = [].
Proof.
  intros Hs Hz. unfold arraySync. rewrite Hs.
  destruct (Nat.eqb_spec (r * c) 0) as [_ | ?]; [reflexivity | nia].
Qed.

(** Reading the transposed tensor as a nested array and then down column
    [n] gives back row [n] of the tensor. *)
Lemma column_arraySync_transpose (x : Tensor2D) (r c n : nat) :
  shape2 x = (r, c) -> wf2 x -> (n < r)%nat ->
  column (arraySync (transpose x)) n = tensorRow x n.
Proof.
  intros Hs Hwf Hn.
  destruct (Nat.eq_dec c 0) as [-> | Hc].
  { rewrite (arraySync_empty (transpose x) 0 r) by
      (try apply shape2_transpose; auto).
    unfold tensorRow, subarray. now rewrite Hs. }
  rewrite (arraySync_rows (transpose x) c r) by
    (try apply shape2_transpose; try assumption; lia).
  unfold column. rewrite map_map.
  rewrite (tensorRow_eq_map_get2 x r c n) by assumption.
  apply map_ext_in. intros j Hj. apply in_seq in Hj.
  rewrite (get2_tensorRow (transpose x)) by
    (rewrite (shape2_transpose x r c Hs); assumption).
  apply (get2_transpose x r c); [assumption | assumption | lia].
Qed.

Lemma cell_arraySync_inv (x : Tensor2D) (r c i j : nat) (v : Z) :
  shape2 x = (r, c) -> wf2 x ->
  cell (arraySync x) i j = Some v -> (i < r)%nat /\ (j < c)%nat.
Proof.
  intros Hs Hwf. unfold cell, arraySync. rewrite Hs.
  destruct (Nat.eqb_spec (r * c) 0) as [_ | _].
  - now destruct i.
  - destruct (nth_error (map _ _) i) as [row |] eqn:Hrow; simpl; [|discriminate].
    intros Hv.
    assert (Hi : (i < length (map (subarray c (data2 x)) (seq 0 r)))%nat)
      by (apply nth_error_Some; congruence).
    rewrite length_map, length_seq in Hi.
    split; [exact Hi|].
    rewrite (nth_error_nth' _ (subarray c (data2 x) 0)) in Hrow
      by (rewrite length_map, length_seq; lia).
    rewrite (map_nth (subarray c (data2 x))), seq_nth in Hrow by lia.
    injection Hrow as Hrow. subst row.
    assert (Hj : (j < length (subarray c (data2 x) i))%nat)
      by (apply nth_error_Some; congruence).
    rewrite (length_subarray c r) in Hj; [exact Hj | | lia].
    unfold wf2 in Hwf. now rewrite Hs in Hwf.
Qed.

Lemma cell_arraySync (x : Tensor2D) (r c i j : nat) :
  shape2 x = (r, c) -> wf2 x -> (i < r)%nat -> (j < c)%nat ->
  cell (arraySync x) i j = Some (get2 x i j).
Proof.
  intros Hs Hwf Hi Hj. unfold cell.
  rewrite (arraySync_rows x r c) by (assumption || lia).
  rewrite (nth_error_nth' _ (tensorRow x 0)) by (rewrite length_map, length_seq; lia).
  rewrite (map_nth (tensorRow x)), seq_nth by lia. simpl.
  rewrite (nth_error_nth' _ 0) by (rewrite (length_tensorRow x r c); assumption).
  rewrite get2_tensorRow by (rewrite Hs; assumption). reflexivity.
Qed.

Lemma cell_arraySync_transpose (x : Tensor2D) (r c i j : nat) :
  shape2 x = (r, c) -> (i < r)%nat -> (j < c)%nat ->
  cell (arraySync (transpose x)) j i = Some (get2 x i j).
Proof.
  intros Hs Hi Hj.
  rewrite (cell_arraySync (transpose x) c r) by
    (try apply shape2_transpose; try apply wf2_transpose; assumption).
  f_equal. now apply (get2_transpose x r c).
Qed.

End TensorFacts.

(** ** [getSelectedActivations] *)

Section Selection.

Import Tf.

Lemma sliceSize_fits (dim begin : nat) (size : Z) :
  0 <= size -> (begin + Z.to_nat size <= dim)%nat ->
  sliceSize dim begin size = Some (Z.to_nat size).
Proof.
  intros H0 Hfit. unfold sliceSize.
  destruct (Z.leb_spec 0 size) as [_ | ?]; [|lia]. simpl.
  destruct (Nat.leb_spec (begin + Z.to_nat size) dim) as [_ | ?]; [|lia].
  reflexivity.
Qed.

Lemma sliceSize_rest (dim begin : nat) :
  (begin <= dim)%nat -> sliceSize dim begin (-1) = Some (dim - begin)%nat.
Proof.
  intros Hb. unfold sliceSize. simpl.
  destruct (Nat.leb_spec (begin + (dim - begin)) dim) as [_ | ?]; [|lia].
  reflexivity.
Qed.

(** The tensor [getSelectedActivations] builds before it transposes. *)
Lemma getSelectedActivations_unfold (A : Tensor3D) (T L N l s e : nat) :
  shape3 A = (T, L, N) -> (l < L)%nat -> (s <= e)%nat -> (e < N)%nat ->
  getSelectedActivations A l s e =
    Some (transpose
            (mkTensor2D (T, e - s + 1)%nat
               (flat_map (fun t =>
                  map (fun n => get3 A t l (s + n)) (seq 0 (e - s + 1)))
                  (seq 0 T)))).
Proof.
  intros Hs Hl Hse He.
  unfold getSelectedActivations, slice. rewrite Hs.
  rewrite (sliceSize_rest T 0) by lia.
  rewrite (sliceSize_fits L l 1) by (simpl; lia).
  rewrite (sliceSize_fits N s) by lia.
  replace (Z.to_nat (Z.of_nat e - Z.of_nat s + 1)) with (e - s + 1)%nat by lia.
  simpl. unfold squeeze1. simpl.
  rewrite Nat.sub_0_r. do 3 f_equal.
  apply flat_map_ext. intros t. rewrite app_nil_r.
  apply map_ext. intros n. now rewrite Nat.add_0_r.
Qed.

End Selection.

Lemma getSelectedActivations_entries (A : Tf.Tensor3D) (T L N l s e : nat) :
  Tf.shape3 A = (T, L, N) -> (l < L)%nat -> (s <= e)%nat -> (e < N)%nat ->
  exists R,
    getSelectedActivations A l s e = Some R /\
    Tf.shape2 R = ((e - s + 1)%nat, T) /\
    wf2 R /\
    forall n t, (n < e - s + 1)%nat -> (t < T)%nat ->
      Tf.get2 R n t = Tf.get3 A t l (s + n).
Proof.
  intros Hs Hl Hse He.
  rewrite (getSelectedActivations_unfold A T L N) by assumption.
  set (Q := Tf.mkTensor2D _ _).
  assert (HQ : Tf.shape2 Q = (T, (e - s + 1)%nat)) by reflexivity.
  exists (Tf.transpose Q). split; [reflexivity|].
  split; [now apply shape2_transpose|].
  split; [apply wf2_transpose|].
  intros n t Hn Ht.
  rewrite (get2_transpose Q T (e - s + 1)) by assumption.
  rewrite <- get2_tensorRow by (rewrite HQ; assumption).
  unfold tensorRow. rewrite HQ. simpl snd. unfold Q. simpl Tf.data2.
  rewrite (subarray_flat_map
             (fun t => map (fun n => Tf.get3 A t l (s + n)) (seq 0 (e - s + 1))))
    by (intros; try rewrite length_map, length_seq; auto).
  rewrite (nth_indep _ 0 (Tf.get3 A t l (s + 0))) by
    (rewrite length_map, length_seq; lia).
  rewrite (map_nth (fun n => Tf.get3 A t l (s + n))), seq_nth by lia.
  reflexivity.
Qed.

(** C3.  For a rank-3 tensor [A] of shape [tokens x layers x neurons], a
    valid layer [l] and a valid inclusive neuron range [s .. e],
    [getSelectedActivations A l s e] returns a tensor of shape
    [(e - s + 1) x tokens] whose entry at [n], [t] is the entry of [A] at
    token [t], layer [l], neuron [s + n]; the same holds of the nested
    array read back from it. *)
Theorem getSelectedActivations_slices_layer
  (A : Tf.Tensor3D) (T L N l s e : nat) :
  Tf.shape3 A = (T, L, N) -> (l < L)%nat -> (s <= e)%nat -> (e < N)%nat ->
  exists R,
    getSelectedActivations A l s e = Some R /\
    Tf.shape2 R = ((e - s + 1)%nat, T) /\
    wf2 R /\
    forall n t, (n < e - s + 1)%nat -> (t < T)%nat ->
      Tf.get2 R n t = Tf.get3 A t l (s + n) /\
      cell (Tf.arraySync R) n t = Some (Tf.get3 A t l (s + n)).
Proof.
  intros Hs Hl Hse He.
  destruct (getSelectedActivations_entries A T L N l s e Hs Hl Hse He)
    as (R & HR & Hshape & Hwf & Hget).
  exists R. repeat split; try assumption.
  - now apply Hget.
  - rewrite (cell_arraySync R (e - s + 1) T) by assumption.
    f_equal. now apply Hget.
Qed.

Lemma getSelectedActivations_slices_layer_witness :
  exists R,
    getSelectedActivations ex_tensor 1 1 2 = Some R /\
    Tf.shape2 R = (2, 2)%nat /\
    cell (Tf.arraySync R) 1 0 = Some 6.
Proof.
  destruct (getSelectedActivations_slices_layer ex_tensor 2 2 3 1 1 2)
    as (R & HR & Hshape & _ & Hget);
    [reflexivity | lia | lia | lia |].
  exists R. split; [exact HR|]. split; [exact Hshape|].
  destruct (Hget 1%nat 0%nat) as [_ Hcell]; [simpl; lia | lia |].
  exact Hcell.
Defined.

(** ** Sorted lists *)

Section SortedFacts.

Context {A : Type} (R : A -> A -> Prop).

Lemma StronglySorted_app_iff (l1 l2 : list A) :
  StronglySorted R (l1 ++ l2) <->
  StronglySorted R l1 /\ StronglySorted R l2 /\
  (forall x y, In x l1 -> In y l2 -> R x y).
Proof.
  induction l1 as [| a l1 IH]; simpl.
  - split.
    + intros H. repeat split; [constructor | assumption | contradiction].
    + now intros (_ & H & _).
  - split.
    + intros H. apply StronglySorted_inv in H. destruct H as [Hs Hall].
      apply IH in Hs. destruct Hs as (H1 & H2 & H12).
      rewrite Forall_app in Hall. destruct Hall as [Ha1 Ha2].
      repeat split; [now constructor | assumption |].
      intros x y [<- | Hx] Hy.
      * rewrite Forall_forall in Ha2. now apply Ha2.
      * now apply H12.
    + intros (H1 & H2 & H12).
      apply StronglySorted_inv in H1. destruct H1 as [H1 Ha1].
      constructor.
      * apply IH. repeat split; [assumption | assumption |].
        intros x y Hx Hy. apply H12; auto.
      * rewrite Forall_app. split; [assumption|].
        rewrite Forall_forall. intros y Hy. apply H12; auto.
Qed.

End SortedFacts.

Lemma StronglySorted_rev {A : Type} (R : A -> A -> Prop) (l : list A) :
  StronglySorted R l -> StronglySorted (fun x y => R y x) (rev l).
Proof.
  induction 1 as [| a l Hs IH Hall]; simpl; [constructor|].
  apply StronglySorted_app_iff. split; [assumption|].
  split; [repeat constructor|].
  intros x y Hx [<- | []]. apply in_rev in Hx.
  rewrite Forall_forall in Hall. now apply Hall.
Qed.

Lemma StronglySorted_map {A B : Type} (R : A -> A -> Prop) (S : B -> B -> Prop)
  (f : A -> B) (l : list A) :
  (forall x y, R x y -> S (f x) (f y)) ->
  StronglySorted R l -> StronglySorted S (map f l).
Proof.
  intros HRS. induction 1 as [| a l Hs IH Hall]; simpl; constructor.
  - assumption.
  - rewrite Forall_map. revert Hall. apply Forall_impl. intros; now apply HRS.
Qed.

(** ** The ordering of [topk] *)

Section TopkRow.

Import Tf.

Lemma before_iff (a b : Pair) :
  before a b <->
  value b < value a \/ (value b = value a /\ (index a <= index b)%nat).
Proof.
  unfold before, comparePair.
  destruct (Z.eqb_spec (value b) (value a)); lia.
Qed.

Lemma before_total (a b : Pair) : before a b \/ before b a.
Proof. rewrite !before_iff. lia. Qed.

Lemma before_trans (a b c : Pair) : before a b -> before b c -> before a c.
Proof. rewrite !before_iff. lia. Qed.

Lemma before_value (a b : Pair) : before a b -> value b <= value a.
Proof. rewrite before_iff. lia. Qed.

Lemma insert_perm (p : Pair) (l : list Pair) : Permutation (insert p l) (p :: l).
Proof.
  induction l as [| q l IH]; simpl; [reflexivity|].
  destruct (comparePair p q <=? 0); [reflexivity|].
  rewrite IH. apply perm_swap.
Qed.

Lemma insert_sorted (p : Pair) (l : list Pair) :
  StronglySorted before l -> StronglySorted before (insert p l).
Proof.
  induction 1 as [| q l Hs IH Hall]; simpl; [repeat constructor|].
  destruct (Z.leb_spec (comparePair p q) 0) as [Hpq | Hqp].
  - constructor; [now constructor|].
    constructor; [assumption|].
    revert Hall. apply Forall_impl. intros c. now apply before_trans.
  - constructor; [assumption|].
    apply (Permutation_Forall (Permutation_sym (insert_perm p l))).
    constructor; [|assumption].
    destruct (before_total p q) as [H | H]; [unfold before in H; lia | assumption].
Qed.

Lemma sort_perm (l : list Pair) : Permutation (sort l) l.
Proof.
  induction l as [| p l IH]; simpl; [reflexivity|].
  rewrite insert_perm. now constructor.
Qed.

Lemma sort_sorted (l : list Pair) : StronglySorted before (sort l).
Proof.
  induction l as [| p l IH]; simpl; [constructor | now apply insert_sorted].
Qed.

End TopkRow.

Section TopkRowFacts.

Import Tf.

Lemma valAndInd_from (s : nat) (vals : list Z) :
  let ps := map (fun '(v, i) => mkPair v i) (combine vals (seq s (length vals))) in
  map value ps = vals /\
  map index ps = seq s (length vals) /\
  Forall (fun p => (s <= index p < s + length vals)%nat /\
                   nth (index p - s) vals 0 = value p) ps.
Proof.
  revert s. induction vals as [| v vals IH]; intros s; simpl.
  - repeat split; constructor.
  - destruct (IH (S s)) as (Hv & Hi & Hall). simpl in *.
    rewrite Hv, Hi. repeat split.
    constructor; simpl.
    + split; [lia|]. now rewrite Nat.sub_diag.
    + revert Hall. apply Forall_impl. intros p [Hr Hn]. split; [lia|].
      replace (index p - s)%nat with (S (index p - S s)) by lia. exact Hn.
Qed.

Lemma map_value_valAndInd (vals : list Z) : map value (valAndInd vals) = vals.
Proof. apply (valAndInd_from 0 vals). Qed.

Lemma map_index_valAndInd (vals : list Z) :
  map index (valAndInd vals) = seq 0 (length vals).
Proof. apply (valAndInd_from 0 vals). Qed.

Lemma valAndInd_lookup (vals : list Z) :
  Forall (fun p => (index p < length vals)%nat /\ nth (index p) vals 0 = value p)
    (valAndInd vals).
Proof.
  destruct (valAndInd_from 0 vals) as (_ & _ & Hall).
  revert Hall. apply Forall_impl. intros p [Hr Hn].
  rewrite Nat.sub_0_r in Hn. split; [lia | exact Hn].
Qed.

Lemma length_sort_valAndInd (vals : list Z) :
  length (sort (valAndInd vals)) = length vals.
Proof.
  rewrite (Permutation_length (sort_perm _)).
  rewrite <- (length_map value), map_value_valAndInd. reflexivity.
Qed.

Lemma length_topkRow (k : nat) (vals : list Z) :
  (k <= length vals)%nat -> length (topkRow k vals) = k.
Proof.
  intros Hk. unfold topkRow.
  apply firstn_length_le. now rewrite length_sort_valAndInd.
Qed.

(** The pairs kept come before the pairs dropped. *)
Lemma topkRow_split (k : nat) (vals : list Z) :
  Permutation (topkRow k vals ++ skipn k (sort (valAndInd vals))) (valAndInd vals) /\
  StronglySorted before (topkRow k vals) /\
  (forall p q, In p (topkRow k vals) -> In q (skipn k (sort (valAndInd vals))) ->
               before p q).
Proof.
  unfold topkRow.
  pose proof (sort_sorted (valAndInd vals)) as Hs.
  rewrite <- (firstn_skipn k (sort (valAndInd vals))) in Hs.
  apply StronglySorted_app_iff in Hs. destruct Hs as (H1 & _ & H12).
  split; [|split; assumption].
  rewrite firstn_skipn. apply sort_perm.
Qed.

Lemma topkRow_sorted (k : nat) (vals : list Z) :
  StronglySorted (fun x y => y <= x) (map value (topkRow k vals)).
Proof.
  destruct (topkRow_split k vals) as (_ & Hs & _).
  revert Hs. apply StronglySorted_map. exact before_value.
Qed.

Lemma topkRow_lookup (k : nat) (vals : list Z) :
  Forall (fun p => (index p < length vals)%nat /\ nth (index p) vals 0 = value p)
    (topkRow k vals).
Proof.
  destruct (topkRow_split k vals) as (Hp & _ & _).
  pose proof (Permutation_Forall (Permutation_sym Hp) (valAndInd_lookup vals)) as H.
  now apply Forall_app in H.
Qed.

Lemma topkRow_NoDup (k : nat) (vals : list Z) : NoDup (map index (topkRow k vals)).
Proof.
  destruct (topkRow_split k vals) as (Hp & _ & _).
  apply (Permutation_map index) in Hp.
  rewrite map_app, map_index_valAndInd in Hp.
  apply Permutation_sym in Hp.
  pose proof (Permutation_NoDup Hp (seq_NoDup (length vals) 0)) as H.
  now apply NoDup_app_remove_r in H.
Qed.

(** The values kept are the [k] largest of the row: with the values
    dropped they make up the row, and none dropped exceeds one kept. *)
Lemma topkRow_largest (k : nat) (vals : list Z) :
  exists rest,
    Permutation (map value (topkRow k vals) ++ rest) vals /\
    forall x y, In x (map value (topkRow k vals)) -> In y rest -> y <= x.
Proof.
  destruct (topkRow_split k vals) as (Hp & _ & H12).
  exists (map value (skipn k (sort (valAndInd vals)))). split.
  - rewrite <- map_app.
    apply (Permutation_map value) in Hp.
    now rewrite map_value_valAndInd in Hp.
  - intros x y Hx Hy.
    apply in_map_iff in Hx. destruct Hx as (p & <- & Hp').
    apply in_map_iff in Hy. destruct Hy as (q & <- & Hq').
    apply before_value. now apply H12.
Qed.

End TopkRowFacts.

(** ** [topk], [mul] and [reverse] row by row *)

Section RowWise.

Import Tf.

Lemma flat_map_map {A B C : Type} (f : B -> list C) (g : A -> B) (l : list A) :
  flat_map f (map g l) = flat_map (fun a => f (g a)) l.
Proof. induction l as [| a l IH]; simpl; [reflexivity | now rewrite IH]. Qed.

Lemma shape2_mul (x : Tensor2D) (s : Z) : shape2 (mul x s) = shape2 x.
Proof. reflexivity. Qed.

Lemma wf2_mul (x : Tensor2D) (s : Z) : wf2 x -> wf2 (mul x s).
Proof. unfold wf2, mul. simpl. now rewrite length_map. Qed.

Lemma tensorRow_mul (x : Tensor2D) (s : Z) (n : nat) :
  tensorRow (mul x s) n = map (fun v => v * s) (tensorRow x n).
Proof.
  unfold tensorRow, mul, subarray. simpl.
  now rewrite skipn_map, firstn_map.
Qed.

Lemma shape2_reverse (x : Tensor2D) : shape2 (reverse x) = shape2 x.
Proof. unfold reverse. now destruct (shape2 x). Qed.

Lemma length_rev_subarray (x : Tensor2D) (r c : nat) :
  shape2 x = (r, c) -> wf2 x ->
  forall b, (b < r)%nat -> length (rev (subarray c (data2 x) b)) = c.
Proof.
  intros Hs Hwf b Hb. rewrite length_rev.
  apply (length_subarray c r); [|assumption].
  unfold wf2 in Hwf. now rewrite Hs in Hwf.
Qed.

Lemma wf2_reverse (x : Tensor2D) : wf2 x -> wf2 (reverse x).
Proof.
  intros Hwf. unfold wf2. rewrite shape2_reverse.
  unfold reverse. destruct (shape2 x) as [r c] eqn:Hs. simpl.
  apply length_flat_map_seq. now apply length_rev_subarray.
Qed.

Lemma tensorRow_reverse (x : Tensor2D) (r c n : nat) :
  shape2 x = (r, c) -> wf2 x -> (n < r)%nat ->
  tensorRow (reverse x) n = rev (tensorRow x n).
Proof.
  intros Hs Hwf Hn. unfold tensorRow. rewrite shape2_reverse.
  unfold reverse. rewrite Hs. simpl.
  apply (subarray_flat_map (fun b => rev (subarray c (data2 x) b)));
    [|assumption].
  now apply length_rev_subarray.
Qed.

(** [topk] succeeds exactly when [k] fits the last axis. *)
Lemma topk_throws (x : Tensor2D) (r c k : nat) :
  shape2 x = (r, c) -> (c < k)%nat -> topk x k = None.
Proof.
  intros Hs Hk. unfold topk. rewrite Hs.
  destruct (Nat.leb_spec k c) as [? | _]; [lia | reflexivity].
Qed.

Lemma topk_rows (x : Tensor2D) (r c k : nat) :
  shape2 x = (r, c) -> wf2 x -> (k <= c)%nat ->
  exists V I,
    topk x k = Some (V, I) /\
    shape2 V = (r, k) /\ shape2 I = (r, k) /\ wf2 V /\ wf2 I /\
    forall n, (n < r)%nat ->
      tensorRow V n = map value (topkRow k (tensorRow x n)) /\
      tensorRow I n = map indexZ (topkRow k (tensorRow x n)).
Proof.
  intros Hs Hwf Hk. unfold topk. rewrite Hs.
  destruct (Nat.leb_spec k c) as [_ | ?]; [|lia]. simpl.
  eexists _, _. split; [reflexivity|].
  assert (Hlen : forall b, (b < r)%nat ->
            length (topkRow k (subarray c (data2 x) b)) = k).
  { intros b Hb. apply length_topkRow.
    rewrite (length_subarray c r); [assumption | | assumption].
    unfold wf2 in Hwf. now rewrite Hs in Hwf. }
  split; [reflexivity|]. split; [reflexivity|].
  unfold wf2, tensorRow. simpl. rewrite Hs. simpl.
  rewrite !flat_map_map.
  split; [|split].
  - apply length_flat_map_seq. intros b Hb. rewrite length_map. now apply Hlen.
  - apply length_flat_map_seq. intros b Hb. rewrite length_map. now apply Hlen.
  - intros n Hn. split.
    + apply (subarray_flat_map
               (fun b => map value (topkRow k (subarray c (data2 x) b))));
        [|assumption].
      intros b Hb. rewrite length_map. now apply Hlen.
    + apply (subarray_flat_map
               (fun b => map indexZ (topkRow k (subarray c (data2 x) b))));
        [|assumption].
      intros b Hb. rewrite length_map. now apply Hlen.
Qed.

End RowWise.

(** ** The display matrices of [Topk] *)

Lemma displays_arraySync_transpose (X : Tf.Tensor2D) (N k : nat)
  (rows : nat -> list Z) :
  Tf.shape2 X = (N, k) -> wf2 X ->
  (forall n, (n < N)%nat -> tensorRow X n = rows n) ->
  displays (Tf.arraySync (Tf.transpose X)) N k rows.
Proof.
  intros Hs Hwf Hrows. split; [|split].
  - intros n Hn. rewrite <- Hrows by assumption.
    now apply (column_arraySync_transpose X N k).
  - intros r n Hr Hn. rewrite <- Hrows by assumption.
    rewrite (cell_arraySync_transpose X N k) by assumption.
    f_equal. symmetry. apply get2_tensorRow. now rewrite Hs.
  - intros r n v Hv.
    apply (cell_arraySync_inv (Tf.transpose X) k N) in Hv;
      [exact Hv | now apply shape2_transpose | apply wf2_transpose].
Qed.

Lemma topBottomK_displays (A : Tf.Tensor2D) (N T k : nat) :
  Tf.shape2 A = (N, T) -> wf2 A -> (k <= T)%nat ->
  exists tb,
    topBottomK A k = Some tb /\
    displays (topkVals tb) N k
      (fun n => map Tf.value (Tf.topkRow k (tensorRow A n))) /\
    displays (topkIdxs tb) N k
      (fun n => map indexZ (Tf.topkRow k (tensorRow A n))) /\
    displays (bottomkVals tb) N k
      (fun n => rev (map negate
                       (map Tf.value (Tf.topkRow k (map negate (tensorRow A n)))))) /\
    displays (bottomkIdxs tb) N k
      (fun n => rev (map indexZ (Tf.topkRow k (map negate (tensorRow A n))))).
Proof.
  intros Hs Hwf HkT. unfold topBottomK.
  destruct (topk_rows A N T k Hs Hwf HkT)
    as (V & I & -> & HsV & HsI & HwV & HwI & Hrow).
  destruct (topk_rows (Tf.mul A (-1)) N T k)
    as (V' & I' & -> & HsV' & HsI' & HwV' & HwI' & Hrow');
    [assumption | now apply wf2_mul | assumption |].
  simpl. eexists. split; [reflexivity|]. simpl.
  split; [|split; [|split]].
  - apply displays_arraySync_transpose; try assumption.
    intros n Hn. now apply Hrow.
  - apply displays_arraySync_transpose; try assumption.
    intros n Hn. now apply Hrow.
  - apply displays_arraySync_transpose.
    + now rewrite shape2_reverse, shape2_mul.
    + now apply wf2_reverse, wf2_mul.
    + intros n Hn.
      rewrite (tensorRow_reverse _ N k) by (try apply wf2_mul; assumption).
      rewrite tensorRow_mul. destruct (Hrow' n Hn) as [-> _].
      now rewrite tensorRow_mul.
  - apply displays_arraySync_transpose.
    + now rewrite shape2_reverse.
    + now apply wf2_reverse.
    + intros n Hn.
      rewrite (tensorRow_reverse _ N k) by assumption.
      destruct (Hrow' n Hn) as [_ ->].
      now rewrite tensorRow_mul.
Qed.

(** ** One row of the top-k and of the bottom-k result *)

Section RowResults.

Import Tf.

Lemma negate_involutive (v : Z) : negate (negate v) = v.
Proof. unfold negate. lia. Qed.

Lemma map_negate_involutive (l : list Z) : map negate (map negate l) = l.
Proof.
  rewrite map_map. rewrite <- (map_id l) at 2.
  apply map_ext. exact negate_involutive.
Qed.

Lemma nth_map_negate (i : nat) (l : list Z) :
  nth i (map negate l) 0 = negate (nth i l 0).
Proof. exact (map_nth negate l 0 i). Qed.

Lemma NoDup_map_indexZ (ps : list Pair) :
  NoDup (map index ps) -> NoDup (map indexZ ps).
Proof.
  intros H. change indexZ with (fun p => Z.of_nat (index p)).
  rewrite <- (map_map index Z.of_nat).
  apply NoDup_map_NoDup_ForallPairs; [|assumption].
  intros x y _ _. apply Nat2Z.inj.
Qed.

(** Values and positions read at the same rank belong together. *)
Lemma paired_nth (fv : Pair -> Z) (row : list Z) (ps : list Pair) :
  Forall (fun p => (index p < length row)%nat /\ nth (index p) row 0 = fv p) ps ->
  forall r, (r < length ps)%nat ->
    0 <= nth r (map indexZ ps) 0 < Z.of_nat (length row) /\
    nth r (map fv ps) 0 = nth (Z.to_nat (nth r (map indexZ ps) 0)) row 0.
Proof.
  intros Hall r Hr.
  pose (d := mkPair 0 0).
  rewrite (nth_indep (map indexZ ps) 0 (indexZ d)) by now rewrite length_map.
  rewrite (nth_indep (map fv ps) 0 (fv d)) by now rewrite length_map.
  rewrite !map_nth.
  rewrite Forall_forall in Hall.
  destruct (Hall (nth r ps d)) as [Hi Hv]; [now apply nth_In|].
  unfold indexZ. rewrite Nat2Z.id. split; [lia | now symmetry].
Qed.

Lemma topRow_facts (k : nat) (row : list Z) :
  (k <= length row)%nat ->
  let vals := map value (topkRow k row) in
  let idxs := map indexZ (topkRow k row) in
  length vals = k /\ length idxs = k /\
  StronglySorted (fun x y => y <= x) vals /\
  NoDup idxs /\
  (forall r, (r < k)%nat ->
     0 <= nth r idxs 0 < Z.of_nat (length row) /\
     nth r vals 0 = nth (Z.to_nat (nth r idxs 0)) row 0) /\
  exists rest,
    Permutation (vals ++ rest) row /\
    forall x y, In x vals -> In y rest -> y <= x.
Proof.
  intros Hk vals idxs. subst vals idxs.
  rewrite !length_map, length_topkRow by assumption.
  split; [reflexivity|]. split; [reflexivity|].
  split; [apply topkRow_sorted|].
  split; [apply NoDup_map_indexZ, topkRow_NoDup|].
  split; [|apply topkRow_largest].
  intros r Hr. apply paired_nth; [apply topkRow_lookup|].
  now rewrite length_topkRow.
Qed.

Lemma bottomRow_facts (k : nat) (row : list Z) :
  (k <= length row)%nat ->
  let raw := map value (topkRow k (map negate row)) in
  let vals := rev (map negate raw) in
  let idxs := rev (map indexZ (topkRow k (map negate row))) in
  length vals = k /\ length idxs = k /\
  StronglySorted Z.le (map negate raw) /\
  StronglySorted (fun x y => y <= x) vals /\
  NoDup idxs /\
  (forall r, (r < k)%nat ->
     0 <= nth r idxs 0 < Z.of_nat (length row) /\
     nth r vals 0 = nth (Z.to_nat (nth r idxs 0)) row 0) /\
  exists rest,
    Permutation (vals ++ rest) row /\
    forall x y, In x vals -> In y rest -> x <= y.
Proof.
  intros Hk raw vals idxs. subst raw vals idxs.
  assert (Hk' : (k <= length (map negate row))%nat) by now rewrite length_map.
  set (ps := topkRow k (map negate row)).
  assert (Hlen : length ps = k) by now apply length_topkRow.
  assert (Hasc : StronglySorted Z.le (map negate (map value ps))).
  { generalize (topkRow_sorted k (map negate row)). fold ps.
    apply StronglySorted_map. unfold negate. intros; lia. }
  rewrite !length_rev, !length_map, Hlen.
  split; [reflexivity|]. split; [reflexivity|].
  split; [exact Hasc|].
  split; [now apply (StronglySorted_rev Z.le)|].
  split; [apply NoDup_rev, NoDup_map_indexZ, topkRow_NoDup|].
  split.
  - intros r Hr.
    rewrite (map_map value negate), <- !map_rev.
    apply (paired_nth (fun p => negate (value p)) row (rev ps));
      [|now rewrite length_rev, Hlen].
    apply Forall_rev.
    generalize (topkRow_lookup k (map negate row)). fold ps.
    apply Forall_impl. intros p [Hi Hv].
    rewrite length_map in Hi. split; [assumption|].
    rewrite nth_map_negate in Hv. rewrite <- Hv.
    symmetry. apply negate_involutive.
  - destruct (topkRow_largest k (map negate row)) as (rest & Hperm & Hle).
    fold ps in Hperm, Hle.
    exists (map negate rest). split.
    + rewrite <- Permutation_rev.
      rewrite <- map_app, <- (map_negate_involutive row).
      now apply Permutation_map.
    + intros x y Hx Hy.
      apply in_rev, in_map_iff in Hx. destruct Hx as (x' & <- & Hx').
      apply in_map_iff in Hy. destruct Hy as (y' & <- & Hy').
      specialize (Hle x' y' Hx' Hy'). unfold negate. lia.
Qed.

End RowResults.

(** ** Top-k and bottom-k columns *)

(** C1.  For a well-formed [neurons x tokens] matrix [A] and
    [1 <= k <= tokens], the pipeline succeeds and, for every neuron [n],
    column [n] of [topkVals] has [k] entries in non-increasing order which
    are the [k] largest values of row [n] of [A] (together with the values
    left over they are a rearrangement of the row, and no value left over
    exceeds one of them); column [n] of [topkIdxs] lists, rank by rank, a
    token position holding that value, without repetition. *)
Theorem topk_column_k_largest (A : Tf.Tensor2D) (N T k n : nat) :
  Tf.shape2 A = (N, T) -> wf2 A -> (1 <= k <= T)%nat -> (n < N)%nat ->
  exists tb,
    topBottomK A k = Some tb /\
    let vals := column (topkVals tb) n in
    let idxs := column (topkIdxs tb) n in
    length vals = k /\ length idxs = k /\
    (forall r, (r < k)%nat ->
       cell (topkVals tb) r n = Some (nth r vals 0) /\
       cell (topkIdxs tb) r n = Some (nth r idxs 0)) /\
    StronglySorted (fun x y => y <= x) vals /\
    NoDup idxs /\
    (forall r, (r < k)%nat ->
       0 <= nth r idxs 0 < Z.of_nat T /\
       nth r vals 0 = Tf.get2 A n (Z.to_nat (nth r idxs 0))) /\
    exists rest,
      Permutation (vals ++ rest) (tensorRow A n) /\
      forall x y, In x vals -> In y rest -> y <= x.
Proof.
  intros Hs Hwf Hk Hn.
  destruct (topBottomK_displays A N T k Hs Hwf (proj2 Hk))
    as (tb & Htb & (HcV & HeV & _) & (HcI & HeI & _) & _).
  exists tb. split; [exact Htb|].
  assert (Hlen : length (tensorRow A n) = T) by now apply (length_tensorRow A N T).
  destruct (topRow_facts k (tensorRow A n)) as (L1 & L2 & Hsort & Hnd & Hpair & Hlarge);
    [lia|].
  cbv zeta. rewrite (HcV n Hn), (HcI n Hn).
  split; [exact L1|]. split; [exact L2|].
  split; [intros r Hr; split; [now apply HeV | now apply HeI]|].
  split; [exact Hsort|]. split; [exact Hnd|].
  split; [|exact Hlarge].
  intros r Hr. destruct (Hpair r Hr) as [Hrange Hval].
  rewrite Hlen in Hrange. split; [exact Hrange|].
  rewrite Hval. apply get2_tensorRow. rewrite Hs. simpl snd.
  lia.
Qed.

(** C2.  Under the same assumptions, column [n] of [bottomkVals] is the
    reversed, negated row [n] of the values [topk] returns on [-A]; those
    raw values are non-decreasing once negated back, the displayed column
    is non-increasing, and its [k] entries are the [k] smallest values of
    row [n] of [A]. *)
Theorem bottomk_column_k_smallest (A : Tf.Tensor2D) (N T k n : nat) :
  Tf.shape2 A = (N, T) -> wf2 A -> (1 <= k <= T)%nat -> (n < N)%nat ->
  exists tb bottomkValsRaw bottomkIdxsRaw,
    topBottomK A k = Some tb /\
    Tf.topk (Tf.mul A (-1)) k = Some (bottomkValsRaw, bottomkIdxsRaw) /\
    let raw := tensorRow bottomkValsRaw n in
    let vals := column (bottomkVals tb) n in
    vals = rev (map negate raw) /\
    length vals = k /\
    (forall r, (r < k)%nat -> cell (bottomkVals tb) r n = Some (nth r vals 0)) /\
    StronglySorted Z.le (map negate raw) /\
    StronglySorted (fun x y => y <= x) vals /\
    exists rest,
      Permutation (vals ++ rest) (tensorRow A n) /\
      forall x y, In x vals -> In y rest -> x <= y.
Proof.
  intros Hs Hwf Hk Hn.
  destruct (topBottomK_displays A N T k Hs Hwf (proj2 Hk))
    as (tb & Htb & _ & _ & (HcV & HeV & _) & _).
  destruct (topk_rows (Tf.mul A (-1)) N T k)
    as (V' & I' & Hraw & _ & _ & _ & _ & Hrow');
    [assumption | now apply wf2_mul | lia |].
  exists tb, V', I'. split; [exact Htb|]. split; [exact Hraw|].
  assert (Hlen : length (tensorRow A n) = T) by now apply (length_tensorRow A N T).
  destruct (bottomRow_facts k (tensorRow A n))
    as (L1 & _ & Hasc & Hdesc & _ & _ & Hsmall); [lia|].
  destruct (Hrow' n Hn) as [HV' _]. rewrite tensorRow_mul in HV'.
  cbv zeta. rewrite (HcV n Hn), HV'.
  split; [reflexivity|]. split; [exact L1|].
  split; [intros r Hr; now apply HeV|].
  split; [exact Hasc|]. split; [exact Hdesc|]. exact Hsmall.
Qed.

Lemma topk_column_k_largest_witness :
  (Tf.shape2 ex_matrix = (2, 3)%nat /\ wf2 ex_matrix /\
   (1 <= 2 <= 3)%nat /\ (1 < 2)%nat) /\
  exists tb,
    topBottomK ex_matrix 2 = Some tb /\
    StronglySorted (fun x y => y <= x) (column (topkVals tb) 1) /\
    exists rest,
      Permutation (column (topkVals tb) 1 ++ rest) (tensorRow ex_matrix 1) /\
      forall x y, In x (column (topkVals tb) 1) -> In y rest -> y <= x.
Proof.
  assert (Hs : Tf.shape2 ex_matrix = (2, 3)%nat) by reflexivity.
  assert (Hwf : wf2 ex_matrix) by reflexivity.
  assert (Hk : (1 <= 2 <= 3)%nat) by lia.
  assert (Hn : (1 < 2)%nat) by lia.
  split; [repeat split; assumption || lia|].
  destruct (topk_column_k_largest ex_matrix 2 3 2 1 Hs Hwf Hk Hn)
    as (tb & Htb & _ & _ & _ & Hsorted & _ & _ & Hlargest).
  exists tb. split; [exact Htb|]. split; [exact Hsorted | exact Hlargest].
Defined.

Lemma bottomk_column_k_smallest_witness :
  (Tf.shape2 ex_matrix = (2, 3)%nat /\ wf2 ex_matrix /\
   (1 <= 2 <= 3)%nat /\ (0 < 2)%nat) /\
  exists tb,
    topBottomK ex_matrix 2 = Some tb /\
    StronglySorted (fun x y => y <= x) (column (bottomkVals tb) 0) /\
    exists rest,
      Permutation (column (bottomkVals tb) 0 ++ rest) (tensorRow ex_matrix 0) /\
      forall x y, In x (column (bottomkVals tb) 0) -> In y rest -> x <= y.
Proof.
  assert (Hs : Tf.shape2 ex_matrix = (2, 3)%nat) by reflexivity.
  assert (Hwf : wf2 ex_matrix) by reflexivity.
  assert (Hk : (1 <= 2 <= 3)%nat) by lia.
  assert (Hn : (0 < 2)%nat) by lia.
  split; [repeat split; assumption || lia|].
  destruct (bottomk_column_k_smallest ex_matrix 2 3 2 0 Hs Hwf Hk Hn)
    as (tb & _ & _ & Htb & _ & _ & _ & _ & _ & Hsorted & Hsmallest).
  exists tb. split; [exact Htb|]. split; [exact Hsorted | exact Hsmallest].
Defined.

Example topBottomK_ex_matrix :
  topBottomK ex_matrix 2 =
    Some (mkTopBottomK [[3; 4]; [2; 0]] [[0; 1]; [2; 2]]
                       [[2; 0]; [1; -5]] [[2; 2]; [1; 0]]).
Proof. reflexivity. Qed.

(** ** The component *)

Lemma cell_tokensAt (toks : list string) (idxs : list (list Z)) (r n : nat) :
  cell (tokensAt toks idxs) r n = option_map (arrayGet toks) (cell idxs r n).
Proof.
  unfold cell, tokensAt. rewrite nth_error_map.
  destruct (nth_error idxs r) as [row |]; simpl; [|reflexivity].
  apply nth_error_map.
Qed.

Lemma arrayGet_out_of_range {A : Type} (arr : list A) (i : Z) :
  i < 0 \/ Z.of_nat (length arr) <= i -> arrayGet arr i = None.
Proof.
  intros Hi. unfold arrayGet.
  destruct (Z.ltb_spec i 0) as [_ | H0]; [reflexivity|].
  apply nth_error_None. lia.
Qed.

Lemma arrayGet_in_range {A : Type} (arr : list A) (i : Z) (d : A) :
  0 <= i < Z.of_nat (length arr) -> arrayGet arr i = Some (nth (Z.to_nat i) arr d).
Proof.
  intros Hi. unfold arrayGet.
  destruct (Z.ltb_spec i 0) as [? | _]; [lia|].
  apply nth_error_nth'. lia.
Qed.

Lemma Topk_derived_Some (props : TopkProps) (st : State) (d : Derived) :
  Topk_derived props st = Some d ->
  exists toks acts,
    currentTokens props st = Some toks /\
    currentActivations props st = Some acts /\
    topBottomK acts (k st) = Some (matrices d) /\
    topkTokens d = tokensAt toks (topkIdxs (matrices d)) /\
    bottomkTokens d = tokensAt toks (bottomkIdxs (matrices d)).
Proof.
  unfold Topk_derived.
  destruct (currentTokens props st) as [toks |]; simpl; [|discriminate].
  destruct (currentActivations props st) as [acts |]; simpl; [|discriminate].
  destruct (topBottomK acts (k st)) as [tb |] eqn:Htb; simpl; [|discriminate].
  intros [= <-]. exists toks, acts. simpl. auto 10.
Qed.

Lemma getSelectedActivations_wf (A : Tf.Tensor3D) (l s e : nat) (R : Tf.Tensor2D) :
  getSelectedActivations A l s e = Some R -> wf2 R.
Proof.
  unfold getSelectedActivations.
  destruct (Tf.slice A _ _) as [sliced |]; simpl; [|discriminate].
  destruct (Tf.squeeze1 sliced) as [squeezed |]; simpl; [|discriminate].
  intros [= <-]. apply wf2_transpose.
Qed.

Lemma currentActivations_wf (props : TopkProps) (st : State) (acts : Tf.Tensor2D) :
  currentActivations props st = Some acts -> wf2 acts.
Proof.
  unfold currentActivations.
  destruct (nth_error (activationsTensors props) (sampleNumber st)) as [[t |] |];
    cbn [bind]; try discriminate.
  destruct (nth_error (neuronNumbers st) 0) as [s |]; cbn [bind]; [|discriminate].
  destruct (nth_error (neuronNumbers st) _) as [e |]; cbn [bind]; [|discriminate].
  apply getSelectedActivations_wf.
Qed.

Lemma topBottomK_Some_fits (A : Tf.Tensor2D) (k : nat) (tb : TopBottomK) :
  topBottomK A k = Some tb -> (k <= snd (Tf.shape2 A))%nat.
Proof.
  unfold topBottomK. destruct (Tf.shape2 A) as [N T] eqn:Hs. simpl.
  destruct (Nat.le_gt_cases k T) as [? | Hgt]; [trivial|].
  now rewrite (topk_throws A N T k Hs Hgt).
Qed.

(** C4.  Whenever the body of [Topk] produces its matrices, the cell of
    [topkTokens] at rank [r] and column [n] is [tokens[sampleNumber][i]],
    the read of the token list of the selected sample at the index [i]
    that [topkIdxs] holds at that place. *)
Theorem topkTokens_at_topkIdxs (props : TopkProps) (st : State) (d : Derived)
  (toks : list string) (r n : nat) :
  Topk_derived props st = Some d ->
  nth_error (tokens props) (sampleNumber st) = Some toks ->
  cell (topkTokens d) r n =
    option_map (arrayGet toks) (cell (topkIdxs (matrices d)) r n) /\
  forall i, cell (topkIdxs (matrices d)) r n = Some i ->
    cell (topkTokens d) r n = Some (arrayGet toks i).
Proof.
  intros Hd Htoks.
  destruct (Topk_derived_Some props st d Hd) as (toks' & acts & Ht & _ & _ & -> & _).
  unfold currentTokens in Ht.
  assert (toks' = toks) as -> by congruence.
  rewrite cell_tokensAt. split; [reflexivity|].
  now intros i ->.
Qed.

(** [ex_pair_state] is a state of a session on [ex_pair_props]: mount,
    choose sample 1, choose [k = 2]. *)
Lemma ex_pair_state_Mounted : Mounted 5 ex_pair_props ex_pair_state.
Proof.
  apply (Mounted_next 5 ex_pair_props (mkState 1 0 5 5 [0; 1; 2; 3; 4]%nat) (SetK 2)).
  - apply (Mounted_next 5 ex_pair_props (initialState ex_pair_props)
             (SetSampleNumber 1)).
    + apply Mounted_first. vm_compute. reflexivity.
    + eexists. split; [vm_compute; reflexivity | simpl; tauto].
    + vm_compute. reflexivity.
  - eexists. split; [vm_compute; reflexivity | simpl; tauto].
  - vm_compute. reflexivity.
Qed.

Lemma topkTokens_at_topkIdxs_witness :
  Mounted 5 ex_pair_props ex_pair_state /\
  exists d,
    Topk_derived ex_pair_props ex_pair_state = Some d /\
    cell (topkIdxs (matrices d)) 0 0 = Some 1 /\
    cell (topkTokens d) 0 0 = Some (Some "w"%string).
Proof.
  split; [exact ex_pair_state_Mounted|].
  eexists. split; [vm_compute; reflexivity|].
  split; [reflexivity|].
  refine (proj2 (topkTokens_at_topkIdxs ex_pair_props ex_pair_state _
                   ["v"; "w"; "x"; "y"; "z"]%string 0 0 _ _) 1 _);
    reflexivity.
Defined.

(** C7.  Index-to-token resolution checks nothing: once the tensor stage
    has produced the index matrices, the body of [Topk] goes on to
    produce its table whatever the length of the token list, and a cell
    whose index lies outside the token list holds [undefined]. *)
Theorem token_lookup_unchecked (props : TopkProps) (st : State)
  (toks : list string) (acts : Tf.Tensor2D) (tb : TopBottomK) :
  currentTokens props st = Some toks ->
  currentActivations props st = Some acts ->
  topBottomK acts (k st) = Some tb ->
  exists d,
    Topk_derived props st = Some d /\ matrices d = tb /\
    forall r n i, i < 0 \/ Z.of_nat (length toks) <= i ->
      (cell (topkIdxs tb) r n = Some i -> cell (topkTokens d) r n = Some None) /\
      (cell (bottomkIdxs tb) r n = Some i -> cell (bottomkTokens d) r n = Some None).
Proof.
  intros Htoks Hacts Htb. unfold Topk_derived.
  rewrite Htoks, Hacts. cbn [bind]. rewrite Htb. cbn [bind].
  eexists. split; [reflexivity|]. split; [reflexivity|].
  intros r n i Hi. cbn [topkTokens bottomkTokens].
  rewrite !cell_tokensAt.
  split; intros ->; simpl; now rewrite arrayGet_out_of_range.
Qed.

Lemma token_lookup_unchecked_witness :
  exists d,
    Topk_derived ex_short_props ex_state = Some d /\
    cell (topkIdxs (matrices d)) 0 0 = Some 1 /\
    cell (topkTokens d) 0 0 = Some None.
Proof.
  destruct (token_lookup_unchecked ex_short_props ex_state ["a"%string]
              (Tf.mkTensor2D (3, 4)%nat [1; 7; -1; 5; 2; -8; -2; 5; 3; 9; -3; 5])
              (mkTopBottomK [[7; 5; 9]; [5; 2; 5]] [[1; 3; 1]; [3; 0; 3]]
                            [[1; -2; 3]; [-1; -8; -3]] [[0; 2; 0]; [2; 1; 2]]))
    as (d & Hd & Hm & Hcells); [reflexivity | reflexivity | reflexivity |].
  exists d. split; [exact Hd|]. rewrite Hm.
  split; [reflexivity|].
  apply (Hcells 0%nat 0%nat 1); [right; simpl; lia | reflexivity].
Defined.

(** C9.  Value, index and token of the bottom-k result stay aligned: at
    every place where [bottomkIdxs] holds an index [i], that index is a
    token position of the selected activations, [bottomkVals] holds the
    selected activation of that column's neuron at token [i], and
    [bottomkTokens] holds [tokens[sampleNumber][i]], the read of the
    token list of the selected sample at [i], which is a token of the
    list when the list is as long as the token axis. *)
Theorem bottomk_triples_aligned (props : TopkProps) (st : State) (d : Derived)
  (toks : list string) (acts : Tf.Tensor2D) (r n : nat) (i : Z) :
  Topk_derived props st = Some d ->
  nth_error (tokens props) (sampleNumber st) = Some toks ->
  currentActivations props st = Some acts ->
  cell (bottomkIdxs (matrices d)) r n = Some i ->
  0 <= i < Z.of_nat (snd (Tf.shape2 acts)) /\
  cell (bottomkVals (matrices d)) r n = Some (Tf.get2 acts n (Z.to_nat i)) /\
  cell (bottomkTokens d) r n = Some (arrayGet toks i) /\
  (length toks = snd (Tf.shape2 acts) ->
   arrayGet toks i = Some (nth (Z.to_nat i) toks EmptyString)).
Proof.
  intros Hd Htoks Hacts Hcell.
  destruct (Topk_derived_Some props st d Hd)
    as (toks' & acts' & Ht & Ha & Htb & _ & HbT).
  unfold currentTokens in Ht.
  assert (toks' = toks) as -> by congruence.
  assert (acts' = acts) as -> by congruence.
  pose proof (currentActivations_wf props st acts Hacts) as Hwf.
  pose proof (topBottomK_Some_fits acts (k st) _ Htb) as Hfit.
  destruct (Tf.shape2 acts) as [N T] eqn:Hs. simpl snd in *.
  destruct (topBottomK_displays acts N T (k st) Hs Hwf Hfit)
    as (tb & Htb' & _ & _ & (_ & HeV & _) & (_ & HeI & HinI)).
  assert (tb = matrices d) as -> by congruence.
  destruct (HinI r n i Hcell) as [Hr Hn].
  rewrite (HeI r n Hr Hn) in Hcell. injection Hcell as Hi.
  assert (Hlen : length (tensorRow acts n) = T) by now apply (length_tensorRow acts N T).
  destruct (bottomRow_facts (k st) (tensorRow acts n))
    as (_ & _ & _ & _ & _ & Hpair & _); [lia|].
  destruct (Hpair r Hr) as [Hrange Hval].
  rewrite Hi, Hlen in Hrange. rewrite Hi in Hval.
  split; [exact Hrange|]. split; [|split].
  - rewrite (HeV r n Hr Hn), Hval. f_equal.
    apply get2_tensorRow. rewrite Hs. simpl snd. lia.
  - rewrite HbT, cell_tokensAt, (HeI r n Hr Hn), Hi. reflexivity.
  - intros Hlen'. apply arrayGet_in_range. lia.
Qed.

Lemma bottomk_triples_aligned_witness :
  Mounted 5 ex_pair_props ex_pair_state /\
  exists d acts,
    Topk_derived ex_pair_props ex_pair_state = Some d /\
    currentActivations ex_pair_props ex_pair_state = Some acts /\
    cell (bottomkIdxs (matrices d)) 1 1 = Some 4 /\
    Tf.get2 acts 1 4 = -2 /\
    cell (bottomkVals (matrices d)) 1 1 = Some (Tf.get2 acts 1 4) /\
    cell (bottomkTokens d) 1 1 = Some (Some "z"%string).
Proof.
  split; [exact ex_pair_state_Mounted|].
  eexists. eexists.
  split; [vm_compute; reflexivity|].
  split; [vm_compute; reflexivity|].
  split; [reflexivity|].
  split; [reflexivity|].
  destruct (bottomk_triples_aligned ex_pair_props ex_pair_state _
              ["v"; "w"; "x"; "y"; "z"]%string _ 1 1 4 eq_refl eq_refl eq_refl eq_refl)
    as (_ & Hval & Htok & _).
  split; [exact Hval | exact Htok].
Defined.

(** ** The selectors *)

Section RangeSelectorFacts.

Variables largestNumber numValsInRange : Z.

Let loop fuel i acc := RangeSelector_loop fuel i largestNumber numValsInRange acc.

Lemma RangeSelector_loop_acc (fuel : nat) (i : Z) (acc : list (Z * Z)) :
  loop fuel i acc = option_map (app acc) (loop fuel i []).
Proof.
  unfold loop. revert i acc.
  induction fuel as [| fuel IH]; intros i acc; simpl;
    destruct (i <=? largestNumber); simpl; try reflexivity.
  - now rewrite app_nil_r.
  - rewrite IH. rewrite (IH _ [_]).
    destruct (RangeSelector_loop fuel _ _ _ []); simpl; [|reflexivity].
    now rewrite <- app_assoc.
  - now rewrite app_nil_r.
Qed.

Lemma RangeSelector_loop_step (fuel : nat) (i : Z) :
  i <= largestNumber ->
  loop (S fuel) i [] =
    option_map (cons (i, Z.min (i + numValsInRange - 1) largestNumber))
      (loop fuel (i + numValsInRange) []).
Proof.
  intros Hi. unfold loop. simpl.
  destruct (Z.leb_spec i largestNumber) as [_ | ?]; [|lia].
  apply RangeSelector_loop_acc.
Qed.

Lemma RangeSelector_loop_done (fuel : nat) (i : Z) :
  largestNumber < i -> loop fuel i [] = Some [].
Proof.
  intros Hi. unfold loop.
  destruct fuel; simpl; destruct (Z.leb_spec i largestNumber); (lia || reflexivity).
Qed.

(** More fuel does not change a result. *)
Lemma RangeSelector_loop_fuel (fuel fuel' : nat) (i : Z) (bs : list (Z * Z)) :
  (fuel <= fuel')%nat -> loop fuel i [] = Some bs -> loop fuel' i [] = Some bs.
Proof.
  revert fuel' i bs. induction fuel as [| fuel IH]; intros fuel' i bs Hle Hrun.
  - destruct (Z.leb_spec i largestNumber) as [Hi | Hi].
    + unfold loop in Hrun. simpl in Hrun.
      destruct (Z.leb_spec i largestNumber); [discriminate | lia].
    + rewrite RangeSelector_loop_done in Hrun |- * by assumption. exact Hrun.
  - destruct (Z.leb_spec i largestNumber) as [Hi | Hi].
    + destruct fuel' as [| fuel']; [lia|].
      rewrite RangeSelector_loop_step in Hrun |- * by assumption.
      destruct (loop fuel (i + numValsInRange) []) as [bs' |] eqn:Hrest;
        [|discriminate].
      rewrite (IH fuel' _ bs'); [exact Hrun | lia | exact Hrest].
    + rewrite RangeSelector_loop_done in Hrun |- * by assumption. exact Hrun.
Qed.

(** With a non-positive step the loop never ends once entered. *)
Lemma RangeSelector_loop_diverges (fuel : nat) (i : Z) (acc : list (Z * Z)) :
  numValsInRange <= 0 -> i <= largestNumber -> loop fuel i acc = None.
Proof.
  intros Hstep. unfold loop. revert i acc.
  induction fuel as [| fuel IH]; intros i acc Hi; simpl;
    destruct (Z.leb_spec i largestNumber); try lia; [reflexivity|].
  apply IH. lia.
Qed.

Lemma Chunked_empty (lo : Z) (bs : list (Z * Z)) :
  1 <= numValsInRange -> largestNumber < lo ->
  Chunked numValsInRange lo largestNumber bs -> bs = [].
Proof. intros Hstep Hlo H. inversion H; subst; (reflexivity || lia). Qed.

(** With a positive step the loop ends within [largestNumber - i + 1]
    iterations, and its ranges cut [i .. largestNumber] into chunks. *)
Lemma RangeSelector_loop_Chunked (fuel : nat) (i : Z) :
  1 <= numValsInRange ->
  (Z.to_nat (largestNumber - i + 1) <= fuel)%nat ->
  exists bs, loop fuel i [] = Some bs /\
             Chunked numValsInRange i largestNumber bs.
Proof.
  intros Hstep. revert i.
  induction fuel as [| fuel IH]; intros i Hfuel.
  - exists []. split; [apply RangeSelector_loop_done; lia|].
    constructor. lia.
  - destruct (Z.leb_spec i largestNumber) as [Hi | Hi].
    + destruct (IH (i + numValsInRange)) as (bs & Hrun & Hch); [lia|].
      rewrite RangeSelector_loop_step, Hrun by assumption. simpl.
      eexists. split; [reflexivity|].
      destruct (Z.leb_spec largestNumber (i + numValsInRange - 1)) as [Hend | Hend].
      * rewrite Z.min_r by assumption.
        rewrite (Chunked_empty (i + numValsInRange) bs) by (assumption || lia).
        constructor; lia.
      * rewrite Z.min_l by lia. now constructor.
    + exists []. split; [now apply RangeSelector_loop_done|].
      now constructor.
Qed.

End RangeSelectorFacts.

Section Intervals.

Lemma interval_nil (lo hi : Z) : hi < lo -> interval lo hi = [].
Proof.
  intros H. unfold interval.
  replace (Z.to_nat (hi - lo + 1)) with 0%nat by lia. reflexivity.
Qed.

Lemma interval_cons (lo hi : Z) :
  lo <= hi -> interval lo hi = lo :: interval (lo + 1) hi.
Proof.
  intros H. unfold interval.
  replace (Z.to_nat (hi - lo + 1)) with (S (Z.to_nat (hi - (lo + 1) + 1))) by lia.
  simpl. f_equal; [lia|].
  rewrite <- seq_shift, map_map.
  apply map_ext. intros j. lia.
Qed.

Lemma interval_app (lo mid hi : Z) :
  lo <= mid + 1 -> mid <= hi ->
  interval lo mid ++ interval (mid + 1) hi = interval lo hi.
Proof.
  intros Hlo Hhi.
  remember (Z.to_nat (mid - lo + 1)) as n eqn:Hn.
  revert lo Hlo Hn. induction n as [| n IH]; intros lo Hlo Hn.
  - assert (lo = mid + 1) as -> by lia.
    now rewrite interval_nil by lia.
  - rewrite (interval_cons lo mid), (interval_cons lo hi) by lia.
    simpl. f_equal. apply IH; lia.
Qed.

Lemma in_interval (lo hi x : Z) : In x (interval lo hi) <-> lo <= x <= hi.
Proof.
  unfold interval. rewrite in_map_iff. split.
  - intros (j & <- & Hj). apply in_seq in Hj. lia.
  - intros Hx. exists (Z.to_nat (x - lo)). split; [lia|].
    apply in_seq. lia.
Qed.

Lemma length_interval (lo hi : Z) : length (interval lo hi) = Z.to_nat (hi - lo + 1).
Proof. unfold interval. now rewrite length_map, length_seq. Qed.

End Intervals.

Section ChunkedFacts.

Variable size : Z.
Hypothesis size_pos : 1 <= size.

Lemma Chunked_cover (lo hi : Z) (bs : list (Z * Z)) :
  Chunked size lo hi bs -> concat (map rangeOf bs) = interval lo hi.
Proof.
  induction 1 as [lo hi Hlt | lo hi Hle Hsz | lo hi bs Hlt Hch IH]; simpl.
  - now rewrite interval_nil.
  - apply app_nil_r.
  - rewrite IH. unfold rangeOf. simpl.
    rewrite <- (interval_app lo (lo + size - 1) hi) by lia.
    do 2 f_equal. lia.
Qed.

Lemma Chunked_sizes (lo hi : Z) (bs : list (Z * Z)) :
  Chunked size lo hi bs ->
  Forall (fun r => fst r <= snd r /\ snd r - fst r + 1 <= size) bs.
Proof.
  induction 1 as [lo hi Hlt | lo hi Hle Hsz | lo hi bs Hlt Hch IH].
  - constructor.
  - repeat constructor; simpl; lia.
  - constructor; [simpl; lia | exact IH].
Qed.

Lemma Chunked_ends (lo hi : Z) (bs : list (Z * Z)) :
  Chunked size lo hi bs -> lo <= hi ->
  bs <> [] /\ fst (hd (0, 0) bs) = lo /\ snd (last bs (0, 0)) = hi.
Proof.
  induction 1 as [lo hi Hlt | lo hi Hle Hsz | lo hi bs Hlt Hch IH]; intros Hlohi.
  - lia.
  - repeat split. discriminate.
  - destruct IH as (Hne & _ & Hlast); [lia|].
    split; [discriminate|]. split; [reflexivity|].
    destruct bs as [| b bs]; [contradiction | exact Hlast].
Qed.

(** Every range but the last is full, and the next one starts right
    after it. *)
Lemma Chunked_consecutive (lo hi : Z) (bs : list (Z * Z)) :
  Chunked size lo hi bs ->
  forall j, (S j < length bs)%nat ->
    snd (nth j bs (0, 0)) - fst (nth j bs (0, 0)) + 1 = size /\
    fst (nth (S j) bs (0, 0)) = snd (nth j bs (0, 0)) + 1.
Proof.
  induction 1 as [lo hi Hlt | lo hi Hle Hsz | lo hi bs Hlt Hch IH];
    intros j Hj; simpl in Hj; try lia.
  destruct j as [| j].
  - simpl. split; [lia|].
    destruct (Chunked_ends _ _ _ Hch) as (_ & Hfirst & _); [lia|].
    destruct bs as [| b bs]; [simpl in Hj; lia|].
    simpl in Hfirst |- *. lia.
  - apply (IH j). lia.
Qed.

End ChunkedFacts.

Lemma NoDup_interval (lo hi : Z) : NoDup (interval lo hi).
Proof.
  unfold interval.
  apply NoDup_map_NoDup_ForallPairs; [|apply seq_NoDup].
  intros x y _ _. lia.
Qed.

(** While the counter stays within the integers every double holds, the
    loop on doubles is the loop on the integers. *)
Lemma RangeSelector_loop_double_exact (fuel : nat)
  (i largestNumber numValsInRange : Z) (acc : list (Z * Z)) :
  1 <= numValsInRange -> - maxSafe <= i -> largestNumber + numValsInRange <= maxSafe ->
  RangeSelector_loop_double fuel i largestNumber numValsInRange acc =
  RangeSelector_loop fuel i largestNumber numValsInRange acc.
Proof.
  intros Hstep Hlo Hhi. revert i acc Hlo.
  induction fuel as [| fuel IH]; intros i acc Hlo;
    cbn [RangeSelector_loop_double RangeSelector_loop]; [reflexivity|].
  destruct (Z.leb_spec i largestNumber) as [Hi | Hi]; [|reflexivity].
  rewrite (jsAdd_exact i numValsInRange) by lia.
  rewrite (jsSub_exact (i + numValsInRange) 1) by lia.
  apply IH. lia.
Qed.

Lemma RangeSelector_bounds_double_exact (fuel : nat)
  (smallestNumber largestNumber numValsInRange : Z) :
  1 <= numValsInRange -> - maxSafe <= smallestNumber ->
  largestNumber + numValsInRange <= maxSafe ->
  RangeSelector_bounds_double fuel smallestNumber largestNumber numValsInRange =
  RangeSelector_bounds fuel smallestNumber largestNumber numValsInRange.
Proof. intros. now apply RangeSelector_loop_double_exact. Qed.

(** Within the safe integers and with a positive step, the loop ends and
    cuts the interval into chunks. *)
Lemma RangeSelector_bounds_double_Chunked (fuel : nat)
  (smallestNumber largestNumber numValsInRange : Z) :
  1 <= numValsInRange -> - maxSafe <= smallestNumber ->
  largestNumber + numValsInRange <= maxSafe ->
  (Z.to_nat (largestNumber - smallestNumber + 1) <= fuel)%nat ->
  exists bs,
    RangeSelector_bounds_double fuel smallestNumber largestNumber numValsInRange
      = Some bs /\
    Chunked numValsInRange smallestNumber largestNumber bs.
Proof.
  intros Hstep Hlo Hhi Hfuel.
  rewrite RangeSelector_bounds_double_exact by assumption.
  exact (RangeSelector_loop_Chunked largestNumber numValsInRange fuel smallestNumber
           Hstep Hfuel).
Qed.

(** At [2 ^ 53] the counter no longer moves: [2 ^ 53 + 1] is not a double
    and the sum rounds back to [2 ^ 53]. *)
Lemma RangeSelector_loop_double_stuck (fuel : nat) (acc : list (Z * Z)) :
  RangeSelector_loop_double fuel maxSafe maxSafe 1 acc = None.
Proof.
  revert acc. induction fuel as [| fuel IH]; intros acc;
    cbn [RangeSelector_loop_double]; rewrite Z.leb_refl; [reflexivity|].
  change (jsAdd maxSafe 1) with maxSafe. apply IH.
Qed.

(** C10, as stated, fails where the numbers of the source stop being
    exact: with [smallestNumber = largestNumber = 2 ^ 53] and
    [numValsInRange = 1] the loop never ends, so [RangeSelector] builds
    no list of ranges at all. *)
Lemma RangeSelector_never_ends_at_maxSafe :
  9007199254740992 <= 9007199254740992 /\ 1 <= 1 /\
  ~ exists fuel ranges,
      RangeSelector_ranges_double fuel 9007199254740992 9007199254740992 1
        = Some ranges.
Proof.
  split; [lia|]. split; [lia|].
  intros (fuel & ranges & Hrun).
  unfold RangeSelector_ranges_double, RangeSelector_bounds_double in Hrun.
  change 9007199254740992 with maxSafe in Hrun.
  rewrite RangeSelector_loop_double_stuck in Hrun. discriminate.
Qed.

(** C10, amended.  For [smallestNumber <= largestNumber] and
    [numValsInRange >= 1] within the integers every double holds
    ([- 2 ^ 53 <= smallestNumber] and
    [largestNumber + numValsInRange <= 2 ^ 53]) the loop of
    [RangeSelector] ends, and the ranges it offers partition
    [smallestNumber .. largestNumber]: listed one after the other they
    are exactly the integers of the interval in ascending order, each
    once; the first range starts at [smallestNumber], the last ends at
    [largestNumber], every range but the last holds exactly
    [numValsInRange] integers and is followed by the range starting right
    after it, and no range is empty or holds more than [numValsInRange]
    integers. *)
Theorem RangeSelector_ranges_partition
  (smallestNumber largestNumber numValsInRange : Z) :
  smallestNumber <= largestNumber -> 1 <= numValsInRange ->
  - maxSafe <= smallestNumber -> largestNumber + numValsInRange <= maxSafe ->
  exists bs,
    (forall fuel, (Z.to_nat (largestNumber - smallestNumber + 1) <= fuel)%nat ->
       RangeSelector_bounds_double fuel smallestNumber largestNumber numValsInRange
         = Some bs /\
       RangeSelector_ranges_double fuel smallestNumber largestNumber numValsInRange
         = Some (map rangeLabel bs)) /\
    bs <> [] /\
    concat (map rangeOf bs) = interval smallestNumber largestNumber /\
    NoDup (concat (map rangeOf bs)) /\
    (forall x, In x (concat (map rangeOf bs)) <->
               smallestNumber <= x <= largestNumber) /\
    fst (hd (0, 0) bs) = smallestNumber /\
    snd (last bs (0, 0)) = largestNumber /\
    Forall (fun r => fst r <= snd r /\ snd r - fst r + 1 <= numValsInRange) bs /\
    (forall j, (S j < length bs)%nat ->
       snd (nth j bs (0, 0)) - fst (nth j bs (0, 0)) + 1 = numValsInRange /\
       fst (nth (S j) bs (0, 0)) = snd (nth j bs (0, 0)) + 1).
Proof.
  intros Hle Hstep Hlo Hhi.
  destruct (RangeSelector_loop_Chunked largestNumber numValsInRange
              (Z.to_nat (largestNumber - smallestNumber + 1)) smallestNumber
              Hstep (Nat.le_refl _)) as (bs & Hrun & Hch).
  exists bs.
  pose proof (Chunked_cover numValsInRange Hstep _ _ _ Hch) as Hcover.
  destruct (Chunked_ends numValsInRange _ _ _ Hch Hle) as (Hne & Hfirst & Hlast).
  split; [|split; [exact Hne|]].
  - intros fuel Hfuel.
    assert (Hb : RangeSelector_bounds_double fuel smallestNumber largestNumber
                   numValsInRange = Some bs).
    { rewrite RangeSelector_bounds_double_exact by assumption.
      unfold RangeSelector_bounds.
      exact (RangeSelector_loop_fuel _ _ _ _ _ _ Hfuel Hrun). }
    split; [exact Hb|].
    unfold RangeSelector_ranges_double. now rewrite Hb.
  - split; [exact Hcover|].
    split; [rewrite Hcover; apply NoDup_interval|].
    split; [intros x; rewrite Hcover; apply in_interval|].
    split; [exact Hfirst|]. split; [exact Hlast|].
    split; [exact (Chunked_sizes numValsInRange Hstep _ _ _ Hch)|].
    exact (Chunked_consecutive numValsInRange _ _ _ Hch).
Qed.

Lemma RangeSelector_ranges_partition_witness :
  (0 <= 4 /\ 1 <= 2 /\ - maxSafe <= 0 /\ 4 + 2 <= maxSafe) /\
  exists bs,
    RangeSelector_ranges_double 5 0 4 2 = Some (map rangeLabel bs) /\
    map rangeLabel bs = ["0-1"; "2-3"; "4"]%string /\
    concat (map rangeOf bs) = [0; 1; 2; 3; 4].
Proof.
  split; [unfold maxSafe; lia|].
  destruct (RangeSelector_ranges_partition 0 4 2) as (bs & Hrun & _ & Hcover & _);
    [lia | lia | unfold maxSafe; lia | unfold maxSafe; lia |].
  destruct (Hrun 5%nat) as [Hb Hr]; [simpl; lia|].
  exists bs. split; [exact Hr|].
  split; [|exact Hcover].
  vm_compute in Hb. injection Hb as <-. reflexivity.
Defined.

(** The example of the doc comment of [RangeSelector]. *)
Example RangeSelector_doc_example :
  RangeSelector_ranges 3 0 4 2 = Some ["0-1"; "2-3"; "4"]%string /\
  RangeSelector_ranges_double 3 0 4 2 = Some ["0-1"; "2-3"; "4"]%string.
Proof. split; reflexivity. Qed.

(** ** [NumberSelector] and the bound on [k] *)

(** Within the safe integers and below the largest array length,
    [NumberSelector] offers the interval. *)
Lemma NumberSelector_options_interval (smallestNumber largestNumber : Z) :
  smallestNumber <= largestNumber + 1 ->
  - maxSafe <= smallestNumber -> largestNumber <= maxSafe ->
  largestNumber - smallestNumber + 1 < maxArrayLength ->
  NumberSelector_options smallestNumber largestNumber =
    Some (interval smallestNumber largestNumber).
Proof.
  intros Hle Hlo Hhi Hsize. unfold NumberSelector_options, arrayKeys.
  assert (Hsafe : maxArrayLength < maxSafe) by (unfold maxArrayLength, maxSafe; lia).
  rewrite (jsSub_exact largestNumber smallestNumber) by lia.
  rewrite (jsAdd_exact (largestNumber - smallestNumber) 1) by lia.
  destruct (Z.ltb_spec (largestNumber - smallestNumber + 1) 0) as [? | _]; [lia|].
  destruct (Z.leb_spec maxArrayLength (largestNumber - smallestNumber + 1)) as [? | _];
    [lia|].
  cbn [orb bind]. unfold interval. rewrite map_map. f_equal.
  apply map_ext_in. intros j Hj. apply in_seq in Hj.
  rewrite jsAdd_exact by lia. lia.
Qed.

Lemma kSelector_options_interval : kSelector_options = Some (interval 1 20).
Proof. reflexivity. Qed.

Lemma topBottomK_Some_iff (A : Tf.Tensor2D) (k : nat) :
  (exists tb, topBottomK A k = Some tb) <-> (k <= snd (Tf.shape2 A))%nat.
Proof.
  split.
  - intros [tb Htb]. now apply (topBottomK_Some_fits A k tb).
  - intros Hk. unfold topBottomK, Tf.topk. rewrite shape2_mul.
    destruct (Tf.shape2 A) as [N T]. simpl in Hk.
    destruct (Nat.leb_spec k T) as [_ | ?]; [|lia].
    simpl. eexists. reflexivity.
Qed.

Lemma k_step (props : TopkProps) (st : State) (ev : Event) :
  k (step props st ev) = match ev with SetK n => n | _ => k st end.
Proof.
  unfold step, useEffect.
  destruct (colsToShow st =? colsToShow (setState st ev))%nat;
    destruct ev; reflexivity.
Qed.

(** ** Renders and sessions *)

Lemma Topk_render_Some (fuel : nat) (props : TopkProps) (st : State) (view : View) :
  Topk_render fuel props st = Some view ->
  exists T L N,
    firstShape props = Some (T, L, N) /\
    Topk_table props st = Some (table view) /\
    NumberSelector_options 0 (jsSub (Z.of_nat (numberOfSamples props)) 1)
      = Some (sampleOptions view) /\
    NumberSelector_options 0 (jsSub (Z.of_nat L) 1) = Some (layerOptions view) /\
    RangeSelector_ranges_double fuel 0 (jsSub (Z.of_nat N) 1)
      (Z.of_nat (colsToShow st)) = Some (neuronOptions view) /\
    NumberSelector_options 1 (Z.of_nat N) = Some (colsOptions view) /\
    kSelector_options = Some (kOptions view).
Proof.
  unfold Topk_render.
  destruct (firstShape props) as [[[T L] N] |]; cbn [bind]; [|discriminate].
  destruct (useState_neuronNumbers (numberOfSamples props) (colsToShow st))
    as [initial |]; cbn [bind]; [|discriminate].
  destruct (Topk_table props st) as [tbl |]; cbn [bind]; [|discriminate].
  destruct (NumberSelector_options 0 (jsSub (Z.of_nat (numberOfSamples props)) 1))
    as [so |]; cbn [bind]; [|discriminate].
  destruct (NumberSelector_options 0 (jsSub (Z.of_nat L) 1)) as [lo |] eqn:Hlo;
    cbn [bind]; [|discriminate].
  destruct (RangeSelector_ranges_double fuel 0 (jsSub (Z.of_nat N) 1)
              (Z.of_nat (colsToShow st))) as [no |] eqn:Hno; cbn [bind]; [|discriminate].
  destruct (NumberSelector_options 1 (Z.of_nat N)) as [co |] eqn:Hco;
    cbn [bind]; [|discriminate].
  destruct kSelector_options as [ko |]; cbn [bind]; [|discriminate].
  intros [= <-]. exists T, L, N. cbn.
  rewrite Hlo, Hno, Hco. repeat split; reflexivity.
Qed.

Lemma Topk_render_intro (fuel : nat) (props : TopkProps) (st : State) (T L N : nat)
  (tbl : list TableRow) (so lo : list Z) (no : list string) (co : list Z) :
  firstShape props = Some (T, L, N) ->
  Z.of_nat (colsToShow st) < maxArrayLength ->
  Topk_table props st = Some tbl ->
  NumberSelector_options 0 (jsSub (Z.of_nat (numberOfSamples props)) 1) = Some so ->
  NumberSelector_options 0 (jsSub (Z.of_nat L) 1) = Some lo ->
  RangeSelector_ranges_double fuel 0 (jsSub (Z.of_nat N) 1)
    (Z.of_nat (colsToShow st)) = Some no ->
  NumberSelector_options 1 (Z.of_nat N) = Some co ->
  Topk_render fuel props st = Some (mkView so lo no co (interval 1 20) tbl).
Proof.
  intros Hsh Hcols Htbl Hso Hlo Hno Hco. unfold Topk_render.
  rewrite Hsh. cbn [bind].
  assert (Hinit : exists initial,
            useState_neuronNumbers (numberOfSamples props) (colsToShow st)
            = Some initial).
  { unfold useState_neuronNumbers, arrayKeys.
    destruct (1 <? numberOfSamples props)%nat; [|eexists; reflexivity].
    destruct (Z.ltb_spec (Z.of_nat (colsToShow st)) 0) as [? | _]; [lia|].
    destruct (Z.leb_spec maxArrayLength (Z.of_nat (colsToShow st))) as [? | _]; [lia|].
    eexists. reflexivity. }
  destruct Hinit as [initial ->]. cbn [bind].
  rewrite Htbl. cbn [bind]. rewrite Hso. cbn [bind].
  rewrite Hlo. cbn [bind]. rewrite Hno. cbn [bind]. rewrite Hco. cbn [bind].
  rewrite kSelector_options_interval. reflexivity.
Qed.

(** Mounting leaves the initial state, rendered. *)
Lemma mount_Some (fuel : nat) (props : TopkProps) (st : State) :
  mount fuel props = Some st ->
  st = initialState props /\
  exists view, Topk_render fuel props (initialState props) = Some view.
Proof.
  unfold mount.
  destruct (Topk_render fuel props (initialState props)) as [view |] eqn:Hview;
    cbn [bind]; [|discriminate].
  change (setState (initialState props)
            (SetNeuronNumbers
               (firstNeurons (numberOfSamples props)
                  (colsToShow (initialState props)))))
    with (initialState props).
  rewrite Hview. cbn [bind]. intros [= <-]. split; [reflexivity | now exists view].
Qed.

Lemma mount_intro (fuel : nat) (props : TopkProps) (view : View) :
  Topk_render fuel props (initialState props) = Some view ->
  mount fuel props = Some (initialState props).
Proof.
  intros Hview. unfold mount. rewrite Hview. cbn [bind].
  change (setState (initialState props)
            (SetNeuronNumbers
               (firstNeurons (numberOfSamples props)
                  (colsToShow (initialState props)))))
    with (initialState props).
  rewrite Hview. reflexivity.
Qed.

(** An interaction that ends without a throw ends in the state [step]
    computes, and rendered both the state after the setter and the state
    after the effect. *)
Lemma interact_Some (fuel : nat) (props : TopkProps) (st st' : State) (ev : Event) :
  interact fuel props st ev = Some st' <->
  st' = step props st ev /\
  (exists view, Topk_render fuel props (setState st ev) = Some view) /\
  (exists view, Topk_render fuel props (step props st ev) = Some view).
Proof.
  unfold interact, step. split.
  - destruct (Topk_render fuel props (setState st ev)) as [view1 |];
      cbn [bind]; [|discriminate].
    destruct (Topk_render fuel props (useEffect props st (setState st ev)))
      as [view2 |]; cbn [bind]; [|discriminate].
    intros [= <-]. split; [reflexivity|]. split; eexists; reflexivity.
  - intros (-> & [view1 ->] & [view2 ->]). reflexivity.
Qed.

Lemma Mounted_k (fuel : nat) (props : TopkProps) (st : State) :
  Mounted fuel props st -> (1 <= k st <= 20)%nat.
Proof.
  induction 1 as [st Hmount | st ev st' Hst IH Hev Hstep].
  - apply mount_Some in Hmount. destruct Hmount as [-> _]. simpl. lia.
  - apply interact_Some in Hstep. destruct Hstep as (-> & _).
    rewrite k_step. destruct ev as [| | | n |]; try exact IH.
    destruct Hev as (view & Hview & Hin).
    apply Topk_render_Some in Hview.
    destruct Hview as (T & L & N & _ & _ & _ & _ & _ & _ & Hk).
    rewrite kSelector_options_interval in Hk. injection Hk as Hk.
    rewrite <- Hk in Hin. apply in_interval in Hin. lia.
Qed.

(** C6, as stated, fails for the general [NumberSelector]: with
    [smallestNumber = 0] and [largestNumber = 2 ^ 32 - 1] the array of
    [2 ^ 32] options cannot be built ([Array] throws a [RangeError]), so
    no option is offered at all. *)
Lemma NumberSelector_throws_at_maxArrayLength :
  0 <= 4294967295 /\ NumberSelector_options 0 4294967295 = None.
Proof. split; [lia | reflexivity]. Qed.

(** C6, amended.  The k selector offers exactly [1; 2; ...; 20], so [k],
    which starts at 5 and is only set from that selector, stays within
    1 .. 20 in every state of a session; in general [NumberSelector] with
    [smallestNumber <= largestNumber], both within the integers every
    double holds and fewer than [2 ^ 32] numbers from one to the other,
    offers the consecutive integers from [smallestNumber] to
    [largestNumber] in ascending order; and the extraction itself accepts
    every [k] up to the token count and no other. *)
Theorem kSelector_1_to_20 :
  kSelector_options =
    Some [1; 2; 3; 4; 5; 6; 7; 8; 9; 10; 11; 12; 13; 14; 15; 16; 17; 18; 19; 20] /\
  (forall fuel props st, Mounted fuel props st -> (1 <= k st <= 20)%nat) /\
  (forall smallestNumber largestNumber,
     smallestNumber <= largestNumber ->
     - maxSafe <= smallestNumber -> largestNumber <= maxSafe ->
     largestNumber - smallestNumber + 1 < maxArrayLength ->
     exists options,
       NumberSelector_options smallestNumber largestNumber = Some options /\
       length options = Z.to_nat (largestNumber - smallestNumber + 1) /\
       (forall i, (i < length options)%nat ->
          nth i options 0 = smallestNumber + Z.of_nat i) /\
       (forall x, In x options <-> smallestNumber <= x <= largestNumber)) /\
  (forall (A : Tf.Tensor2D) (N T k : nat), Tf.shape2 A = (N, T) ->
     ((k <= T)%nat -> exists tb, topBottomK A k = Some tb) /\
     ((T < k)%nat -> topBottomK A k = None)).
Proof.
  split; [reflexivity|].
  split; [exact Mounted_k|].
  split.
  - intros s l Hle Hlo Hhi Hsize. exists (interval s l).
    split; [apply NumberSelector_options_interval; (assumption || lia)|].
    split; [apply length_interval|].
    split; [|intros x; apply in_interval].
    intros i Hi. rewrite length_interval in Hi. unfold interval.
    rewrite (nth_indep _ 0 (s + Z.of_nat 0)) by now rewrite length_map, length_seq.
    rewrite (map_nth (fun j => s + Z.of_nat j)), seq_nth by assumption.
    reflexivity.
  - intros A N T k Hs. split.
    + intros Hk. apply topBottomK_Some_iff. now rewrite Hs.
    + intros Hk. destruct (topBottomK A k) as [tb |] eqn:Htb; [|reflexivity].
      apply topBottomK_Some_fits in Htb. rewrite Hs in Htb. simpl in Htb. lia.
Qed.

Lemma kSelector_1_to_20_witness :
  (exists options, NumberSelector_options 1 20 = Some options /\
                   length options = 20%nat) /\
  (exists st st',
     mount 5 ex_roomy_props = Some st /\
     offered 5 ex_roomy_props st (SetK 20) /\
     interact 5 ex_roomy_props st (SetK 20) = Some st' /\
     k st' = 20%nat /\ (1 <= k st' <= 20)%nat) /\
  (exists tb, topBottomK ex_long 25 = Some tb) /\
  topBottomK ex_long 26 = None.
Proof.
  destruct kSelector_1_to_20 as (Hopts & Hrun & Hsel & Hk).
  split; [|split].
  - destruct (Hsel 1 20) as (options & Hopt & Hlen & _);
      [lia | unfold maxSafe; lia | unfold maxSafe; lia | unfold maxArrayLength; lia |].
    exists options. split; [exact Hopt | exact Hlen].
  - assert (Hmount : mount 5 ex_roomy_props = Some (initialState ex_roomy_props))
      by (vm_compute; reflexivity).
    assert (Hoffer : offered 5 ex_roomy_props (initialState ex_roomy_props) (SetK 20)).
    { eexists. split; [vm_compute; reflexivity|]. simpl. tauto. }
    assert (Hstep : interact 5 ex_roomy_props (initialState ex_roomy_props) (SetK 20)
                    = Some (mkState 0 0 5 20 [0; 1; 2; 3; 4]%nat))
      by (vm_compute; reflexivity).
    eexists. eexists.
    split; [exact Hmount|]. split; [exact Hoffer|]. split; [exact Hstep|].
    split; [reflexivity|].
    apply (Hrun 5%nat ex_roomy_props).
    apply (Mounted_next 5 ex_roomy_props (initialState ex_roomy_props) (SetK 20));
      [apply Mounted_first; exact Hmount | exact Hoffer | exact Hstep].
  - destruct (Hk ex_long 1%nat 25%nat 25%nat eq_refl) as [Hok _].
    destruct (Hk ex_long 1%nat 25%nat 26%nat eq_refl) as [_ Hthrow].
    split; [apply Hok; lia | apply Hthrow; lia].
Defined.

(** ** The column count and the neuron range *)

Lemma step_SetColsToShow (props : TopkProps) (st : State) (c : nat) :
  c <> colsToShow st ->
  step props st (SetColsToShow c) =
    mkState (sampleNumber st) (layerNumber st) c (k st)
      (firstNeurons (numberOfSamples props) c).
Proof.
  intros Hc. unfold step, useEffect. simpl.
  destruct (Nat.eqb_spec (colsToShow st) c) as [E | _]; [congruence | reflexivity].
Qed.

(** C5, as stated, fails with a single sample.  On one sample of five
    tokens and three neurons the component mounts, its column select
    offers [3], and choosing it (the column count was 5) goes through
    both renders and leaves the neuron range at [[0]], not at
    [[0; 1; 2]]. *)
Lemma colsToShow_change_single_sample :
  exists st st',
    mount 5 ex_one_sample_props = Some st /\
    offered 5 ex_one_sample_props st (SetColsToShow 3) /\
    3%nat <> colsToShow st /\
    interact 5 ex_one_sample_props st (SetColsToShow 3) = Some st' /\
    neuronNumbers st' = [0%nat] /\
    neuronNumbers st' <> seq 0 3.
Proof.
  exists (initialState ex_one_sample_props), (mkState 0 0 3 5 [0%nat]).
  split; [vm_compute; reflexivity|].
  split; [eexists; split; [vm_compute; reflexivity | simpl; tauto]|].
  split; [discriminate|].
  split; [vm_compute; reflexivity|].
  split; [reflexivity | discriminate].
Qed.

(** C5, amended.  A change of [colsToShow] to [c] that the component
    renders without a throw resets the neuron range: to the first [c]
    neurons [0 .. c-1] when there is more than one sample, and to [[0]]
    otherwise; the rest of the selection is kept. *)
Theorem colsToShow_change_resets_neuronNumbers
  (fuel : nat) (props : TopkProps) (st st' : State) (c : nat) :
  c <> colsToShow st ->
  interact fuel props st (SetColsToShow c) = Some st' ->
  colsToShow st' = c /\
  ((1 < numberOfSamples props)%nat -> neuronNumbers st' = seq 0 c) /\
  ((numberOfSamples props <= 1)%nat -> neuronNumbers st' = [0%nat]) /\
  sampleNumber st' = sampleNumber st /\
  layerNumber st' = layerNumber st /\
  k st' = k st.
Proof.
  intros Hc Hstep. apply interact_Some in Hstep. destruct Hstep as (-> & _).
  rewrite (step_SetColsToShow props st c Hc).
  simpl. unfold firstNeurons.
  split; [reflexivity|].
  split; [|split; [|auto]].
  - intros Hn. destruct (Nat.ltb_spec 1 (numberOfSamples props)); [reflexivity | lia].
  - intros Hn. destruct (Nat.ltb_spec 1 (numberOfSamples props)); [lia | reflexivity].
Qed.

Lemma colsToShow_change_resets_neuronNumbers_witness :
  exists st st',
    mount 5 ex_roomy_props = Some st /\
    offered 5 ex_roomy_props st (SetColsToShow 3) /\
    3%nat <> colsToShow st /\
    interact 5 ex_roomy_props st (SetColsToShow 3) = Some st' /\
    neuronNumbers st' = [0; 1; 2]%nat.
Proof.
  assert (Hstep : interact 5 ex_roomy_props (initialState ex_roomy_props)
                    (SetColsToShow 3) = Some (mkState 0 0 3 5 [0; 1; 2]%nat))
    by (vm_compute; reflexivity).
  exists (initialState ex_roomy_props), (mkState 0 0 3 5 [0; 1; 2]%nat).
  split; [vm_compute; reflexivity|].
  split; [eexists; split; [vm_compute; reflexivity | simpl; tauto]|].
  split; [discriminate|].
  split; [exact Hstep|].
  destruct (colsToShow_change_resets_neuronNumbers 5 ex_roomy_props
              (initialState ex_roomy_props) (mkState 0 0 3 5 [0; 1; 2]%nat) 3)
    as (_ & Hmany & _); [discriminate | exact Hstep |].
  apply Hmany. cbv. lia.
Defined.

(** * Further properties of the code *)

(** ** [RangeSelector] beyond its intended use *)

(** X1.  With [smallestNumber <= largestNumber] and a step
    [numValsInRange <= 0] the loop of [RangeSelector] never ends: no
    amount of fuel yields its list of ranges.  With
    [largestNumber < smallestNumber] it ends at once with no range,
    whatever the step. *)
Theorem RangeSelector_degenerate
  (smallestNumber largestNumber numValsInRange : Z) (fuel : nat) :
  (smallestNumber <= largestNumber -> numValsInRange <= 0 ->
     RangeSelector_ranges fuel smallestNumber largestNumber numValsInRange = None) /\
  (largestNumber < smallestNumber ->
     RangeSelector_ranges fuel smallestNumber largestNumber numValsInRange = Some []).
Proof.
  unfold RangeSelector_ranges, RangeSelector_bounds. split.
  - intros Hle Hstep.
    now rewrite (RangeSelector_loop_diverges largestNumber numValsInRange fuel
                   smallestNumber [] Hstep Hle).
  - intros Hlt.
    now rewrite (RangeSelector_loop_done largestNumber numValsInRange fuel
                   smallestNumber Hlt).
Qed.

Lemma RangeSelector_degenerate_witness :
  RangeSelector_ranges 1000 0 4 0 = None /\
  RangeSelector_ranges 0 3 2 (-1) = Some [].
Proof.
  split.
  - apply (proj1 (RangeSelector_degenerate 0 4 0 1000)); lia.
  - apply (proj2 (RangeSelector_degenerate 3 2 (-1) 0)); lia.
Defined.

Lemma Chunked_length (size lo hi : Z) (bs : list (Z * Z)) :
  1 <= size -> Chunked size lo hi bs -> lo <= hi ->
  Z.of_nat (length bs) = (hi - lo) / size + 1.
Proof.
  intros Hsize Hch.
  induction Hch as [lo hi Hlt | lo hi Hle Hsz | lo hi bs Hlt Hch IH]; intros Hlohi.
  - lia.
  - simpl. rewrite Z.div_small by lia. reflexivity.
  - simpl length. rewrite Nat2Z.inj_succ, IH by lia.
    replace (hi - lo) with (hi - (lo + size) + 1 * size) by lia.
    rewrite Z.div_add by lia. lia.
Qed.

(** X2.  For [smallestNumber <= largestNumber] and
    [numValsInRange >= 1] within the integers every double holds, the
    select of [RangeSelector] has
    [(largestNumber - smallestNumber) / numValsInRange + 1] options (the
    number of values divided by the step, rounded up). *)
Theorem RangeSelector_number_of_ranges
  (smallestNumber largestNumber numValsInRange : Z) (fuel : nat) :
  smallestNumber <= largestNumber -> 1 <= numValsInRange ->
  - maxSafe <= smallestNumber -> largestNumber + numValsInRange <= maxSafe ->
  (Z.to_nat (largestNumber - smallestNumber + 1) <= fuel)%nat ->
  exists ranges,
    RangeSelector_ranges_double fuel smallestNumber largestNumber numValsInRange
      = Some ranges /\
    Z.of_nat (length ranges) =
      (largestNumber - smallestNumber) / numValsInRange + 1.
Proof.
  intros Hle Hstep Hlo Hhi Hfuel.
  destruct (RangeSelector_bounds_double_Chunked fuel smallestNumber largestNumber
              numValsInRange Hstep Hlo Hhi Hfuel) as (bs & Hrun & Hch).
  exists (map rangeLabel bs). split.
  - unfold RangeSelector_ranges_double. now rewrite Hrun.
  - rewrite length_map. now apply (Chunked_length numValsInRange).
Qed.

Lemma RangeSelector_number_of_ranges_witness :
  exists ranges,
    RangeSelector_ranges_double 10 0 9 4 = Some ranges /\
    Z.of_nat (length ranges) = 3.
Proof.
  destruct (RangeSelector_number_of_ranges 0 9 4 10) as (ranges & Hr & Hlen);
    [lia | lia | unfold maxSafe; lia | unfold maxSafe; lia | simpl; lia |].
  exists ranges. split; [exact Hr | exact Hlen].
Defined.

(** ** [NumberSelector]: edge cases and the way back from an option *)

Lemma NumberSelector_options_None (smallestNumber largestNumber : Z) :
  - maxSafe <= largestNumber - smallestNumber < maxSafe ->
  largestNumber - smallestNumber + 1 < 0 \/
  maxArrayLength <= largestNumber - smallestNumber + 1 ->
  NumberSelector_options smallestNumber largestNumber = None.
Proof.
  intros Hdiff Hcase. unfold NumberSelector_options, arrayKeys.
  rewrite (jsSub_exact largestNumber smallestNumber) by lia.
  rewrite (jsAdd_exact (largestNumber - smallestNumber) 1) by lia.
  destruct (Z.ltb_spec (largestNumber - smallestNumber + 1) 0) as [? | ?];
    [reflexivity|].
  destruct (Z.leb_spec maxArrayLength (largestNumber - smallestNumber + 1)) as [? | ?];
    [reflexivity | lia].
Qed.

(** X3.  On safe integers whose difference is a safe integer too,
    [NumberSelector] throws exactly when [largestNumber] is below
    [smallestNumber - 1] (the array length is negative) or
    [largestNumber - smallestNumber + 1] reaches [2 ^ 32] (the array
    length is too large); for [largestNumber = smallestNumber - 1] it
    offers no option, and otherwise the
    [largestNumber - smallestNumber + 1] integers from [smallestNumber]
    to [largestNumber], without repetition. *)
Theorem NumberSelector_options_edge (smallestNumber largestNumber : Z) :
  - maxSafe <= smallestNumber <= maxSafe ->
  - maxSafe <= largestNumber <= maxSafe ->
  - maxSafe <= largestNumber - smallestNumber < maxSafe ->
  (NumberSelector_options smallestNumber largestNumber = None <->
     largestNumber < smallestNumber - 1 \/
     maxArrayLength <= largestNumber - smallestNumber + 1) /\
  (largestNumber = smallestNumber - 1 ->
     NumberSelector_options smallestNumber largestNumber = Some []) /\
  (forall options,
     NumberSelector_options smallestNumber largestNumber = Some options ->
     options = interval smallestNumber largestNumber /\
     Z.of_nat (length options) = largestNumber - smallestNumber + 1 /\
     NoDup options).
Proof.
  intros Hs Hl Hdiff.
  assert (Hmax : 0 < maxArrayLength) by (unfold maxArrayLength; lia).
  destruct (Z.lt_ge_cases (largestNumber - smallestNumber + 1) 0) as [Hneg | Hpos];
    [|destruct (Z.lt_ge_cases (largestNumber - smallestNumber + 1) maxArrayLength)
        as [Hfit | Hbig]].
  - rewrite NumberSelector_options_None by (assumption || now left).
    split; [split; [intros _; left; lia | reflexivity]|].
    split; [lia | discriminate].
  - rewrite NumberSelector_options_interval by lia.
    split; [split; [discriminate | lia]|].
    split; [intros ->; now rewrite interval_nil by lia|].
    intros options [= <-]. split; [reflexivity|].
    split; [rewrite length_interval; lia | apply NoDup_interval].
  - rewrite NumberSelector_options_None by (assumption || now right).
    split; [split; [intros _; right; lia | reflexivity]|].
    split; [lia | discriminate].
Qed.

Lemma NumberSelector_options_edge_witness :
  NumberSelector_options 0 (-2) = None /\
  NumberSelector_options 0 4294967295 = None /\
  NumberSelector_options 0 (-1) = Some [] /\
  NoDup [1; 2; 3].
Proof.
  assert (Hsafe : forall a, -4294967296 <= a <= 4294967296 ->
                    - maxSafe <= a <= maxSafe /\ - maxSafe <= a < maxSafe)
    by (unfold maxSafe; lia).
  destruct (NumberSelector_options_edge 0 (-2)) as ((_ & Hthrow) & _ & _);
    try (apply Hsafe; lia).
  destruct (NumberSelector_options_edge 0 4294967295) as ((_ & Hlarge) & _ & _);
    try (apply Hsafe; lia).
  destruct (NumberSelector_options_edge 0 (-1)) as (_ & Hempty & _);
    try (apply Hsafe; lia).
  destruct (NumberSelector_options_edge 1 3) as (_ & _ & Hlen);
    try (apply Hsafe; lia).
  split; [apply Hthrow; left; lia|].
  split; [apply Hlarge; right; unfold maxArrayLength; lia|].
  split; [apply Hempty; lia|].
  apply (Hlen [1; 2; 3]). reflexivity.
Defined.

Lemma Number_numberToString (value : Z) : Number (numberToString value) = Some value.
Proof.
  unfold Number, numberToString.
  rewrite NilZero.isi.
  - f_equal. apply DecimalZ.of_to.
  - destruct value as [| p | p]; try discriminate.
    simpl. intros [= H]. exact (DecimalPos.Unsigned.to_uint_nonnil p H).
  - destruct value as [| p | p]; try discriminate.
    simpl. intros [= H]. exact (DecimalPos.Unsigned.to_uint_nonnil p H).
Qed.

(** X4.  Choosing an option of a [NumberSelector] hands exactly the
    number shown to the setter: [Number] reads back the text rendered for
    any integer. *)
Theorem NumberSelector_onChange_optionText (value : Z) :
  NumberSelector_onChange (NumberSelector_optionText value) = Some value.
Proof. exact (Number_numberToString value). Qed.

(** ** [getSelectedActivations] outside valid selections *)

Lemma sliceSize_Some_iff (dim begin : nat) (size : Z) (n : nat) :
  Tf.sliceSize dim begin size = Some n <->
  (0 <= size /\ n = Z.to_nat size /\ (begin + n <= dim)%nat) \/
  (size = -1 /\ n = (dim - begin)%nat /\ (begin <= dim)%nat).
Proof.
  unfold Tf.sliceSize.
  destruct (Z.leb_spec 0 size) as [H0 | H0]; cbn [bind].
  - destruct (Nat.leb_spec (begin + Z.to_nat size) dim) as [Hfit | Hfit]; cbn [assert bind].
    + split; [intros [= <-]; left; lia | intros [(_ & -> & _) | (? & _)]; [reflexivity | lia]].
    + split; [discriminate | intros [(_ & -> & ?) | (? & _)]; lia].
  - destruct (Z.eqb_spec size (-1)) as [-> | Hne]; cbn [bind].
    + destruct (Nat.leb_spec (begin + (dim - begin)) dim) as [Hfit | Hfit];
        cbn [assert bind].
      * split; [intros [= <-]; right; lia | intros [(? & _) | (_ & -> & _)]; [lia | reflexivity]].
      * split; [discriminate | intros [(? & _) | (_ & _ & ?)]; lia].
    + split; [discriminate | intros [(? & _) | (? & _)]; lia].
Qed.

(** What [getSelectedActivations] computes whenever the slice along the
    neuron axis is accepted with [width] neurons. *)
Lemma getSelectedActivations_width (A : Tf.Tensor3D) (T L N l s e width : nat) :
  Tf.shape3 A = (T, L, N) -> (l < L)%nat ->
  Tf.sliceSize N s (Z.of_nat e - Z.of_nat s + 1) = Some width ->
  exists R,
    getSelectedActivations A l s e = Some R /\
    Tf.shape2 R = (width, T) /\
    wf2 R /\
    forall n t, (n < width)%nat -> (t < T)%nat ->
      Tf.get2 R n t = Tf.get3 A t l (s + n).
Proof.
  intros Hs Hl Hwidth.
  set (Q := Tf.mkTensor2D (T, width)
              (flat_map (fun t => map (fun n => Tf.get3 A t l (s + n)) (seq 0 width))
                 (seq 0 T))).
  assert (HQ : Tf.shape2 Q = (T, width)) by reflexivity.
  assert (Hrun : getSelectedActivations A l s e = Some (Tf.transpose Q)).
  { unfold getSelectedActivations, Tf.slice. rewrite Hs.
    rewrite (sliceSize_rest T 0) by lia.
    rewrite (sliceSize_fits L l 1) by (simpl; lia).
    rewrite Hwidth. simpl. unfold Tf.squeeze1. simpl.
    rewrite Nat.sub_0_r. unfold Q. do 3 f_equal.
    apply flat_map_ext. intros t. rewrite app_nil_r.
    apply map_ext. intros n. now rewrite Nat.add_0_r. }
  exists (Tf.transpose Q). split; [exact Hrun|].
  split; [now apply shape2_transpose|].
  split; [apply wf2_transpose|].
  intros n t Hn Ht.
  rewrite (get2_transpose Q T width) by assumption.
  rewrite <- get2_tensorRow by (rewrite HQ; assumption).
  unfold tensorRow. rewrite HQ. simpl snd. unfold Q. simpl Tf.data2.
  rewrite (subarray_flat_map
             (fun t => map (fun n => Tf.get3 A t l (s + n)) (seq 0 width)))
    by (intros; try rewrite length_map, length_seq; auto).
  rewrite (nth_indep _ 0 (Tf.get3 A t l (s + 0))) by
    (rewrite length_map, length_seq; lia).
  rewrite (map_nth (fun n => Tf.get3 A t l (s + n))), seq_nth by lia.
  reflexivity.
Qed.

Lemma getSelectedActivations_None_layer (A : Tf.Tensor3D) (T L N l s e : nat) :
  Tf.shape3 A = (T, L, N) -> (L <= l)%nat -> getSelectedActivations A l s e = None.
Proof.
  intros Hs Hl. unfold getSelectedActivations, Tf.slice. rewrite Hs.
  rewrite (sliceSize_rest T 0) by lia. cbn [bind].
  destruct (Tf.sliceSize L l 1) as [n |] eqn:Hn; [|reflexivity].
  apply sliceSize_Some_iff in Hn. simpl in Hn. lia.
Qed.

Lemma getSelectedActivations_None_neurons (A : Tf.Tensor3D) (T L N l s e : nat) :
  Tf.shape3 A = (T, L, N) ->
  Tf.sliceSize N s (Z.of_nat e - Z.of_nat s + 1) = None ->
  getSelectedActivations A l s e = None.
Proof.
  intros Hs Hn. unfold getSelectedActivations, Tf.slice. rewrite Hs, Hn.
  rewrite (sliceSize_rest T 0) by lia. cbn [bind].
  now destruct (Tf.sliceSize L l 1).
Qed.

Lemma getSelectedActivations_accepts (A : Tf.Tensor3D) (T L N l s e : nat) :
  Tf.shape3 A = (T, L, N) ->
  (getSelectedActivations A l s e <> None <->
   (l < L)%nat /\
   ((s <= e + 1 /\ e < N)%nat \/ (s = e + 2 /\ s <= N)%nat)).
Proof.
  intros Hs. split.
  - intros Hrun.
    destruct (Nat.lt_ge_cases l L) as [Hl | Hl];
      [|now rewrite (getSelectedActivations_None_layer A T L N) in Hrun].
    split; [exact Hl|].
    destruct (Tf.sliceSize N s (Z.of_nat e - Z.of_nat s + 1)) as [w |] eqn:Hw;
      [|now rewrite (getSelectedActivations_None_neurons A T L N) in Hrun].
    apply sliceSize_Some_iff in Hw. lia.
  - intros [Hl Hrange].
    assert (Hw : exists w, Tf.sliceSize N s (Z.of_nat e - Z.of_nat s + 1) = Some w).
    { destruct Hrange as [[Hse He] | [Hse HsN]].
      - exists (e + 1 - s)%nat. apply sliceSize_Some_iff. left. lia.
      - exists (N - s)%nat. apply sliceSize_Some_iff. right. lia. }
    destruct Hw as [w Hw].
    destruct (getSelectedActivations_width A T L N l s e w Hs Hl Hw) as (R & -> & _).
    discriminate.
Qed.

(** X5.  On a tensor of shape [tokens x layers x neurons],
    [getSelectedActivations] returns a result exactly when the layer
    exists and the neuron bounds are accepted: either
    [neuronStartNumber <= neuronEndNumber + 1] with [neuronEndNumber]
    below the neuron count, or [neuronStartNumber = neuronEndNumber + 2]
    within the neuron count (the computed size is then the [-1] the slice
    reads as "to the end").  In every other case the slice throws. *)
Theorem getSelectedActivations_succeeds_iff (A : Tf.Tensor3D) (T L N l s e : nat) :
  Tf.shape3 A = (T, L, N) ->
  (getSelectedActivations A l s e <> None <->
   (l < L)%nat /\
   ((s <= e + 1 /\ e < N)%nat \/ (s = e + 2 /\ s <= N)%nat)).
Proof. exact (getSelectedActivations_accepts A T L N l s e). Qed.

Lemma getSelectedActivations_succeeds_iff_witness :
  getSelectedActivations ex_tensor 1 0 2 <> None /\
  getSelectedActivations ex_tensor 2 0 2 = None /\
  getSelectedActivations ex_tensor 1 0 3 = None.
Proof.
  pose proof (getSelectedActivations_succeeds_iff ex_tensor 2 2 3 1 0 2 eq_refl) as H1.
  pose proof (getSelectedActivations_succeeds_iff ex_tensor 2 2 3 2 0 2 eq_refl) as H2.
  pose proof (getSelectedActivations_succeeds_iff ex_tensor 2 2 3 1 0 3 eq_refl) as H3.
  split; [apply H1; lia|].
  split.
  - destruct (getSelectedActivations ex_tensor 2 0 2); [|reflexivity].
    exfalso. assert (Hne : Some t <> None) by discriminate. apply H2 in Hne. lia.
  - destruct (getSelectedActivations ex_tensor 1 0 3); [|reflexivity].
    exfalso. assert (Hne : Some t <> None) by discriminate. apply H3 in Hne. lia.
Defined.

(** X6.  Two bounds that are no range still give a result.  With
    [neuronEndNumber = neuronStartNumber - 1] the result has no row and
    reads back as the empty array.  With
    [neuronEndNumber = neuronStartNumber - 2] the result holds every
    neuron from [neuronStartNumber] to the last one. *)
Theorem getSelectedActivations_reversed_bounds (A : Tf.Tensor3D) (T L N l s e : nat) :
  Tf.shape3 A = (T, L, N) -> (l < L)%nat -> (s <= N)%nat ->
  ((s = e + 1)%nat ->
     exists R, getSelectedActivations A l s e = Some R /\
               Tf.shape2 R = (0%nat, T) /\ Tf.arraySync R = []) /\
  ((s = e + 2)%nat ->
     exists R, getSelectedActivations A l s e = Some R /\
               Tf.shape2 R = ((N - s)%nat, T) /\
               forall n t, (n < N - s)%nat -> (t < T)%nat ->
                 Tf.get2 R n t = Tf.get3 A t l (s + n)).
Proof.
  intros Hs Hl HsN. split; intros Hse.
  - destruct (getSelectedActivations_width A T L N l s e 0 Hs Hl)
      as (R & HR & Hshape & _).
    { apply sliceSize_Some_iff. left. lia. }
    exists R. split; [exact HR|]. split; [exact Hshape|].
    apply (arraySync_empty R 0 T Hshape). now left.
  - destruct (getSelectedActivations_width A T L N l s e (N - s) Hs Hl)
      as (R & HR & Hshape & _ & Hget).
    { apply sliceSize_Some_iff. right. lia. }
    exists R. split; [exact HR|]. split; [exact Hshape | exact Hget].
Qed.

Lemma getSelectedActivations_reversed_bounds_witness :
  (exists R, getSelectedActivations ex_tensor 0 2 1 = Some R /\
             Tf.arraySync R = []) /\
  (exists R, getSelectedActivations ex_tensor 0 2 0 = Some R /\
             Tf.shape2 R = (1, 2)%nat).
Proof.
  destruct (getSelectedActivations_reversed_bounds ex_tensor 2 2 3 0 2 1)
    as [Hempty _]; [reflexivity | lia | lia |].
  destruct (getSelectedActivations_reversed_bounds ex_tensor 2 2 3 0 2 0)
    as [_ Hrest]; [reflexivity | lia | lia |].
  split.
  - destruct Hempty as (R & HR & _ & Harr); [lia|]. now exists R.
  - destruct Hrest as (R & HR & Hshape & _); [lia|]. now exists R.
Defined.

(** ** How the top-k and bottom-k columns relate *)

Lemma topBottomK_columns (A : Tf.Tensor2D) (N T k : nat) :
  Tf.shape2 A = (N, T) -> wf2 A -> (k <= T)%nat ->
  exists tb,
    topBottomK A k = Some tb /\
    forall n, (n < N)%nat ->
      column (topkVals tb) n = map Tf.value (Tf.topkRow k (tensorRow A n)) /\
      column (topkIdxs tb) n = map indexZ (Tf.topkRow k (tensorRow A n)) /\
      column (bottomkVals tb) n =
        rev (map negate (map Tf.value (Tf.topkRow k (map negate (tensorRow A n))))) /\
      column (bottomkIdxs tb) n =
        rev (map indexZ (Tf.topkRow k (map negate (tensorRow A n)))).
Proof.
  intros Hs Hwf Hk.
  destruct (topBottomK_displays A N T k Hs Hwf Hk)
    as (tb & Htb & (HV & _) & (HI & _) & (HbV & _) & (HbI & _)).
  exists tb. split; [exact Htb|].
  intros n Hn. rewrite (HV n Hn), (HI n Hn), (HbV n Hn), (HbI n Hn). auto.
Qed.

Lemma topkRow_prefix (k k' : nat) (vals : list Z) :
  (k <= k')%nat -> Tf.topkRow k vals = firstn k (Tf.topkRow k' vals).
Proof.
  intros Hk. unfold Tf.topkRow. rewrite firstn_firstn.
  now rewrite Nat.min_l.
Qed.

(** X7.  Raising [k] only adds ranks.  For [k <= k' <= tokens], every
    column of the top-k matrices for [k] is the first [k] entries of the
    column for [k'], and every column of the bottom-k matrices for [k] is
    the last [k] entries of the column for [k']. *)
Theorem topBottomK_monotone_in_k (A : Tf.Tensor2D) (N T k k' n : nat) :
  Tf.shape2 A = (N, T) -> wf2 A -> (k <= k')%nat -> (k' <= T)%nat -> (n < N)%nat ->
  exists tb tb',
    topBottomK A k = Some tb /\ topBottomK A k' = Some tb' /\
    column (topkVals tb) n = firstn k (column (topkVals tb') n) /\
    column (topkIdxs tb) n = firstn k (column (topkIdxs tb') n) /\
    column (bottomkVals tb) n = skipn (k' - k) (column (bottomkVals tb') n) /\
    column (bottomkIdxs tb) n = skipn (k' - k) (column (bottomkIdxs tb') n).
Proof.
  intros Hs Hwf Hkk HkT Hn.
  destruct (topBottomK_columns A N T k Hs Hwf) as (tb & Htb & Hcol); [lia|].
  destruct (topBottomK_columns A N T k' Hs Hwf HkT) as (tb' & Htb' & Hcol').
  exists tb, tb'. split; [exact Htb|]. split; [exact Htb'|].
  destruct (Hcol n Hn) as (-> & -> & -> & ->).
  destruct (Hcol' n Hn) as (-> & -> & -> & ->).
  assert (Hlen : length (tensorRow A n) = T) by now apply (length_tensorRow A N T).
  assert (Hlen' : length (Tf.topkRow k' (map negate (tensorRow A n))) = k')
    by (apply length_topkRow; rewrite length_map; lia).
  rewrite !(topkRow_prefix k k') by assumption.
  rewrite !firstn_map. split; [reflexivity|]. split; [reflexivity|].
  rewrite !skipn_rev, !length_map, Hlen'.
  replace (k' - (k' - k))%nat with k by lia.
  rewrite !firstn_map. split; reflexivity.
Qed.

Lemma topBottomK_monotone_in_k_witness :
  exists tb tb',
    topBottomK ex_matrix 1 = Some tb /\ topBottomK ex_matrix 3 = Some tb' /\
    column (topkVals tb) 0 = firstn 1 (column (topkVals tb') 0) /\
    column (bottomkVals tb) 0 = skipn 2 (column (bottomkVals tb') 0).
Proof.
  destruct (topBottomK_monotone_in_k ex_matrix 2 3 1 3 0)
    as (tb & tb' & H1 & H3 & Htop & _ & Hbot & _);
    [reflexivity | reflexivity | lia | lia | lia |].
  exists tb, tb'. auto.
Defined.

(** Two non-increasing lists with the same elements are the same list. *)
Lemma sorted_permutation_unique (l1 l2 : list Z) :
  StronglySorted (fun x y => y <= x) l1 ->
  StronglySorted (fun x y => y <= x) l2 ->
  Permutation l1 l2 -> l1 = l2.
Proof.
  intros H1. revert l2.
  induction H1 as [| a l1 Hs1 IH Ha]; intros l2 H2 Hperm.
  - now apply Permutation_nil in Hperm.
  - destruct l2 as [| b l2];
      [apply Permutation_sym, Permutation_nil in Hperm; discriminate|].
    apply StronglySorted_inv in H2. destruct H2 as [Hs2 Hb].
    rewrite Forall_forall in Ha, Hb.
    assert (a = b) as ->.
    { assert (Hain : In a (b :: l2))
        by (apply (Permutation_in _ Hperm); now left).
      assert (Hbin : In b (a :: l1))
        by (apply (Permutation_in _ (Permutation_sym Hperm)); now left).
      destruct Hain as [-> | Hain]; [reflexivity|].
      destruct Hbin as [-> | Hbin]; [reflexivity|].
      specialize (Ha b Hbin). specialize (Hb a Hain). lia. }
    f_equal. apply IH; [exact Hs2|].
    now apply Permutation_cons_inv in Hperm.
Qed.

Lemma full_permutation (vals rest row : list Z) :
  Permutation (vals ++ rest) row -> length vals = length row ->
  Permutation vals row.
Proof.
  intros Hperm Hlen.
  pose proof (Permutation_length Hperm) as Hl. rewrite length_app in Hl.
  destruct rest; [now rewrite app_nil_r in Hperm | simpl in Hl; lia].
Qed.

(** X8.  When [k] is the token count, top and bottom show the same
    values: every column of [bottomkVals] equals the column of [topkVals],
    which is the whole row in non-increasing order. *)
Theorem topBottomK_all_tokens (A : Tf.Tensor2D) (N T n : nat) :
  Tf.shape2 A = (N, T) -> wf2 A -> (n < N)%nat ->
  exists tb,
    topBottomK A T = Some tb /\
    column (bottomkVals tb) n = column (topkVals tb) n /\
    Permutation (column (topkVals tb) n) (tensorRow A n) /\
    StronglySorted (fun x y => y <= x) (column (topkVals tb) n).
Proof.
  intros Hs Hwf Hn.
  destruct (topBottomK_columns A N T T Hs Hwf (Nat.le_refl T)) as (tb & Htb & Hcol).
  exists tb. split; [exact Htb|].
  destruct (Hcol n Hn) as (-> & _ & -> & _).
  assert (Hlen : length (tensorRow A n) = T) by now apply (length_tensorRow A N T).
  destruct (topRow_facts T (tensorRow A n)) as (L1 & _ & Hs1 & _ & _ & rest1 & Hp1 & _);
    [lia|].
  destruct (bottomRow_facts T (tensorRow A n))
    as (L2 & _ & _ & Hs2 & _ & _ & rest2 & Hp2 & _); [lia|].
  apply full_permutation in Hp1; [|lia].
  apply full_permutation in Hp2; [|lia].
  split; [|split; assumption].
  apply sorted_permutation_unique; [assumption | assumption |].
  now rewrite Hp1, Hp2.
Qed.

Lemma topBottomK_all_tokens_witness :
  exists tb,
    topBottomK ex_matrix 3 = Some tb /\
    column (bottomkVals tb) 1 = column (topkVals tb) 1.
Proof.
  destruct (topBottomK_all_tokens ex_matrix 2 3 1) as (tb & Htb & Heq & _);
    [reflexivity | reflexivity | lia |].
  exists tb. auto.
Defined.

Lemma sorted_nth_le (l : list Z) :
  StronglySorted (fun x y => y <= x) l ->
  forall i j, (i <= j)%nat -> (j < length l)%nat -> nth j l 0 <= nth i l 0.
Proof.
  induction 1 as [| a l Hs IH Ha]; intros i j Hij Hj; simpl in Hj; [lia|].
  destruct j as [| j]; [replace i with 0%nat by lia; lia|].
  destruct i as [| i]; simpl.
  - rewrite Forall_forall in Ha. apply Ha, nth_In. lia.
  - apply IH; lia.
Qed.

(** X9.  For [1 <= k <= tokens], the first rank of a top-k column is the
    largest activation of the neuron and the last rank of its bottom-k
    column is the smallest one. *)
Theorem topBottomK_extremes (A : Tf.Tensor2D) (N T k n : nat) :
  Tf.shape2 A = (N, T) -> wf2 A -> (1 <= k <= T)%nat -> (n < N)%nat ->
  exists tb,
    topBottomK A k = Some tb /\
    let top := nth 0 (column (topkVals tb) n) 0 in
    let bottom := nth (k - 1) (column (bottomkVals tb) n) 0 in
    In top (tensorRow A n) /\ In bottom (tensorRow A n) /\
    forall x, In x (tensorRow A n) -> bottom <= x <= top.
Proof.
  intros Hs Hwf Hk Hn.
  destruct (topBottomK_columns A N T k Hs Hwf (proj2 Hk)) as (tb & Htb & Hcol).
  exists tb. split; [exact Htb|].
  destruct (Hcol n Hn) as (-> & _ & -> & _). cbv zeta.
  assert (Hlen : length (tensorRow A n) = T) by now apply (length_tensorRow A N T).
  destruct (topRow_facts k (tensorRow A n))
    as (L1 & _ & Hs1 & _ & _ & rest1 & Hp1 & Hle1); [lia|].
  destruct (bottomRow_facts k (tensorRow A n))
    as (L2 & _ & _ & Hs2 & _ & _ & rest2 & Hp2 & Hle2); [lia|].
  set (vals := map Tf.value (Tf.topkRow k (tensorRow A n))) in *.
  set (bvals := rev (map negate
                  (map Tf.value (Tf.topkRow k (map negate (tensorRow A n)))))) in *.
  assert (Htop : In (nth 0 vals 0) vals) by (apply nth_In; lia).
  assert (Hbot : In (nth (k - 1) bvals 0) bvals) by (apply nth_In; lia).
  split; [apply (Permutation_in _ Hp1), in_or_app; now left|].
  split; [apply (Permutation_in _ Hp2), in_or_app; now left|].
  intros x Hx. split.
  - apply (Permutation_in _ (Permutation_sym Hp2)), in_app_or in Hx.
    destruct Hx as [Hx | Hx]; [|now apply Hle2].
    destruct (In_nth _ _ 0 Hx) as (j & Hj & <-).
    apply (sorted_nth_le bvals Hs2); lia.
  - apply (Permutation_in _ (Permutation_sym Hp1)), in_app_or in Hx.
    destruct Hx as [Hx | Hx]; [|now apply Hle1].
    destruct (In_nth _ _ 0 Hx) as (j & Hj & <-).
    apply (sorted_nth_le vals Hs1); lia.
Qed.

Lemma topBottomK_extremes_witness :
  exists tb,
    topBottomK ex_matrix 2 = Some tb /\
    forall x, In x (tensorRow ex_matrix 1) ->
      nth 1 (column (bottomkVals tb) 1) 0 <= x <= nth 0 (column (topkVals tb) 1) 0.
Proof.
  destruct (topBottomK_extremes ex_matrix 2 3 2 1) as (tb & Htb & _ & _ & Hall);
    [reflexivity | reflexivity | lia | lia |].
  exists tb. split; [exact Htb | exact Hall].
Defined.

(** ** The shape of the display matrices *)

Lemma arraySync_transpose_rectangular (X : Tf.Tensor2D) (N k : nat) :
  Tf.shape2 X = (N, k) ->
  ((0 < k)%nat -> (0 < N)%nat ->
     rectangular k N (Tf.arraySync (Tf.transpose X))) /\
  ((k = 0 \/ N = 0)%nat -> Tf.arraySync (Tf.transpose X) = []).
Proof.
  intros Hs.
  pose proof (shape2_transpose X N k Hs) as Hst.
  split.
  - intros Hk HN.
    rewrite (arraySync_rows (Tf.transpose X) k N Hst Hk HN).
    split; [now rewrite length_map, length_seq|].
    rewrite Forall_map, Forall_forall. intros r Hr. apply in_seq in Hr.
    apply (length_tensorRow (Tf.transpose X) k N); [exact Hst | apply wf2_transpose | lia].
  - intros Hz. now apply (arraySync_empty (Tf.transpose X) k N Hst).
Qed.

Lemma topBottomK_shapes (A : Tf.Tensor2D) (N T k : nat) (tb : TopBottomK) :
  Tf.shape2 A = (N, T) -> topBottomK A k = Some tb ->
  ((0 < k)%nat -> (0 < N)%nat ->
     rectangular k N (topkVals tb) /\ rectangular k N (topkIdxs tb) /\
     rectangular k N (bottomkVals tb) /\ rectangular k N (bottomkIdxs tb)) /\
  ((k = 0 \/ N = 0)%nat ->
     topkVals tb = [] /\ topkIdxs tb = [] /\
     bottomkVals tb = [] /\ bottomkIdxs tb = []).
Proof.
  intros Hs. unfold topBottomK, Tf.topk. rewrite shape2_mul, Hs.
  destruct (k <=? T)%nat; cbn [assert bind]; [|discriminate].
  intros [= <-]. cbn [topkVals topkIdxs bottomkVals bottomkIdxs].
  set (V := Tf.mkTensor2D (N, k) _). set (I := Tf.mkTensor2D (N, k) _).
  set (V' := Tf.mkTensor2D (N, k) _). set (I' := Tf.mkTensor2D (N, k) _).
  assert (HV : Tf.shape2 V = (N, k)) by reflexivity.
  assert (HI : Tf.shape2 I = (N, k)) by reflexivity.
  assert (HV' : Tf.shape2 (Tf.reverse (Tf.mul V' (-1))) = (N, k))
    by now rewrite shape2_reverse, shape2_mul.
  assert (HI' : Tf.shape2 (Tf.reverse I') = (N, k)) by now rewrite shape2_reverse.
  destruct (arraySync_transpose_rectangular _ N k HV) as [R1 E1].
  destruct (arraySync_transpose_rectangular _ N k HI) as [R2 E2].
  destruct (arraySync_transpose_rectangular _ N k HV') as [R3 E3].
  destruct (arraySync_transpose_rectangular _ N k HI') as [R4 E4].
  split; [intros Hk HN | intros Hz]; auto.
Qed.

Lemma tokensAt_rectangular (toks : list string) (idxs : list (list Z)) (rows cols : nat) :
  rectangular rows cols idxs -> rectangular rows cols (tokensAt toks idxs).
Proof.
  intros [Hlen Hall]. unfold tokensAt. split; [now rewrite length_map|].
  rewrite Forall_map. revert Hall. apply Forall_impl.
  intros row Hrow. now rewrite length_map.
Qed.

(** X10.  The six matrices [Topk] hands to the table have one shape:
    [k] rows of as many entries as neurons were selected, so every
    activation of the table has its index and its token cell.  With
    [k = 0] or no neuron selected all six are the empty array. *)
Theorem Topk_derived_shapes (props : TopkProps) (st : State) (d : Derived)
  (acts : Tf.Tensor2D) (N T : nat) :
  Topk_derived props st = Some d ->
  currentActivations props st = Some acts ->
  Tf.shape2 acts = (N, T) ->
  ((0 < k st)%nat -> (0 < N)%nat ->
     rectangular (k st) N (topkVals (matrices d)) /\
     rectangular (k st) N (topkIdxs (matrices d)) /\
     rectangular (k st) N (topkTokens d) /\
     rectangular (k st) N (bottomkVals (matrices d)) /\
     rectangular (k st) N (bottomkIdxs (matrices d)) /\
     rectangular (k st) N (bottomkTokens d)) /\
  ((k st = 0 \/ N = 0)%nat ->
     topkVals (matrices d) = [] /\ topkIdxs (matrices d) = [] /\
     topkTokens d = [] /\
     bottomkVals (matrices d) = [] /\ bottomkIdxs (matrices d) = [] /\
     bottomkTokens d = []).
Proof.
  intros Hd Hacts Hs.
  destruct (Topk_derived_Some props st d Hd)
    as (toks & acts' & _ & Ha & Htb & HtT & HbT).
  assert (acts' = acts) as -> by congruence.
  destruct (topBottomK_shapes acts N T (k st) (matrices d) Hs Htb) as [Hrect Hempty].
  rewrite HtT, HbT. split.
  - intros Hk HN. destruct (Hrect Hk HN) as (R1 & R2 & R3 & R4).
    exact (conj R1 (conj R2 (conj (tokensAt_rectangular toks _ _ _ R2)
             (conj R3 (conj R4 (tokensAt_rectangular toks _ _ _ R4)))))).
  - intros Hz. destruct (Hempty Hz) as (-> & -> & -> & ->). repeat split.
Qed.

Lemma Topk_derived_shapes_witness :
  exists d,
    Topk_derived ex_props ex_state = Some d /\
    rectangular 2 3 (topkTokens d) /\ rectangular 2 3 (bottomkVals (matrices d)).
Proof.
  eexists. split; [vm_compute; reflexivity|].
  destruct (Topk_derived_shapes ex_props ex_state _ _ 3 4 eq_refl eq_refl eq_refl)
    as [Hrect _].
  destruct Hrect as (_ & _ & Ht & Hb & _); [simpl; lia | lia |].
  split; [exact Ht | exact Hb].
Defined.

(** ** A neuron's columns do not depend on the range shown *)

Lemma getSelectedActivations_row (A : Tf.Tensor3D) (T L N l s e n : nat)
  (R : Tf.Tensor2D) :
  Tf.shape3 A = (T, L, N) -> (l < L)%nat -> (s <= e)%nat -> (e < N)%nat ->
  getSelectedActivations A l s e = Some R -> (n < e - s + 1)%nat ->
  tensorRow R n = map (fun t => Tf.get3 A t l (s + n)) (seq 0 T).
Proof.
  intros Hs Hl Hse He HR Hn.
  destruct (getSelectedActivations_entries A T L N l s e Hs Hl Hse He)
    as (R' & HR' & Hshape & Hwf & Hget).
  assert (R' = R) as -> by congruence.
  rewrite (tensorRow_eq_map_get2 R (e - s + 1) T n) by assumption.
  apply map_ext_in. intros t Ht. apply in_seq in Ht. apply Hget; lia.
Qed.

(** X11.  The four columns shown for a neuron depend on the neuron
    only, not on the range of neurons it is displayed with: two valid
    ranges that both contain neuron [m] give it the same top-k and
    bottom-k values and indices. *)
Theorem neuron_columns_independent_of_range
  (A : Tf.Tensor3D) (T L N l s e s' e' m k : nat) :
  Tf.shape3 A = (T, L, N) -> (l < L)%nat -> (k <= T)%nat ->
  (s <= m <= e)%nat -> (e < N)%nat -> (s' <= m <= e')%nat -> (e' < N)%nat ->
  exists R R' tb tb',
    getSelectedActivations A l s e = Some R /\
    getSelectedActivations A l s' e' = Some R' /\
    topBottomK R k = Some tb /\ topBottomK R' k = Some tb' /\
    column (topkVals tb) (m - s) = column (topkVals tb') (m - s') /\
    column (topkIdxs tb) (m - s) = column (topkIdxs tb') (m - s') /\
    column (bottomkVals tb) (m - s) = column (bottomkVals tb') (m - s') /\
    column (bottomkIdxs tb) (m - s) = column (bottomkIdxs tb') (m - s').
Proof.
  intros Hs Hl Hk Hm He Hm' He'.
  destruct (getSelectedActivations_entries A T L N l s e Hs Hl) as (R & HR & HsR & HwR & _);
    [lia | lia |].
  destruct (getSelectedActivations_entries A T L N l s' e' Hs Hl)
    as (R' & HR' & HsR' & HwR' & _); [lia | lia |].
  destruct (topBottomK_columns R _ T k HsR HwR Hk) as (tb & Htb & Hcol).
  destruct (topBottomK_columns R' _ T k HsR' HwR' Hk) as (tb' & Htb' & Hcol').
  exists R, R', tb, tb'. repeat (split; [assumption|]).
  destruct (Hcol (m - s)%nat) as (-> & -> & -> & ->); [lia|].
  destruct (Hcol' (m - s')%nat) as (-> & -> & -> & ->); [lia|].
  rewrite (getSelectedActivations_row A T L N l s e (m - s) R) by (assumption || lia).
  rewrite (getSelectedActivations_row A T L N l s' e' (m - s') R') by (assumption || lia).
  replace (s + (m - s))%nat with m by lia.
  replace (s' + (m - s'))%nat with m by lia.
  auto.
Qed.

Lemma neuron_columns_independent_of_range_witness :
  exists R R' tb tb',
    getSelectedActivations ex_tensor 1 0 2 = Some R /\
    getSelectedActivations ex_tensor 1 1 1 = Some R' /\
    topBottomK R 2 = Some tb /\ topBottomK R' 2 = Some tb' /\
    column (topkVals tb) 1 = column (topkVals tb') 0.
Proof.
  destruct (neuron_columns_independent_of_range ex_tensor 2 2 3 1 0 2 1 1 1 2)
    as (R & R' & tb & tb' & HR & HR' & Htb & Htb' & Hcol & _);
    [reflexivity | lia | lia | lia | lia | lia | lia |].
  exists R, R', tb, tb'. auto.
Defined.

(** ** When the body of [Topk] throws *)

Lemma tensor3_Some (values : list (list (list Z))) (A : Tf.Tensor3D) :
  Tf.tensor3 values = Some A <->
  exists T L N,
    Tf.inferShape3 values = Some (T, L, N) /\
    length (concat (concat values)) = (T * L * N)%nat /\
    A = Tf.mkTensor3D (T, L, N) (map stored (concat (concat values))).
Proof.
  unfold Tf.tensor3.
  destruct (Tf.inferShape3 values) as [[[T L] N] |]; cbn [bind]; split.
  - rewrite length_map.
    destruct (Nat.eqb_spec (length (concat (concat values))) (T * L * N)) as [Hlen | Hlen];
      cbn [assert bind]; [|discriminate].
    intros [= <-]. now exists T, L, N.
  - intros (T' & L' & N' & [= <- <- <-] & Hlen & ->).
    rewrite length_map, Hlen, Nat.eqb_refl. reflexivity.
  - discriminate.
  - intros (T' & L' & N' & Hsh & _). discriminate.
Qed.

Lemma currentActivations_selectable (props : TopkProps) (st : State) :
  (forall values, nth_error (activations props) (sampleNumber st) = Some values ->
     fills values) ->
  (forall acts, currentActivations props st = Some acts ->
     selectable props st (snd (Tf.shape2 acts))) /\
  (forall T, selectable props st T ->
     exists acts, currentActivations props st = Some acts /\
                  snd (Tf.shape2 acts) = T).
Proof.
  intros Hfill.
  unfold currentActivations, activationsTensors. rewrite nth_error_map. split.
  - intros acts.
    destruct (nth_error (activations props) (sampleNumber st)) as [values |] eqn:Hv;
      cbn [option_map bind]; [|discriminate].
    destruct (Tf.tensor3 values) as [A |] eqn:HA; cbn [bind]; [|discriminate].
    destruct (nth_error (neuronNumbers st) 0) as [s |] eqn:Hs0; cbn [bind];
      [|discriminate].
    destruct (nth_error (neuronNumbers st) (length (neuronNumbers st) - 1))
      as [e |] eqn:He0; cbn [bind]; [|discriminate].
    intros Hacts.
    apply tensor3_Some in HA. destruct HA as (T & L & N & Hsh & Hlen & ->).
    assert (Hshape : Tf.shape3 (Tf.mkTensor3D (T, L, N)
                                  (map stored (concat (concat values))))
                     = (T, L, N)) by reflexivity.
    assert (Hne : getSelectedActivations
                    (Tf.mkTensor3D (T, L, N) (map stored (concat (concat values))))
                    (layerNumber st) s e <> None) by congruence.
    apply (getSelectedActivations_accepts _ T L N) in Hne; [|exact Hshape].
    destruct Hne as [Hl Hrange].
    assert (Hw : exists w, Tf.sliceSize N s (Z.of_nat e - Z.of_nat s + 1) = Some w).
    { destruct Hrange as [[Hse He] | [Hse HsN]].
      - exists (e + 1 - s)%nat. apply sliceSize_Some_iff. left. lia.
      - exists (N - s)%nat. apply sliceSize_Some_iff. right. lia. }
    destruct Hw as [w Hw].
    destruct (getSelectedActivations_width _ T L N _ s e w Hshape Hl Hw)
      as (R & HR & HsR & _).
    assert (R = acts) as -> by congruence.
    rewrite HsR. simpl snd.
    exists values, L, N, s, e. auto 10.
  - intros T (values & L & N & s & e & Hv & Hsh & Hs0 & He0 & Hl & Hrange).
    pose proof (Hfill values Hv T L N Hsh) as Hlen.
    rewrite Hv. cbn [option_map bind].
    assert (HA : Tf.tensor3 values
                 = Some (Tf.mkTensor3D (T, L, N) (map stored (concat (concat values)))))
      by (apply tensor3_Some; now exists T, L, N).
    rewrite HA, Hs0, He0. cbn [bind].
    assert (Hw : exists w, Tf.sliceSize N s (Z.of_nat e - Z.of_nat s + 1) = Some w).
    { destruct Hrange as [[Hse He] | [Hse HsN]].
      - exists (e + 1 - s)%nat. apply sliceSize_Some_iff. left. lia.
      - exists (N - s)%nat. apply sliceSize_Some_iff. right. lia. }
    destruct Hw as [w Hw].
    destruct (getSelectedActivations_width
                (Tf.mkTensor3D (T, L, N) (map stored (concat (concat values))))
                T L N (layerNumber st) s e w eq_refl Hl Hw) as (R & HR & HsR & _).
    exists R. split; [exact HR | now rewrite HsR].
Qed.

Lemma Topk_derived_accepts (props : TopkProps) (st : State) :
  (forall values, nth_error (activations props) (sampleNumber st) = Some values ->
     fills values) ->
  (Topk_derived props st <> None <->
   exists T,
     nth_error (tokens props) (sampleNumber st) <> None /\
     selectable props st T /\ (k st <= T)%nat).
Proof.
  intros Hfill.
  destruct (currentActivations_selectable props st Hfill) as [Hto Hfrom].
  unfold Topk_derived, currentTokens. split.
  - destruct (nth_error (tokens props) (sampleNumber st)) as [toks |];
      cbn [bind]; [|congruence].
    destruct (currentActivations props st) as [acts |]; cbn [bind]; [|congruence].
    destruct (topBottomK acts (k st)) as [tb |] eqn:Htb; cbn [bind]; [|congruence].
    intros _. exists (snd (Tf.shape2 acts)).
    split; [discriminate|]. split; [now apply Hto|].
    now apply (topBottomK_Some_fits acts (k st) tb).
  - intros (T & Htoks & Hsel & Hk).
    destruct (nth_error (tokens props) (sampleNumber st)) as [toks |];
      cbn [bind]; [|congruence].
    destruct (Hfrom T Hsel) as (acts & -> & HT). cbn [bind].
    destruct (proj2 (topBottomK_Some_iff acts (k st))) as [tb ->]; [lia|].
    discriminate.
Qed.

(** X12.  When the nested array of the selected sample fills its shape,
    the body of [Topk] produces its matrices exactly when the sample has
    a token list, the selection can be sliced out of the sample's tensor
    (rank 3, an existing layer, accepted neuron bounds), and [k] does not
    exceed the token count of that tensor; in every other case it
    throws. *)
Theorem Topk_derived_succeeds_iff (props : TopkProps) (st : State) :
  (forall values, nth_error (activations props) (sampleNumber st) = Some values ->
     fills values) ->
  (Topk_derived props st <> None <->
   exists T,
     nth_error (tokens props) (sampleNumber st) <> None /\
     selectable props st T /\ (k st <= T)%nat).
Proof. exact (Topk_derived_accepts props st). Qed.

Lemma Topk_derived_succeeds_iff_witness :
  Topk_derived ex_pair_props ex_pair_state <> None /\
  (exists T, selectable ex_pair_props ex_pair_state T /\ (k ex_pair_state <= T)%nat) /\
  Topk_derived ex_pair_props (setState ex_pair_state (SetK 6)) = None.
Proof.
  assert (Hfill : forall st, sampleNumber st = 1%nat ->
            forall values,
              nth_error (activations ex_pair_props) (sampleNumber st) = Some values ->
              fills values).
  { intros st -> values [= <-] T L N [= <- <- <-]. reflexivity. }
  split; [discriminate|]. split.
  - destruct (proj1 (Topk_derived_succeeds_iff ex_pair_props ex_pair_state
                       (Hfill ex_pair_state eq_refl)))
      as (T & _ & Hsel & Hk); [discriminate|].
    now exists T.
  - destruct (Topk_derived ex_pair_props (setState ex_pair_state (SetK 6)))
      as [d |] eqn:Hd; [|reflexivity]. exfalso.
    destruct (proj1 (Topk_derived_succeeds_iff ex_pair_props
                       (setState ex_pair_state (SetK 6))
                       (Hfill (setState ex_pair_state (SetK 6)) eq_refl)))
      as (T & _ & (values & L & N & s & e & Hv & Hsh & _) & Hk); [congruence|].
    injection Hv as <-. injection Hsh as <- _ _. simpl in Hk. lia.
Defined.

(** ** Every range the neuron select offers can be sliced *)

Lemma Chunked_within (size lo hi : Z) (bs : list (Z * Z)) (a b : Z) :
  1 <= size -> Chunked size lo hi bs -> In (a, b) bs ->
  lo <= a /\ a <= b /\ b <= hi /\ b - a + 1 <= size.
Proof.
  intros Hsize Hch Hin.
  pose proof (Chunked_sizes size Hsize lo hi bs Hch) as Hall.
  rewrite Forall_forall in Hall. destruct (Hall (a, b) Hin) as [Hab Hsz].
  simpl in Hab, Hsz.
  pose proof (Chunked_cover size Hsize lo hi bs Hch) as Hcover.
  assert (Hmem : forall x, In x (rangeOf (a, b)) -> lo <= x <= hi).
  { intros x Hx. apply in_interval. rewrite <- Hcover.
    apply in_concat. exists (rangeOf (a, b)). split; [|exact Hx].
    apply in_map_iff. now exists (a, b). }
  assert (Ha : lo <= a <= hi) by (apply Hmem, in_interval; simpl; lia).
  assert (Hb : lo <= b <= hi) by (apply Hmem, in_interval; simpl; lia).
  lia.
Qed.

(** X14.  Every range offered by the neuron select of [Topk]
    ([smallestNumber = 0], [largestNumber = numberOfNeurons - 1],
    [numValsInRange = colsToShow >= 1]) lies within the neurons, holds at
    most [colsToShow] of them, and is sliced by [getSelectedActivations]
    without error for every existing layer, into one row per neuron of the
    range. *)
Theorem offered_ranges_can_be_sliced (A : Tf.Tensor3D) (T L N l : nat)
  (colsToShow : nat) (fuel : nat) (bs : list (Z * Z)) (a b : Z) :
  Tf.shape3 A = (T, L, N) -> (l < L)%nat -> (1 <= colsToShow)%nat ->
  RangeSelector_bounds fuel 0 (Z.of_nat N - 1) (Z.of_nat colsToShow) = Some bs ->
  In (a, b) bs ->
  0 <= a <= b /\ b < Z.of_nat N /\ b - a + 1 <= Z.of_nat colsToShow /\
  exists R,
    getSelectedActivations A l (Z.to_nat a) (Z.to_nat b) = Some R /\
    Tf.shape2 R = (Z.to_nat (b - a + 1), T).
Proof.
  intros Hs Hl Hc Hrun Hin.
  assert (Hstep : 1 <= Z.of_nat colsToShow) by lia.
  destruct (RangeSelector_loop_Chunked (Z.of_nat N - 1) (Z.of_nat colsToShow)
              (fuel + Z.to_nat (Z.of_nat N - 1 - 0 + 1)) 0 Hstep)
    as (bs' & Hrun' & Hch); [lia|].
  unfold RangeSelector_bounds in Hrun.
  apply (RangeSelector_loop_fuel _ _ fuel (fuel + Z.to_nat (Z.of_nat N - 1 - 0 + 1)))
    in Hrun; [|lia].
  assert (bs' = bs) as -> by congruence.
  destruct (Chunked_within _ _ _ _ a b Hstep Hch Hin) as (Ha & Hab & Hb & Hsz).
  split; [lia|]. split; [lia|]. split; [lia|].
  destruct (getSelectedActivations_entries A T L N l (Z.to_nat a) (Z.to_nat b) Hs Hl)
    as (R & HR & Hshape & _); [lia | lia |].
  exists R. split; [exact HR|]. rewrite Hshape. f_equal. lia.
Qed.

Lemma offered_ranges_can_be_sliced_witness :
  exists R,
    getSelectedActivations ex_tensor 1 2 2 = Some R /\ Tf.shape2 R = (1, 2)%nat.
Proof.
  destruct (offered_ranges_can_be_sliced ex_tensor 2 2 3 1 2 5 [(0, 1); (2, 2)] 2 2)
    as (_ & _ & _ & R & HR & Hshape);
    [reflexivity | lia | lia | reflexivity | simpl; auto |].
  exists R. split; [exact HR | exact Hshape].
Defined.

(** ** The table *)

Section MapiFacts.

Context {A B : Type}.

Lemma length_mapi_from (f : A -> nat -> B) (i : nat) (l : list A) :
  length (mapi_from f i l) = length l.
Proof.
  revert i. induction l as [| a l IH]; intros i; simpl; [reflexivity|].
  now rewrite IH.
Qed.

Lemma nth_error_mapi_from (f : A -> nat -> B) (i j : nat) (l : list A) :
  nth_error (mapi_from f i l) j = option_map (fun a => f a (i + j)%nat) (nth_error l j).
Proof.
  revert i j. induction l as [| a l IH]; intros i j; simpl.
  - now destruct j.
  - destruct j as [| j]; simpl.
    + now rewrite Nat.add_0_r.
    + rewrite IH. now replace (S i + j)%nat with (i + S j)%nat by lia.
Qed.

Lemma mapi_from_ext_in (f g : A -> nat -> B) (i : nat) (l : list A) :
  (forall j a, nth_error l j = Some a -> f a (i + j)%nat = g a (i + j)%nat) ->
  mapi_from f i l = mapi_from g i l.
Proof.
  revert i. induction l as [| a l IH]; intros i Hext; simpl; [reflexivity|].
  f_equal.
  - specialize (Hext 0%nat a eq_refl). now rewrite Nat.add_0_r in Hext.
  - apply IH. intros j b Hj.
    specialize (Hext (S j) b Hj).
    now replace (i + S j)%nat with (S i + j)%nat in Hext by lia.
Qed.

Lemma map_mapi_from {C : Type} (h : B -> C) (f : A -> nat -> B) (i : nat) (l : list A) :
  map h (mapi_from f i l) = mapi_from (fun a j => h (f a j)) i l.
Proof.
  revert i. induction l as [| a l IH]; intros i; simpl; [reflexivity|].
  now rewrite IH.
Qed.

End MapiFacts.

Lemma sequence_map_Some {A : Type} (l : list A) : sequence (map Some l) = Some l.
Proof.
  induction l as [| a l IH]; simpl; [reflexivity|]. now rewrite IH.
Qed.

Lemma sequence_None {A : Type} (l : list (option A)) :
  In None l -> sequence l = None.
Proof.
  induction l as [| x l IH]; intros Hin; simpl; [contradiction|].
  destruct Hin as [-> | Hin]; [reflexivity|].
  destruct x; cbn [bind]; [|reflexivity]. now rewrite IH.
Qed.

(** The token a cell of the table reads, [tokens[tokenIdx][neuronIdx]]. *)
Lemma rectangular_cell {A : Type} (rows cols : nat) (m : list (list A)) (r n : nat) :
  rectangular rows cols m -> (r < rows)%nat -> (n < cols)%nat ->
  exists row a, nth_error m r = Some row /\ length row = cols /\
                nth_error row n = Some a /\ cell m r n = Some a.
Proof.
  intros [Hlen Hall] Hr Hn. unfold cell.
  destruct (nth_error m r) as [row |] eqn:Hrow;
    [|apply nth_error_None in Hrow; lia].
  rewrite Forall_forall in Hall.
  assert (Hrl : length row = cols) by (apply Hall; eapply nth_error_In; eauto).
  destruct (nth_error row n) as [a |] eqn:Ha;
    [|apply nth_error_None in Ha; lia].
  exists row, a. cbn [bind]. auto.
Qed.

Lemma cell_Some_lt {A : Type} (rows cols : nat) (m : list (list A)) (r n : nat) (a : A) :
  rectangular rows cols m -> cell m r n = Some a -> (r < rows)%nat /\ (n < cols)%nat.
Proof.
  intros [Hlen Hall]. unfold cell.
  destruct (nth_error m r) as [row |] eqn:Hrow; cbn [bind]; [|discriminate].
  intros Ha. rewrite Forall_forall in Hall.
  assert (Hrl : length row = cols) by (apply Hall; eapply nth_error_In; eauto).
  split.
  - rewrite <- Hlen. apply nth_error_Some. congruence.
  - rewrite <- Hrl. apply nth_error_Some. congruence.
Qed.

(** The data rows of the table over rectangular matrices: they are built
    without a throw, keep the shape, and each cell joins the token and the
    activation found at its place. *)
Lemma tableRows_rectangular (rowTokens : list (list (option string)))
  (width : option Z) (rowActivations : list (list Z)) (rows cols : nat) :
  rectangular rows cols rowActivations -> rectangular rows cols rowTokens ->
  exists table,
    tableRows rowTokens width rowActivations = Some table /\
    rectangular rows cols table /\
    forall r n c, cell table r n = Some c ->
      exists tok a,
        cell rowTokens r n = Some tok /\ cell rowActivations r n = Some a /\
        c = mkTableCell tok a (option_map (fun m => m + 2) width).
Proof.
  intros HA HT.
  set (mk := fun (r : nat) (activation : Z) (n : nat) =>
               mkTableCell
                 (match nth_error (nth r rowTokens []) n with
                  | Some token => token
                  | None => None
                  end)
                 activation (option_map (fun m => m + 2) width)).
  set (total := fun (activations : list Z) (r : nat) => mapi (mk r) activations).
  assert (Hrows : mapi (tableRow rowTokens width) rowActivations
                  = map Some (mapi total rowActivations)).
  { unfold mapi. rewrite map_mapi_from. apply mapi_from_ext_in.
    intros r activations Hr. simpl.
    assert (Hrlt : (r < rows)%nat)
      by (rewrite <- (proj1 HA); apply nth_error_Some; congruence).
    unfold tableRow. destruct activations as [| a activations']; [reflexivity|].
    rewrite (nth_error_nth' rowTokens []) by (rewrite (proj1 HT); exact Hrlt).
    reflexivity. }
  exists (mapi total rowActivations).
  split; [unfold tableRows; rewrite Hrows; apply sequence_map_Some|].
  destruct HA as [HAlen HAall]. rewrite Forall_forall in HAall.
  split; [split|].
  - unfold mapi. now rewrite length_mapi_from.
  - rewrite Forall_forall. intros row Hrow.
    destruct (In_nth_error _ _ Hrow) as [r Hr].
    unfold mapi in Hr. rewrite nth_error_mapi_from in Hr.
    destruct (nth_error rowActivations r) as [activations |] eqn:Hact;
      [|discriminate].
    injection Hr as <-. unfold total, mapi. rewrite length_mapi_from.
    apply HAall. eapply nth_error_In; eauto.
  - intros r n c. unfold cell, mapi. rewrite nth_error_mapi_from.
    destruct (nth_error rowActivations r) as [activations |] eqn:Hact;
      cbn [option_map bind]; [|discriminate].
    unfold total, mapi. rewrite nth_error_mapi_from.
    destruct (nth_error activations n) as [a |] eqn:Ha; cbn [option_map];
      [|discriminate].
    intros [= <-].
    assert (Hrlt : (r < rows)%nat)
      by (rewrite <- HAlen; apply nth_error_Some; congruence).
    assert (Hnlt : (n < cols)%nat).
    { rewrite <- (HAall activations) by (eapply nth_error_In; eauto).
      apply nth_error_Some. congruence. }
    destruct (rectangular_cell rows cols rowTokens r n HT Hrlt Hnlt)
      as (tokenRow & tok & HtR & _ & Htok & Hcell).
    exists tok, a. unfold cell in Hcell |- *. rewrite HtR in Hcell |- *.
    cbn [bind] in Hcell |- *. split; [exact Hcell|]. split; [reflexivity|].
    unfold mk. simpl. rewrite (nth_error_nth _ _ _ HtR), Htok. reflexivity.
Qed.

(** Value and index found at one place of the top-k and of the bottom-k
    matrices. *)
Lemma topBottomK_cells (A : Tf.Tensor2D) (N T k r n : nat) (tb : TopBottomK) :
  Tf.shape2 A = (N, T) -> wf2 A -> topBottomK A k = Some tb ->
  (r < k)%nat -> (n < N)%nat ->
  exists i j,
    0 <= i < Z.of_nat T /\ 0 <= j < Z.of_nat T /\
    cell (topkIdxs tb) r n = Some i /\
    cell (topkVals tb) r n = Some (Tf.get2 A n (Z.to_nat i)) /\
    cell (bottomkIdxs tb) r n = Some j /\
    cell (bottomkVals tb) r n = Some (Tf.get2 A n (Z.to_nat j)).
Proof.
  intros Hs Hwf Htb Hr Hn.
  pose proof (topBottomK_Some_fits A k tb Htb) as Hfit. rewrite Hs in Hfit.
  simpl in Hfit.
  destruct (topBottomK_displays A N T k Hs Hwf Hfit)
    as (tb' & Htb' & (_ & HeV & _) & (_ & HeI & _) & (_ & HebV & _) & (_ & HebI & _)).
  assert (tb' = tb) as -> by congruence.
  assert (Hlen : length (tensorRow A n) = T) by now apply (length_tensorRow A N T).
  destruct (topRow_facts k (tensorRow A n)) as (_ & _ & _ & _ & Hpair & _); [lia|].
  destruct (bottomRow_facts k (tensorRow A n)) as (_ & _ & _ & _ & _ & Hbpair & _);
    [lia|].
  destruct (Hpair r Hr) as [Hrange Hval].
  destruct (Hbpair r Hr) as [Hbrange Hbval].
  rewrite Hlen in Hrange, Hbrange.
  eexists _, _. split; [exact Hrange|]. split; [exact Hbrange|].
  split; [now apply HeI|].
  split; [rewrite (HeV r n Hr Hn), Hval; f_equal;
          apply get2_tensorRow; rewrite Hs; simpl snd; lia|].
  split; [now apply HebI|].
  rewrite (HebV r n Hr Hn), Hbval. f_equal.
  apply get2_tensorRow. rewrite Hs. simpl snd. lia.
Qed.

Lemma Topk_table_unfold (props : TopkProps) (st : State) (d : Derived)
  (toks : list string) :
  Topk_derived props st = Some d -> currentTokens props st = Some toks ->
  Topk_table props st =
    TopBottomKTable (topkVals (matrices d)) (bottomkVals (matrices d))
      (topkTokens d) (bottomkTokens d) (maxTokenLength toks) (neuronNumbers st).
Proof. intros Hd Ht. unfold Topk_table. now rewrite Hd, Ht. Qed.

Lemma Topk_table_content (props : TopkProps) (st : State) (d : Derived)
  (toks : list string) (acts : Tf.Tensor2D) (N T : nat) :
  Topk_derived props st = Some d ->
  currentTokens props st = Some toks ->
  currentActivations props st = Some acts ->
  Tf.shape2 acts = (N, T) -> (1 <= k st)%nat -> (1 <= N)%nat ->
  exists top bottom,
    Topk_table props st =
      Some (HeaderRow (neuronNumbers st) :: map CellRow top
              ++ EllipsisRow N :: map CellRow bottom) /\
    rectangular (k st) N top /\ rectangular (k st) N bottom /\
    forall r n, (r < k st)%nat -> (n < N)%nat ->
      exists i j,
        cell (topkIdxs (matrices d)) r n = Some i /\
        cell top r n =
          Some (mkTableCell (arrayGet toks i) (Tf.get2 acts n (Z.to_nat i))
                  (option_map (fun m => m + 2) (maxTokenLength toks))) /\
        cell (bottomkIdxs (matrices d)) r n = Some j /\
        cell bottom r n =
          Some (mkTableCell (arrayGet toks j) (Tf.get2 acts n (Z.to_nat j))
                  (option_map (fun m => m + 2) (maxTokenLength toks))).
Proof.
  intros Hd Htoks Hacts Hs Hk HN.
  rewrite (Topk_table_unfold props st d toks Hd Htoks).
  destruct (Topk_derived_Some props st d Hd)
    as (toks' & acts' & Ht' & Ha' & Htb & HtT & HbT).
  assert (toks' = toks) as -> by congruence.
  assert (acts' = acts) as -> by congruence.
  pose proof (currentActivations_wf props st acts Hacts) as Hwf.
  destruct (topBottomK_shapes acts N T (k st) (matrices d) Hs Htb) as [Hrect _].
  destruct (Hrect Hk HN) as (RV & RI & RbV & RbI).
  pose proof (tokensAt_rectangular toks _ _ _ RI) as RT.
  pose proof (tokensAt_rectangular toks _ _ _ RbI) as RbT.
  rewrite <- HtT in RT. rewrite <- HbT in RbT.
  destruct (tableRows_rectangular (topkTokens d) (maxTokenLength toks)
              (topkVals (matrices d)) (k st) N RV RT) as (top & Htop & Rtop & Ctop).
  destruct (tableRows_rectangular (bottomkTokens d) (maxTokenLength toks)
              (bottomkVals (matrices d)) (k st) N RbV RbT)
    as (bottom & Hbottom & Rbottom & Cbottom).
  exists top, bottom. unfold TopBottomKTable. rewrite Htop, Hbottom. cbn [bind].
  destruct (topkVals (matrices d)) as [| first_ others] eqn:HV;
    [destruct RV as [RVlen _]; simpl in RVlen; lia|].
  cbn [nth_error bind].
  assert (Hfirst : length first_ = N).
  { destruct RV as [_ RVall]. now inversion RVall. }
  rewrite Hfirst. split; [reflexivity|].
  split; [exact Rtop|]. split; [exact Rbottom|].
  intros r n Hr Hn.
  destruct (topBottomK_cells acts N T (k st) r n (matrices d) Hs Hwf Htb Hr Hn)
    as (i & j & _ & _ & HcI & HcV & HcbI & HcbV).
  exists i, j. rewrite HV in HcV.
  split; [exact HcI|]. split; [|split; [exact HcbI|]].
  - destruct (rectangular_cell (k st) N top r n Rtop Hr Hn) as (_ & c & _ & _ & _ & Hc).
    destruct (Ctop r n c Hc) as (tok & a & Htok & Ha & ->).
    rewrite HtT, cell_tokensAt, HcI in Htok. simpl in Htok.
    rewrite Hc. congruence.
  - destruct (rectangular_cell (k st) N bottom r n Rbottom Hr Hn)
      as (_ & c & _ & _ & _ & Hc).
    destruct (Cbottom r n c Hc) as (tok & a & Htok & Ha & ->).
    rewrite HbT, cell_tokensAt, HcbI in Htok. simpl in Htok.
    rewrite Hc. congruence.
Qed.

(** X15.  With at least one rank and one neuron the table of [Topk] is
    built without a throw: the header, [k] top rows, a row of one ellipsis
    per neuron and [k] bottom rows, every data row with one cell per
    neuron.  The cell at rank [r] and neuron column [n] shows the token
    read at the index found there together with the selected activation
    of neuron [n] at that very index, for the top and for the bottom
    part. *)
Theorem Topk_table_cells (props : TopkProps) (st : State) (d : Derived)
  (toks : list string) (acts : Tf.Tensor2D) (N T : nat) :
  Topk_derived props st = Some d ->
  currentTokens props st = Some toks ->
  currentActivations props st = Some acts ->
  Tf.shape2 acts = (N, T) -> (1 <= k st)%nat -> (1 <= N)%nat ->
  exists top bottom,
    Topk_table props st =
      Some (HeaderRow (neuronNumbers st) :: map CellRow top
              ++ EllipsisRow N :: map CellRow bottom) /\
    rectangular (k st) N top /\ rectangular (k st) N bottom /\
    forall r n, (r < k st)%nat -> (n < N)%nat ->
      exists i j,
        cell (topkIdxs (matrices d)) r n = Some i /\
        cell top r n =
          Some (mkTableCell (arrayGet toks i) (Tf.get2 acts n (Z.to_nat i))
                  (option_map (fun m => m + 2) (maxTokenLength toks))) /\
        cell (bottomkIdxs (matrices d)) r n = Some j /\
        cell bottom r n =
          Some (mkTableCell (arrayGet toks j) (Tf.get2 acts n (Z.to_nat j))
                  (option_map (fun m => m + 2) (maxTokenLength toks))).
Proof. exact (Topk_table_content props st d toks acts N T). Qed.

Lemma Topk_table_cells_witness :
  exists top bottom,
    Topk_table ex_props ex_state =
      Some (HeaderRow [0; 1; 2]%nat :: map CellRow top
              ++ EllipsisRow 3 :: map CellRow bottom) /\
    rectangular 2 3 top /\ rectangular 2 3 bottom.
Proof.
  destruct (Topk_table_cells ex_props ex_state
              (mkDerived
                 (mkTopBottomK [[7; 5; 9]; [5; 2; 5]] [[1; 3; 1]; [3; 0; 3]]
                               [[1; -2; 3]; [-1; -8; -3]] [[0; 2; 0]; [2; 1; 2]])
                 [[Some "b"; Some "d"; Some "b"]; [Some "d"; Some "a"; Some "d"]]%string
                 [[Some "a"; Some "c"; Some "a"]; [Some "c"; Some "b"; Some "c"]]%string)
              ["a"; "b"; "c"; "d"]%string
              (Tf.mkTensor2D (3, 4)%nat [1; 7; -1; 5; 2; -8; -2; 5; 3; 9; -3; 5])
              3 4)
    as (top & bottom & Htable & Rtop & Rbottom & _);
    [reflexivity | reflexivity | reflexivity | reflexivity | simpl; lia | lia |].
  exists top, bottom. auto.
Defined.

(** X16.  Without a rank or without a neuron the matrices are empty and
    the table throws on [topkActivations[0].length], although the body of
    [Topk] computed its matrices. *)
Theorem Topk_table_throws_when_empty (props : TopkProps) (st : State) (d : Derived)
  (acts : Tf.Tensor2D) (N T : nat) :
  Topk_derived props st = Some d ->
  currentActivations props st = Some acts ->
  Tf.shape2 acts = (N, T) -> (k st = 0 \/ N = 0)%nat ->
  Topk_table props st = None.
Proof.
  intros Hd Hacts Hs Hz.
  destruct (Topk_derived_Some props st d Hd)
    as (toks & acts' & Ht & Ha & Htb & HtT & HbT).
  assert (acts' = acts) as -> by congruence.
  rewrite (Topk_table_unfold props st d toks Hd Ht).
  destruct (topBottomK_shapes acts N T (k st) (matrices d) Hs Htb) as [_ Hempty].
  destruct (Hempty Hz) as (HV & _ & _ & _).
  unfold TopBottomKTable. rewrite HV. reflexivity.
Qed.

Lemma Topk_table_throws_when_empty_witness :
  Topk_derived ex_props (mkState 0 0 3 0 [0; 1; 2]%nat) <> None /\
  Topk_table ex_props (mkState 0 0 3 0 [0; 1; 2]%nat) = None.
Proof.
  split; [discriminate|].
  apply (Topk_table_throws_when_empty ex_props (mkState 0 0 3 0 [0; 1; 2]%nat)
           (mkDerived (mkTopBottomK [] [] [] []) [] [])
           (Tf.mkTensor2D (3, 4)%nat [1; 7; -1; 5; 2; -8; -2; 5; 3; 9; -3; 5]) 3 4);
    [reflexivity | reflexivity | reflexivity | now left].
Defined.

(** ** Header and columns *)

Lemma currentActivations_inv (props : TopkProps) (st : State) (acts : Tf.Tensor2D) :
  currentActivations props st = Some acts ->
  exists values T L N s e,
    nth_error (activations props) (sampleNumber st) = Some values /\
    Tf.inferShape3 values = Some (T, L, N) /\
    length (concat (concat values)) = (T * L * N)%nat /\
    nth_error (neuronNumbers st) 0 = Some s /\
    nth_error (neuronNumbers st) (length (neuronNumbers st) - 1) = Some e /\
    getSelectedActivations
      (Tf.mkTensor3D (T, L, N) (map stored (concat (concat values))))
      (layerNumber st) s e = Some acts.
Proof.
  unfold currentActivations, activationsTensors. rewrite nth_error_map.
  destruct (nth_error (activations props) (sampleNumber st)) as [values |] eqn:Hv;
    cbn [option_map bind]; [|discriminate].
  destruct (Tf.tensor3 values) as [A |] eqn:HA; cbn [bind]; [|discriminate].
  destruct (nth_error (neuronNumbers st) 0) as [s |] eqn:Hs0; cbn [bind];
    [|discriminate].
  destruct (nth_error (neuronNumbers st) (length (neuronNumbers st) - 1))
    as [e |] eqn:He0; cbn [bind]; [|discriminate].
  intros Hacts. apply tensor3_Some in HA. destruct HA as (T & L & N & Hsh & Hlen & ->).
  exists values, T, L, N, s, e. auto 10.
Qed.

Lemma getSelectedActivations_columns (A : Tf.Tensor3D) (T L N l s e : nat)
  (R : Tf.Tensor2D) :
  Tf.shape3 A = (T, L, N) -> (s <= e)%nat ->
  getSelectedActivations A l s e = Some R ->
  Tf.shape2 R = ((e - s + 1)%nat, T).
Proof.
  intros Hs Hse HR.
  assert (Hne : getSelectedActivations A l s e <> None) by congruence.
  apply (getSelectedActivations_accepts A T L N) in Hne; [|exact Hs].
  destruct Hne as [Hl Hrange].
  destruct (getSelectedActivations_entries A T L N l s e Hs Hl Hse)
    as (R' & HR' & Hshape & _); [lia|].
  congruence.
Qed.

(** X17.  The table has one data column per neuron from the first to the
    last entry of [neuronNumbers], whatever the list holds in between,
    while its header has one entry per element of the list.  The two
    agree for a run of consecutive neurons, [neuronNumbers = [s; ...; s +
    c - 1]], which is what every change of [colsToShow] leaves. *)
Theorem columns_from_first_and_last (props : TopkProps) (st : State)
  (acts : Tf.Tensor2D) (s e : nat) :
  currentActivations props st = Some acts ->
  hd_error (neuronNumbers st) = Some s ->
  nth_error (neuronNumbers st) (length (neuronNumbers st) - 1) = Some e ->
  (s <= e)%nat ->
  fst (Tf.shape2 acts) = (e - s + 1)%nat /\
  (forall c, neuronNumbers st = seq s c ->
     fst (Tf.shape2 acts) = length (neuronNumbers st)).
Proof.
  intros Hacts Hs He Hse.
  destruct (currentActivations_inv props st acts Hacts)
    as (values & T & L & N & s' & e' & _ & _ & _ & Hs' & He' & Hrun).
  assert (s' = s) as ->.
  { destruct (neuronNumbers st); simpl in Hs, Hs'; congruence. }
  assert (e' = e) as -> by congruence.
  rewrite (getSelectedActivations_columns
             (Tf.mkTensor3D (T, L, N) (map stored (concat (concat values))))
             T L N _ s e acts eq_refl Hse Hrun).
  split; [reflexivity|].
  intros c Hseq. rewrite Hseq in He |- *. rewrite length_seq in He |- *.
  simpl fst.
  destruct c as [| c]; [simpl in He; discriminate|].
  assert (Hc : (S c - 1 < S c)%nat) by lia.
  rewrite (nth_error_nth' (seq s (S c)) 0%nat) in He by (rewrite length_seq; lia).
  rewrite seq_nth in He by lia. injection He as <-. lia.
Qed.

Lemma columns_from_first_and_last_witness :
  exists acts,
    currentActivations ex_props (mkState 0 0 3 2 [0; 2]%nat) = Some acts /\
    fst (Tf.shape2 acts) = 3%nat /\
    length (neuronNumbers (mkState 0 0 3 2 [0; 2]%nat)) = 2%nat.
Proof.
  eexists. split; [vm_compute; reflexivity|].
  split; [|reflexivity].
  refine (proj1 (columns_from_first_and_last ex_props (mkState 0 0 3 2 [0; 2]%nat)
                   _ 0 2 _ _ _ _)); try reflexivity. lia.
Defined.

(** ** The neuron range over a session *)

(** X18.  The neuron range chosen by the user survives every other
    interaction: over a session in which the sample, the layer and [k] are
    changed at will and the column select is only set to the value it
    already has, [neuronNumbers] and [colsToShow] stay what they were. *)
Theorem neuronNumbers_kept (props : TopkProps) (evs : list Event) (st : State) :
  Forall (keepsColumns st) evs ->
  neuronNumbers (run props st evs) = neuronNumbers st /\
  colsToShow (run props st evs) = colsToShow st.
Proof.
  unfold run. revert st.
  induction evs as [| ev evs IH]; intros st Hall; simpl; [auto|].
  inversion Hall as [| ? ? Hev Hevs]; subst.
  assert (Hstep : neuronNumbers (step props st ev) = neuronNumbers st /\
                  colsToShow (step props st ev) = colsToShow st).
  { unfold step, useEffect.
    destruct ev as [n | n | c | n | rangeArr]; simpl in Hev |- *;
      try contradiction; try rewrite Nat.eqb_refl; simpl; auto.
    subst c. rewrite Nat.eqb_refl. auto. }
  destruct Hstep as [Hn Hc].
  destruct (IH (step props st ev)) as [IHn IHc].
  - revert Hevs. apply Forall_impl. intros ev'. unfold keepsColumns.
    destruct ev'; auto. now rewrite Hc.
  - split; congruence.
Qed.

Lemma neuronNumbers_kept_witness :
  neuronNumbers (run ex_props ex_state
                   [SetK 4; SetSampleNumber 1; SetColsToShow 3; SetLayerNumber 1])
    = [0; 1; 2]%nat.
Proof.
  refine (proj1 (neuronNumbers_kept ex_props
                   [SetK 4; SetSampleNumber 1; SetColsToShow 3; SetLayerNumber 1]
                   ex_state _)).
  repeat constructor.
Defined.

(** ** The reset range and the options of the neuron select *)

Lemma Chunked_first (size hi : Z) (bs : list (Z * Z)) :
  1 <= size -> 0 <= hi -> Chunked size 0 hi bs ->
  exists rest, bs = (0, Z.min (size - 1) hi) :: rest /\
               forall a b, In (a, b) rest -> size <= a.
Proof.
  intros Hsize Hhi Hch. inversion Hch as [| lo hi' Hle Hsz | lo hi' bs' Hlt Hrest]; subst.
  - lia.
  - exists []. split; [|intros a b []]. rewrite Z.min_r by lia. reflexivity.
  - exists bs'. split.
    + rewrite Z.min_l by lia. reflexivity.
    + intros a b Hin.
      destruct (Chunked_within size (0 + size) hi bs' a b Hsize Hrest Hin). lia.
Qed.

(** X19.  After a change of [colsToShow] to a value [c] the neuron
    select offers (with [1 <= c <= numberOfNeurons]), the reset range is
    the first option of that select when there is more than one sample.
    With a single sample, two or more columns and two or more neurons the
    reset range [[0]] is none of the options on offer. *)
Theorem reset_range_and_offered_ranges (props : TopkProps) (st : State)
  (c N fuel : nat) (bs : list (Z * Z)) :
  c <> colsToShow st -> (1 <= c <= N)%nat ->
  RangeSelector_bounds fuel 0 (Z.of_nat N - 1) (Z.of_nat c) = Some bs ->
  let st' := step props st (SetColsToShow c) in
  ((1 < numberOfSamples props)%nat ->
     exists s e,
       hd_error (neuronNumbers st') = Some s /\
       nth_error (neuronNumbers st') (length (neuronNumbers st') - 1) = Some e /\
       hd_error bs = Some (Z.of_nat s, Z.of_nat e)) /\
  ((numberOfSamples props <= 1)%nat -> (2 <= c)%nat ->
     neuronNumbers st' = [0%nat] /\ ~ In (0, 0) bs).
Proof.
  intros Hc HcN Hrun. cbv zeta.
  rewrite (step_SetColsToShow props st c Hc). cbn [neuronNumbers].
  assert (Hstep : 1 <= Z.of_nat c) by lia.
  destruct (RangeSelector_loop_Chunked (Z.of_nat N - 1) (Z.of_nat c)
              (fuel + Z.to_nat (Z.of_nat N - 1 - 0 + 1)) 0 Hstep)
    as (bs' & Hrun' & Hch); [lia|].
  unfold RangeSelector_bounds in Hrun.
  apply (RangeSelector_loop_fuel _ _ fuel (fuel + Z.to_nat (Z.of_nat N - 1 - 0 + 1)))
    in Hrun; [|lia].
  assert (bs' = bs) as -> by congruence.
  destruct (Chunked_first (Z.of_nat c) (Z.of_nat N - 1) bs Hstep) as (rest & -> & Hrest);
    [lia | exact Hch |].
  unfold firstNeurons. split.
  - intros Hn. destruct (Nat.ltb_spec 1 (numberOfSamples props)) as [_ | ?]; [|lia].
    exists 0%nat, (c - 1)%nat. rewrite length_seq.
    split; [destruct c; [lia | reflexivity]|]. split.
    + rewrite (nth_error_nth' _ 0%nat) by (rewrite length_seq; lia).
      rewrite seq_nth by lia. f_equal; lia.
    + cbn [hd_error]. rewrite Z.min_l by lia.
      replace (Z.of_nat c - 1) with (Z.of_nat (c - 1)) by lia. reflexivity.
  - intros Hn Hc2. destruct (Nat.ltb_spec 1 (numberOfSamples props)) as [? | _]; [lia|].
    split; [reflexivity|].
    intros [Hin | Hin].
    + injection Hin as Hin. lia.
    + specialize (Hrest 0 0 Hin). lia.
Qed.

Lemma reset_range_and_offered_ranges_witness :
  hd_error (neuronNumbers (step ex_props ex_state (SetColsToShow 2)))
    = Some 0%nat /\
  RangeSelector_bounds 3 0 2 2 = Some [(0, 1); (2, 2)] /\
  ~ In (0, 0) [(0, 1); (2, 2)].
Proof.
  destruct (reset_range_and_offered_ranges ex_props ex_state 2 3 3 [(0, 1); (2, 2)])
    as [Hmany _]; [discriminate | lia | reflexivity |].
  destruct (reset_range_and_offered_ranges ex_single_props ex_state 2 3 3
              [(0, 1); (2, 2)])
    as [_ Hone]; [discriminate | lia | reflexivity |].
  destruct Hmany as (s & e & Hs & _ & Hfirst); [cbv; lia|].
  destruct Hone as [_ Hnot]; [cbv; lia | lia |].
  simpl in Hfirst. injection Hfirst as Hs0 _.
  assert (s = 0%nat) as -> by lia.
  split; [exact Hs|]. split; [reflexivity | exact Hnot].
Defined.

(** ** Token widths *)

Lemma fold_left_max_bounds (l : list Z) (m0 : Z) :
  m0 <= fold_left Z.max l m0 /\
  (forall x, In x l -> x <= fold_left Z.max l m0) /\
  (fold_left Z.max l m0 = m0 \/ In (fold_left Z.max l m0) l).
Proof.
  revert m0. induction l as [| x l IH]; intros m0; simpl.
  - split; [lia|]. split; [intros x []|]. now left.
  - destruct (IH (Z.max m0 x)) as (Hge & Hall & Hatt).
    split; [lia|]. split.
    + intros y [<- | Hy]; [lia | now apply Hall].
    + destruct Hatt as [Heq | Hin]; [|right; now right].
      destruct (Z.max_spec m0 x) as [[_ Hm] | [_ Hm]].
      * right. left. congruence.
      * left. congruence.
Qed.

(** X20.  [maxTokenLength] is [-Infinity] exactly for the empty token
    list; otherwise it is the length of one of the tokens and no token is
    longer, so the width set for the cells, [maxTokenLength + 2]
    characters, exceeds the length of every token a cell can show by
    two or more. *)
Theorem maxTokenLength_bounds (toks : list string) :
  (maxTokenLength toks = None <-> toks = []) /\
  forall m, maxTokenLength toks = Some m ->
    (exists token, In token toks /\ m = Z.of_nat (String.length token)) /\
    (forall token, In token toks -> Z.of_nat (String.length token) <= m) /\
    (forall i token, arrayGet toks i = Some token ->
       Z.of_nat (String.length token) + 2 <= m + 2).
Proof.
  destruct toks as [| tok toks']; simpl.
  - split; [tauto | discriminate].
  - split; [split; discriminate|].
    intros m [= <-].
    destruct (fold_left_max_bounds
                (map (fun token => Z.of_nat (String.length token)) toks')
                (Z.of_nat (String.length tok))) as (Hge & Hall & Hatt).
    assert (Hle : forall token, tok = token \/ In token toks' ->
              Z.of_nat (String.length token) <=
              fold_left Z.max (map (fun token => Z.of_nat (String.length token)) toks')
                (Z.of_nat (String.length tok))).
    { intros token [<- | Hin]; [exact Hge|].
      apply Hall, in_map_iff. now exists token. }
    split; [|split; [exact Hle|]].
    + destruct Hatt as [Heq | Hin].
      * exists tok. split; [now left | exact Heq].
      * apply in_map_iff in Hin. destruct Hin as (token & Heq & Hin).
        exists token. split; [now right | now symmetry].
    + intros i token Hget. unfold arrayGet in Hget.
      destruct (i <? 0); [discriminate|].
      apply nth_error_In in Hget. specialize (Hle token Hget). lia.
Qed.

Lemma maxTokenLength_bounds_witness :
  maxTokenLength ["ab"; "abcd"; "a"]%string = Some 4 /\
  Z.of_nat (String.length "ab") + 2 <= 4 + 2.
Proof.
  split; [reflexivity|].
  destruct (maxTokenLength_bounds ["ab"; "abcd"; "a"]%string) as [_ Hm].
  destruct (Hm 4 eq_refl) as (_ & _ & Hget).
  apply (Hget 0 "ab"%string). reflexivity.
Defined.

(** ** From the nested arrays of the props to the selected matrix *)

Lemma nth_concat_uniform {A : Type} (l : list (list A)) (m i j : nat) (d : A) :
  Forall (fun x => length x = m) l -> (i < length l)%nat -> (j < m)%nat ->
  nth (i * m + j) (concat l) d = nth j (nth i l []) d.
Proof.
  intros Hall Hi Hj. rewrite Forall_forall in Hall.
  rewrite <- (nth_chunk m i j (concat l) d Hj).
  rewrite <- (map_id l) at 1. rewrite <- flat_map_concat_map.
  now rewrite (chunk_flat_map_uniform (fun x => x) m l [] Hall i Hi).
Qed.

Lemma rectangular3_rows (T L N : nat) (values : list (list (list Z))) :
  rectangular3 T L N values ->
  length (concat values) = (T * L)%nat /\
  Forall (fun row => length row = N) (concat values) /\
  forall t l, (t < T)%nat -> (l < L)%nat ->
    nth (t * L + l) (concat values) [] = nth l (nth t values []) [].
Proof.
  intros [[Hlen Hall] Hrect].
  split; [|split].
  - rewrite <- (map_id values), <- flat_map_concat_map.
    rewrite (length_flat_map_uniform (fun x => x) L values), Hlen; [reflexivity|].
    now apply Forall_forall.
  - rewrite Forall_forall. intros row Hrow.
    apply in_concat in Hrow. destruct Hrow as (m & Hm & Hrow).
    rewrite Forall_forall in Hrect. destruct (Hrect m Hm) as [_ Hrows].
    rewrite Forall_forall in Hrows. now apply Hrows.
  - intros t l Ht Hl. apply nth_concat_uniform; [exact Hall | lia | exact Hl].
Qed.

Lemma tensor3_rectangular3 (T L N : nat) (values : list (list (list Z))) :
  rectangular3 T L N values -> (1 <= T)%nat -> (1 <= L)%nat ->
  exists A,
    Tf.tensor3 values = Some A /\ Tf.shape3 A = (T, L, N) /\
    forall t l n, (t < T)%nat -> (l < L)%nat -> (n < N)%nat ->
      Tf.get3 A t l n = stored (nth n (nth l (nth t values []) []) 0).
Proof.
  intros Hrect HT HL.
  destruct (rectangular3_rows T L N values Hrect) as (Hlen & Hall & Hnth).
  destruct Hrect as [[HlenT HallL] Hrect].
  assert (Hsh : Tf.inferShape3 values = Some (T, L, N)).
  { unfold Tf.inferShape3.
    destruct values as [| v0 values']; [simpl in HlenT; lia|].
    inversion HallL as [| ? ? Hv0 _]; subst.
    inversion Hrect as [| ? ? [_ Hrows] _]; subst.
    destruct v0 as [| v00 v0']; [simpl in HL; lia|].
    inversion Hrows as [| ? ? Hv00 _]; subst. reflexivity. }
  assert (Hsize : length (concat (concat values)) = (T * L * N)%nat).
  { rewrite <- (map_id (concat values)), <- flat_map_concat_map.
    rewrite (length_flat_map_uniform (fun x => x) N (concat values)), Hlen;
      [reflexivity|].
    now apply Forall_forall. }
  exists (Tf.mkTensor3D (T, L, N) (map stored (concat (concat values)))).
  split; [apply tensor3_Some; now exists T, L, N|].
  split; [reflexivity|].
  intros t l n Ht Hl Hn. unfold Tf.get3. cbn [Tf.shape3 Tf.data3].
  replace (t * (L * N) + l * N + n)%nat with ((t * L + l) * N + n)%nat by lia.
  rewrite <- (Hnth t l Ht Hl).
  rewrite <- (nth_concat_uniform (concat values) N (t * L + l) n 0 Hall) by (nia || lia).
  exact (map_nth stored (concat (concat values)) 0 ((t * L + l) * N + n)).
Qed.

(** X21.  For a sample whose activations are a rectangular nested array
    [tokens x layers x neurons], a valid layer and neuron bounds
    [s <= e < neurons], the matrix the body of [Topk] selects has one row
    per neuron of [s .. e] and one column per token, and holds at row [n]
    and token [t] what a tensor stores for the number
    [activations[sample][t][layer][s + n]] of the props, the single
    nearest to it: that number itself when it is an integer of magnitude
    up to [2 ^ 24]. *)
Theorem currentActivations_from_props (props : TopkProps) (st : State)
  (values : list (list (list Z))) (T L N s e : nat) :
  nth_error (activations props) (sampleNumber st) = Some values ->
  rectangular3 T L N values -> (1 <= T)%nat ->
  (layerNumber st < L)%nat ->
  hd_error (neuronNumbers st) = Some s ->
  nth_error (neuronNumbers st) (length (neuronNumbers st) - 1) = Some e ->
  (s <= e)%nat -> (e < N)%nat ->
  exists acts,
    currentActivations props st = Some acts /\
    Tf.shape2 acts = ((e - s + 1)%nat, T) /\
    forall n t, (n < e - s + 1)%nat -> (t < T)%nat ->
      let v := nth (s + n) (nth (layerNumber st) (nth t values []) []) 0 in
      Tf.get2 acts n t = stored v /\
      (- maxSafe32 <= v <= maxSafe32 -> Tf.get2 acts n t = v).
Proof.
  intros Hv Hrect HT Hl Hs He Hse HeN.
  destruct (tensor3_rectangular3 T L N values Hrect HT) as (A & HA & Hshape & Hget3);
    [lia|].
  destruct (getSelectedActivations_entries A T L N (layerNumber st) s e Hshape Hl Hse HeN)
    as (acts & Hacts & Hshape2 & _ & Hget2).
  exists acts. split; [|split; [exact Hshape2|]].
  - unfold currentActivations, activationsTensors.
    rewrite nth_error_map, Hv. cbn [option_map bind]. rewrite HA. cbn [bind].
    assert (Hs0 : nth_error (neuronNumbers st) 0 = Some s)
      by (destruct (neuronNumbers st); simpl in Hs |- *; congruence).
    rewrite Hs0, He. cbn [bind]. exact Hacts.
  - intros n t Hn Ht. cbv zeta.
    assert (Hval : Tf.get2 acts n t =
                   stored (nth (s + n) (nth (layerNumber st) (nth t values []) []) 0))
      by (rewrite (Hget2 n t Hn Ht); apply Hget3; lia).
    split; [exact Hval|].
    intros Hsmall. rewrite Hval. now apply stored_exact.
Qed.

Lemma currentActivations_from_props_witness :
  mount 3 ex_large_props = Some (initialState ex_large_props) /\
  exists acts,
    currentActivations ex_large_props (initialState ex_large_props) = Some acts /\
    Tf.get2 acts 0 0 = 16777216 /\
    Tf.get2 acts 0 1 = -3.
Proof.
  split; [vm_compute; reflexivity|].
  destruct (currentActivations_from_props ex_large_props (initialState ex_large_props)
              [ [[16777217; 2]]; [[-3; 4]]; [[5; 6]]; [[7; 8]]; [[9; 10]] ] 5 1 2 0 0)
    as (acts & Hacts & _ & Hget);
    [reflexivity | | lia | simpl; lia | reflexivity | reflexivity | lia | lia |].
  - unfold rectangular3, rectangular. simpl. repeat constructor.
  - exists acts. split; [exact Hacts|].
    destruct (Hget 0%nat 0%nat) as [Hround _]; [lia | lia |].
    destruct (Hget 0%nat 1%nat) as [_ Hexact]; [lia | lia |].
    split; [exact Hround|].
    apply Hexact. unfold maxSafe32. simpl. lia.
Defined.

(** ** The labels of the range select *)

Lemma append_empty_r (text : string) : (text ++ "")%string = text.
Proof. induction text as [| c text IH]; simpl; [reflexivity | now rewrite IH]. Qed.

Lemma digitsPrefix_uint (d : Decimal.uint) (rest : string) :
  digitsPrefix (NilEmpty.string_of_uint d ++ rest)
  = (NilEmpty.string_of_uint d ++ digitsPrefix rest)%string.
Proof. induction d; simpl; try rewrite IHd; reflexivity. Qed.

Lemma leadingNumber_numberToString (value : Z) (rest : string) :
  digitsPrefix rest = EmptyString ->
  leadingNumber (numberToString value ++ rest) = numberToString value.
Proof.
  intros Hrest. unfold numberToString.
  destruct (Z.to_int value) as [d | d]; simpl.
  - destruct d; simpl; try rewrite digitsPrefix_uint; rewrite Hrest;
      try rewrite append_empty_r; reflexivity.
  - f_equal.
    destruct d; simpl; try rewrite digitsPrefix_uint; rewrite Hrest;
      try rewrite append_empty_r; reflexivity.
Qed.

Lemma leadingNumber_rangeLabel (r : Z * Z) :
  leadingNumber (rangeLabel r) = numberToString (fst r).
Proof.
  destruct r as [start end_]. unfold rangeLabel. simpl fst.
  destruct (start =? end_).
  - rewrite <- (append_empty_r (numberToString start)) at 1.
    now apply leadingNumber_numberToString.
  - now apply leadingNumber_numberToString.
Qed.

Lemma numberToString_inj (a b : Z) : numberToString a = numberToString b -> a = b.
Proof.
  intros H. pose proof (Number_numberToString a) as Ha.
  rewrite H, Number_numberToString in Ha. congruence.
Qed.

Lemma Chunked_same_start (size lo hi : Z) (bs : list (Z * Z)) (a b b' : Z) :
  1 <= size -> Chunked size lo hi bs ->
  In (a, b) bs -> In (a, b') bs -> b = b'.
Proof.
  intros Hsize Hch.
  induction Hch as [lo hi Hlt | lo hi Hle Hsz | lo hi bs Hlt Hch IH];
    intros Hin Hin'.
  - contradiction.
  - destruct Hin as [Hin | []]. destruct Hin' as [Hin' | []]. congruence.
  - destruct Hin as [Hin | Hin]; destruct Hin' as [Hin' | Hin'].
    + congruence.
    + injection Hin as <- <-.
      destruct (Chunked_within size (lo + size) hi bs lo b' Hsize Hch Hin'). lia.
    + injection Hin' as <- <-.
      destruct (Chunked_within size (lo + size) hi bs lo b Hsize Hch Hin). lia.
    + now apply IH.
Qed.

Lemma Chunked_NoDup (size lo hi : Z) (bs : list (Z * Z)) :
  1 <= size -> Chunked size lo hi bs -> NoDup bs.
Proof.
  intros Hsize Hch.
  induction Hch as [lo hi Hlt | lo hi Hle Hsz | lo hi bs Hlt Hch IH].
  - constructor.
  - repeat constructor. intros [].
  - constructor; [|exact IH].
    intros Hin.
    destruct (Chunked_within size (lo + size) hi bs _ _ Hsize Hch Hin). lia.
Qed.

(** X22.  For [smallestNumber <= largestNumber] and
    [numValsInRange >= 1] within the integers every double holds, the
    labels [RangeSelector] gives its options (which also serve as their
    keys) are pairwise distinct: a label starts with the first number of
    its range and no two ranges start at the same number. *)
Theorem RangeSelector_labels_distinct
  (smallestNumber largestNumber numValsInRange : Z) (fuel : nat) :
  smallestNumber <= largestNumber -> 1 <= numValsInRange ->
  - maxSafe <= smallestNumber -> largestNumber + numValsInRange <= maxSafe ->
  (Z.to_nat (largestNumber - smallestNumber + 1) <= fuel)%nat ->
  exists ranges,
    RangeSelector_ranges_double fuel smallestNumber largestNumber numValsInRange
      = Some ranges /\
    NoDup ranges.
Proof.
  intros Hle Hstep Hlo Hhi Hfuel.
  destruct (RangeSelector_bounds_double_Chunked fuel smallestNumber largestNumber
              numValsInRange Hstep Hlo Hhi Hfuel) as (bs & Hrun & Hch).
  exists (map rangeLabel bs). split.
  - unfold RangeSelector_ranges_double. now rewrite Hrun.
  - apply NoDup_map_NoDup_ForallPairs.
    + intros [a b] [a' b'] Hin Hin' Hlabel.
      assert (Ha : a = a').
      { apply numberToString_inj.
        change a with (fst (a, b)). change a' with (fst (a', b')).
        now rewrite <- !leadingNumber_rangeLabel, Hlabel. }
      subst a'. f_equal.
      now apply (Chunked_same_start numValsInRange smallestNumber largestNumber bs a).
    + now apply (Chunked_NoDup numValsInRange smallestNumber largestNumber).
Qed.

Lemma RangeSelector_labels_distinct_witness :
  exists ranges, RangeSelector_ranges_double 5 (-3) 1 2 = Some ranges /\ NoDup ranges.
Proof.
  destruct (RangeSelector_labels_distinct (-3) 1 2 5) as (ranges & Hr & Hnd);
    [lia | lia | unfold maxSafe; lia | unfold maxSafe; lia | simpl; lia |].
  exists ranges. split; [exact Hr | exact Hnd].
Defined.

(** ** When a render succeeds *)

Lemma firstShape_Some (props : TopkProps) (T L N : nat) :
  firstShape props = Some (T, L, N) ->
  (1 <= numberOfSamples props)%nat /\ (1 <= T)%nat /\ (1 <= L)%nat.
Proof.
  unfold firstShape, numberOfSamples.
  destruct (activations props) as [| v0 rest]; cbn [nth_error bind]; [discriminate|].
  destruct v0 as [| m0 ms]; [discriminate|].
  destruct m0 as [| r0 rs]; [discriminate|].
  simpl. intros [= <- <- <-]. lia.
Qed.

(** With fewer than [2 ^ 32] samples, layers, neurons and columns and at
    least one column, the five selectors are built, so that a render
    succeeds as soon as the table does. *)
Lemma selectors_succeed (fuel : nat) (props : TopkProps) (st : State) (T L N : nat)
  (tbl : list TableRow) :
  firstShape props = Some (T, L, N) ->
  Z.of_nat (numberOfSamples props) < maxArrayLength ->
  Z.of_nat L < maxArrayLength -> Z.of_nat N < maxArrayLength ->
  (1 <= colsToShow st)%nat -> Z.of_nat (colsToShow st) < maxArrayLength ->
  (N <= fuel)%nat ->
  Topk_table props st = Some tbl ->
  exists bs,
    RangeSelector_bounds_double fuel 0 (jsSub (Z.of_nat N) 1)
      (Z.of_nat (colsToShow st)) = Some bs /\
    Chunked (Z.of_nat (colsToShow st)) 0 (Z.of_nat N - 1) bs /\
    Topk_render fuel props st =
      Some (mkView (interval 0 (Z.of_nat (numberOfSamples props) - 1))
              (interval 0 (Z.of_nat L - 1))
              (map rangeLabel bs)
              (interval 1 (Z.of_nat N))
              (interval 1 20) tbl).
Proof.
  intros Hsh HS HL HN Hc1 Hc2 Hfuel Htbl.
  destruct (firstShape_Some props T L N Hsh) as (HS1 & _ & HL1).
  assert (Hmax : maxArrayLength = 4294967296) by reflexivity.
  assert (Hsafe : maxSafe = 9007199254740992) by reflexivity.
  assert (HjS : jsSub (Z.of_nat (numberOfSamples props)) 1
                = Z.of_nat (numberOfSamples props) - 1) by (apply jsSub_exact; lia).
  assert (HjL : jsSub (Z.of_nat L) 1 = Z.of_nat L - 1) by (apply jsSub_exact; lia).
  assert (HjN : jsSub (Z.of_nat N) 1 = Z.of_nat N - 1) by (apply jsSub_exact; lia).
  destruct (RangeSelector_bounds_double_Chunked fuel 0 (Z.of_nat N - 1)
              (Z.of_nat (colsToShow st))) as (bs & Hrun & Hch); [lia | lia | lia | lia |].
  exists bs. rewrite HjN. split; [exact Hrun|]. split; [exact Hch|].
  apply (Topk_render_intro fuel props st T L N); try assumption.
  - rewrite HjS. apply NumberSelector_options_interval; lia.
  - rewrite HjL. apply NumberSelector_options_interval; lia.
  - rewrite HjN. unfold RangeSelector_ranges_double. now rewrite Hrun.
  - apply NumberSelector_options_interval; lia.
Qed.

Lemma Topk_table_Some_derived (props : TopkProps) (st : State) (tbl : list TableRow) :
  Topk_table props st = Some tbl -> Topk_derived props st <> None.
Proof.
  unfold Topk_table. destruct (Topk_derived props st); cbn [bind]; discriminate.
Qed.

(** With a first neuron not above the last and at least one rank, the
    table is built from the matrices. *)
Lemma Topk_table_of_derived (props : TopkProps) (st : State) (d : Derived) (s e : nat) :
  Topk_derived props st = Some d ->
  nth_error (neuronNumbers st) 0 = Some s ->
  nth_error (neuronNumbers st) (length (neuronNumbers st) - 1) = Some e ->
  (s <= e)%nat -> (1 <= k st)%nat ->
  exists tbl, Topk_table props st = Some tbl.
Proof.
  intros Hd Hs He Hse Hk.
  destruct (Topk_derived_Some props st d Hd) as (toks & acts & Htoks & Hacts & _).
  destruct (currentActivations_inv props st acts Hacts)
    as (values & T & L & N & s' & e' & _ & _ & _ & Hs' & He' & Hrun).
  assert (s' = s) as -> by congruence.
  assert (e' = e) as -> by congruence.
  pose proof (getSelectedActivations_columns
                (Tf.mkTensor3D (T, L, N) (map stored (concat (concat values))))
                T L N _ s e acts eq_refl Hse Hrun) as Hshape.
  destruct (Topk_table_content props st d toks acts (e - s + 1) T Hd Htoks Hacts Hshape)
    as (top & bottom & Htable & _); [lia | lia |].
  eexists. exact Htable.
Qed.

(** ** The first render *)

Lemma initialState_selectable (props : TopkProps) (v0 : list (list (list Z)))
  (rest : list (list (list (list Z)))) (T L N : nat) :
  activations props = v0 :: rest -> Tf.inferShape3 v0 = Some (T, L, N) ->
  forall T', selectable props (initialState props) T' <->
    T' = T /\ (1 <= L)%nat /\
    match rest with [] => (1 <= N)%nat | _ :: _ => (5 <= N)%nat end.
Proof.
  intros Hacts Hsh T'. unfold selectable, initialState, numberOfSamples, firstNeurons.
  rewrite Hacts. cbn [sampleNumber layerNumber neuronNumbers nth_error length].
  split.
  - intros (values & L' & N' & s & e & [= <-] & Hsh' & Hs & He & Hl & Hrange).
    rewrite Hsh in Hsh'. injection Hsh' as <- <- <-.
    split; [reflexivity|].
    destruct rest as [| v1 rest]; simpl in Hs, He;
      injection Hs as <-; injection He as <-; lia.
  - intros (-> & HL & HN).
    destruct rest as [| v1 rest]; simpl.
    + exists v0, L, N, 0%nat, 0%nat. repeat split; try assumption; lia.
    + exists v0, L, N, 0%nat, 4%nat. repeat split; try assumption; lia.
Qed.

(** X13.  The first render uses [k = 5] and, with more than one sample,
    the neurons [0 .. 4].  For props whose first sample is of rank 3 (so
    with a token and a layer) and fills its shape, and whose arrays are
    JavaScript arrays (fewer than [2 ^ 32] entries), the first render,
    selectors and table included, succeeds exactly when the first sample
    has a token list, at least 5 tokens and, with more than one sample,
    at least 5 neurons (with a single sample: at least one neuron); on
    any smaller input the first render throws.  The component mounts
    exactly when the first render succeeds. *)
Theorem initial_render_succeeds_iff (fuel : nat) (props : TopkProps)
  (v0 : list (list (list Z))) (rest : list (list (list (list Z)))) (T L N : nat) :
  activations props = v0 :: rest -> Tf.inferShape3 v0 = Some (T, L, N) ->
  fills v0 ->
  Z.of_nat (numberOfSamples props) < maxArrayLength ->
  Z.of_nat L < maxArrayLength -> Z.of_nat N < maxArrayLength ->
  (N <= fuel)%nat ->
  ((exists view, Topk_render fuel props (initialState props) = Some view) <->
   tokens props <> [] /\
   (5 <= T)%nat /\
   match rest with [] => (1 <= N)%nat | _ :: _ => (5 <= N)%nat end) /\
  (mount fuel props <> None <->
   exists view, Topk_render fuel props (initialState props) = Some view).
Proof.
  intros Hacts Hsh Hfills HS HL HN Hfuel.
  assert (Hfirst : firstShape props = Some (T, L, N))
    by (unfold firstShape; rewrite Hacts; exact Hsh).
  assert (Hfill : forall values,
            nth_error (activations props) (sampleNumber (initialState props))
            = Some values -> fills values).
  { rewrite Hacts. intros values [= <-]. exact Hfills. }
  destruct (firstShape_Some props T L N Hfirst) as (_ & _ & HL1).
  assert (Htok : nth_error (tokens props) (sampleNumber (initialState props)) <> None
                 <-> tokens props <> []).
  { simpl. destruct (tokens props); split; congruence. }
  split; [split|split].
  - intros [view Hview]. apply Topk_render_Some in Hview.
    destruct Hview as (T' & L' & N' & _ & Htbl & _).
    apply Topk_table_Some_derived, (Topk_derived_accepts _ _ Hfill) in Htbl.
    destruct Htbl as (T'' & Ht & Hsel & Hk).
    apply (initialState_selectable props v0 rest T L N Hacts Hsh) in Hsel.
    destruct Hsel as (-> & _ & HNc). simpl in Hk.
    split; [now apply Htok|]. auto.
  - intros (Ht & HT & HNc).
    assert (Hne : Topk_derived props (initialState props) <> None).
    { apply (Topk_derived_accepts _ _ Hfill). exists T.
      split; [now apply Htok|]. split; [|simpl; lia].
      apply (initialState_selectable props v0 rest T L N Hacts Hsh). auto. }
    destruct (Topk_derived props (initialState props)) as [d |] eqn:Hd; [|contradiction].
    assert (Hnn : exists e,
              nth_error (neuronNumbers (initialState props)) 0 = Some 0%nat /\
              nth_error (neuronNumbers (initialState props))
                (length (neuronNumbers (initialState props)) - 1) = Some e).
    { unfold initialState, firstNeurons, numberOfSamples. rewrite Hacts.
      destruct rest; simpl; eexists; split; reflexivity. }
    destruct Hnn as (e & Hs0 & He0).
    destruct (Topk_table_of_derived props (initialState props) d 0 e Hd Hs0 He0)
      as [tbl Htbl]; [lia | simpl; lia |].
    destruct (selectors_succeed fuel props (initialState props) T L N tbl
                Hfirst HS HL HN) as (bs & _ & _ & Hview);
      [simpl; lia | simpl; unfold maxArrayLength; lia | exact Hfuel | exact Htbl |].
    eexists. exact Hview.
  - intros Hm. destruct (mount fuel props) as [st |] eqn:Hmount; [|contradiction].
    apply mount_Some in Hmount. now destruct Hmount.
  - intros [view Hview]. rewrite (mount_intro fuel props view Hview). discriminate.
Qed.

Lemma initial_render_succeeds_iff_witness :
  Topk_render 5 ex_props (initialState ex_props) = None /\
  mount 5 ex_one_sample_props <> None.
Proof.
  assert (Hsmall : forall n, (n <= 5)%nat -> Z.of_nat n < maxArrayLength)
    by (unfold maxArrayLength; lia).
  split.
  - destruct (Topk_render 5 ex_props (initialState ex_props)) as [view |] eqn:Hview;
      [|reflexivity]. exfalso.
    destruct (initial_render_succeeds_iff 5 ex_props _ _ 4 2 3 eq_refl eq_refl)
      as [[Hto _] _];
      [intros T L N [= <- <- <-]; reflexivity | apply Hsmall; vm_compute; lia
      | apply Hsmall; lia | apply Hsmall; lia | lia |].
    destruct Hto as (_ & HT & _); [now exists view | lia].
  - destruct (initial_render_succeeds_iff 5 ex_one_sample_props _ _ 5 1 3
                eq_refl eq_refl)
      as [[_ Hfrom] [_ Hmount]];
      [intros T L N [= <- <- <-]; reflexivity | apply Hsmall; vm_compute; lia
      | apply Hsmall; lia | apply Hsmall; lia | lia |].
    apply Hmount, Hfrom.
    split; [discriminate|]. split; lia.
Defined.

(** ** No selection on offer makes the component throw *)

Lemma roomy_sample (props : TopkProps) (L N i : nat) :
  roomy props L N -> (i < numberOfSamples props)%nat ->
  exists values T,
    nth_error (activations props) i = Some values /\
    Tf.inferShape3 values = Some (T, L, N) /\
    length (concat (concat values)) = (T * L * N)%nat /\
    (20 <= T)%nat /\
    nth_error (tokens props) i <> None.
Proof.
  intros (_ & Htok & Hall & _) Hi. unfold numberOfSamples in Hi.
  destruct (nth_error (activations props) i) as [values |] eqn:Hv;
    [|apply nth_error_None in Hv; lia].
  rewrite Forall_forall in Hall.
  destruct (Hall values (nth_error_In _ _ Hv)) as (T & Hsh & Hlen & HT).
  exists values, T. repeat split; try assumption.
  apply nth_error_Some. lia.
Qed.

Lemma roomy_firstShape (props : TopkProps) (L N : nat) :
  roomy props L N ->
  (1 <= numberOfSamples props)%nat /\
  exists T, firstShape props = Some (T, L, N).
Proof.
  intros Hroomy.
  assert (HS : (1 <= numberOfSamples props)%nat).
  { destruct Hroomy as (Hne & _). unfold numberOfSamples.
    destruct (activations props); [contradiction | simpl; lia]. }
  split; [exact HS|].
  destruct (roomy_sample props L N 0 Hroomy) as (values & T & Hv & Hsh & _); [lia|].
  exists T. unfold firstShape. rewrite Hv. exact Hsh.
Qed.

Lemma selectionValid_initial (props : TopkProps) (L N : nat) :
  roomy props L N -> selectionValid props L N (initialState props).
Proof.
  intros Hroomy.
  destruct (roomy_firstShape props L N Hroomy) as (HS & _).
  destruct Hroomy as (_ & _ & _ & HL & HN & _).
  unfold selectionValid, initialState, firstNeurons.
  cbn [sampleNumber layerNumber colsToShow k neuronNumbers].
  split; [lia|]. split; [lia|]. split; [lia|]. split; [lia|].
  destruct (1 <? numberOfSamples props)%nat.
  - exists 0%nat, 4%nat. simpl. repeat split; lia.
  - exists 0%nat, 0%nat. simpl. repeat split; lia.
Qed.

(** In a valid state the table is built, and so is the whole view. *)
Lemma selectionValid_renders (fuel : nat) (props : TopkProps) (L N : nat) (st : State) :
  roomy props L N -> (N <= fuel)%nat -> selectionValid props L N st ->
  exists bs tbl,
    RangeSelector_bounds_double fuel 0 (jsSub (Z.of_nat N) 1)
      (Z.of_nat (colsToShow st)) = Some bs /\
    Chunked (Z.of_nat (colsToShow st)) 0 (Z.of_nat N - 1) bs /\
    Topk_table props st = Some tbl /\
    Topk_render fuel props st =
      Some (mkView (interval 0 (Z.of_nat (numberOfSamples props) - 1))
              (interval 0 (Z.of_nat L - 1))
              (map rangeLabel bs)
              (interval 1 (Z.of_nat N))
              (interval 1 20) tbl).
Proof.
  intros Hroomy Hfuel (Hsample & Hlayer & Hcols & Hk & s & e & Hs & He & Hse & HeN).
  destruct (roomy_sample props L N (sampleNumber st) Hroomy Hsample)
    as (values & T & Hv & Hsh & Hlen & HT & Htok).
  destruct (roomy_firstShape props L N Hroomy) as (_ & T0 & Hfirst).
  assert (Hsel : selectable props st T).
  { exists values, L, N, s, e. repeat split; try assumption. left. lia. }
  assert (Hfill : forall values',
            nth_error (activations props) (sampleNumber st) = Some values' ->
            fills values').
  { intros values' Hv' T' L' N' Hsh'. congruence. }
  assert (Hne : Topk_derived props st <> None).
  { apply (Topk_derived_accepts _ _ Hfill). exists T.
    repeat split; try assumption. lia. }
  destruct (Topk_derived props st) as [d |] eqn:Hd; [|contradiction].
  destruct (Topk_table_of_derived props st d s e Hd Hs He Hse) as [tbl Htbl]; [lia|].
  destruct Hroomy as (_ & _ & _ & _ & _ & HSmax & HLmax & HNmax).
  destruct (selectors_succeed fuel props st T0 L N tbl Hfirst HSmax HLmax HNmax)
    as (bs & Hrun & Hch & Hview);
    [lia | unfold maxArrayLength in *; lia | exact Hfuel | exact Htbl |].
  exists bs, tbl. auto.
Qed.

(** The state after the setter of an offered call is valid, and the
    column count it holds, when it is a new one, is at most the number of
    neurons. *)
Lemma selectionValid_setState (fuel : nat) (props : TopkProps) (L N : nat)
  (st : State) (ev : Event) :
  roomy props L N -> (N <= fuel)%nat ->
  selectionValid props L N st -> offered fuel props st ev ->
  selectionValid props L N (setState st ev) /\
  (colsToShow (setState st ev) <> colsToShow st ->
   (colsToShow (setState st ev) <= N)%nat).
Proof.
  intros Hroomy Hfuel Hvalid (view & Hview & Hev).
  destruct (selectionValid_renders fuel props L N st Hroomy Hfuel Hvalid)
    as (bs & tbl & Hrun & Hch & _ & Hview').
  rewrite Hview' in Hview. injection Hview as <-.
  destruct Hvalid as (Hsample & Hlayer & Hcols & Hk & s & e & Hs & He & Hse & HeN).
  unfold selectionValid.
  destruct ev as [n | n | c | n | rangeArr]; cbn [setState sampleNumber layerNumber
    colsToShow k neuronNumbers sampleOptions layerOptions colsOptions kOptions] in Hev |- *.
  - apply in_interval in Hev.
    split; [|intros Hc; now contradiction Hc].
    split; [lia|]. repeat (split; [assumption|]). exists s, e. auto.
  - apply in_interval in Hev.
    split; [|intros Hc; now contradiction Hc].
    split; [assumption|]. split; [lia|].
    repeat (split; [assumption|]). exists s, e. auto.
  - apply in_interval in Hev.
    split; [|intros _; lia].
    split; [assumption|]. split; [assumption|]. split; [lia|].
    split; [assumption|]. exists s, e. auto.
  - apply in_interval in Hev.
    split; [|intros Hc; now contradiction Hc].
    split; [assumption|]. split; [assumption|]. split; [assumption|].
    split; [lia|]. exists s, e. auto.
  - destruct Hev as (T' & L' & N' & bs' & a & b & Hfirst & Hrun' & Hin & Ha & Hb).
    destruct (roomy_firstShape props L N Hroomy) as (_ & T0 & Hfirst0).
    assert (N' = N) as -> by congruence.
    assert (bs' = bs) as -> by congruence.
    assert (Hstep : 1 <= Z.of_nat (colsToShow st)) by lia.
    destruct (Chunked_within _ _ _ _ a b Hstep Hch Hin) as (Ha0 & Hab & HbN & _).
    split; [|intros Hc; now contradiction Hc].
    repeat (split; [assumption|]).
    exists (Z.to_nat a), (Z.to_nat b).
    split; [destruct rangeArr; simpl in Ha |- *; congruence|].
    split; [exact Hb|]. lia.
Qed.

(** The effect keeps a valid state valid. *)
Lemma selectionValid_useEffect (props : TopkProps) (L N : nat) (prev st : State) :
  roomy props L N -> selectionValid props L N st ->
  (colsToShow st <> colsToShow prev -> (colsToShow st <= N)%nat) ->
  selectionValid props L N (useEffect props prev st).
Proof.
  intros Hroomy Hvalid Hnew. unfold useEffect.
  destruct (Nat.eqb_spec (colsToShow prev) (colsToShow st)) as [Heq | Hne];
    [exact Hvalid|].
  destruct Hvalid as (Hsample & Hlayer & Hcols & Hk & _).
  assert (HcN : (colsToShow st <= N)%nat) by (apply Hnew; congruence).
  destruct Hroomy as (_ & _ & _ & _ & HN & _).
  unfold selectionValid. cbn [sampleNumber layerNumber colsToShow k neuronNumbers].
  repeat (split; [assumption|]).
  unfold firstNeurons. destruct (1 <? numberOfSamples props)%nat.
  - exists 0%nat, (colsToShow st - 1)%nat. rewrite length_seq.
    split; [destruct (colsToShow st); [lia | reflexivity]|].
    split; [|lia].
    rewrite (nth_error_nth' _ 0%nat) by (rewrite length_seq; lia).
    rewrite seq_nth by lia. f_equal; lia.
  - exists 0%nat, 0%nat. simpl. repeat split; lia.
Qed.

(** On roomy props the component mounts, and an offered call never
    throws: both renders of the interaction succeed. *)
Lemma roomy_mounts (fuel : nat) (props : TopkProps) (L N : nat) :
  roomy props L N -> (N <= fuel)%nat ->
  mount fuel props = Some (initialState props).
Proof.
  intros Hroomy Hfuel.
  destruct (selectionValid_renders fuel props L N (initialState props) Hroomy Hfuel
              (selectionValid_initial props L N Hroomy))
    as (bs & tbl & _ & _ & _ & Hview).
  exact (mount_intro fuel props _ Hview).
Qed.

Lemma roomy_interact (fuel : nat) (props : TopkProps) (L N : nat) (st : State)
  (ev : Event) :
  roomy props L N -> (N <= fuel)%nat ->
  selectionValid props L N st -> offered fuel props st ev ->
  interact fuel props st ev = Some (step props st ev) /\
  selectionValid props L N (step props st ev).
Proof.
  intros Hroomy Hfuel Hvalid Hev.
  destruct (selectionValid_setState fuel props L N st ev Hroomy Hfuel Hvalid Hev)
    as [Hvalid1 Hnew].
  pose proof (selectionValid_useEffect props L N st (setState st ev)
                Hroomy Hvalid1 Hnew) as Hvalid2.
  fold (step props st ev) in Hvalid2.
  split; [|exact Hvalid2].
  apply interact_Some. split; [reflexivity|].
  destruct (selectionValid_renders fuel props L N _ Hroomy Hfuel Hvalid1)
    as (bs1 & tbl1 & _ & _ & _ & Hview1).
  destruct (selectionValid_renders fuel props L N _ Hroomy Hfuel Hvalid2)
    as (bs2 & tbl2 & _ & _ & _ & Hview2).
  split; eexists; eassumption.
Qed.

Lemma Mounted_selectionValid (fuel : nat) (props : TopkProps) (L N : nat) (st : State) :
  roomy props L N -> (N <= fuel)%nat -> Mounted fuel props st ->
  selectionValid props L N st.
Proof.
  intros Hroomy Hfuel.
  induction 1 as [st Hmount | st ev st' Hst IH Hev Hstep].
  - apply mount_Some in Hmount. destruct Hmount as [-> _].
    now apply selectionValid_initial.
  - destruct (roomy_interact fuel props L N st ev Hroomy Hfuel IH Hev) as [Hrun Hvalid].
    assert (st' = step props st ev) as -> by congruence.
    exact Hvalid.
Qed.

(** X23.  For props with room for every selection (every sample with a
    token list and a nested array that fills its shape, all of the same
    layers and neurons, at least 20 tokens and, with several samples, at
    least 5 neurons), the component mounts and no session of choices its
    selectors offer makes it throw.  In every state of such a session the
    selection stays within the data and the render succeeds, selectors
    and table included; and every call on offer there goes through both
    of its renders, the one after the setter and the one after the
    effect, and leaves the component mounted. *)
Theorem reachable_states_render (fuel : nat) (props : TopkProps) (L N : nat) :
  roomy props L N -> (N <= fuel)%nat ->
  mount fuel props = Some (initialState props) /\
  forall st, Mounted fuel props st ->
    selectionValid props L N st /\
    (exists view, Topk_render fuel props st = Some view) /\
    (forall ev, offered fuel props st ev ->
       (exists view, Topk_render fuel props (setState st ev) = Some view) /\
       exists st',
         interact fuel props st ev = Some st' /\ Mounted fuel props st').
Proof.
  intros Hroomy Hfuel.
  split; [now apply (roomy_mounts fuel props L N)|].
  intros st Hst.
  pose proof (Mounted_selectionValid fuel props L N st Hroomy Hfuel Hst) as Hvalid.
  split; [exact Hvalid|]. split.
  - destruct (selectionValid_renders fuel props L N st Hroomy Hfuel Hvalid)
      as (bs & tbl & _ & _ & _ & Hview).
    eexists. exact Hview.
  - intros ev Hev.
    destruct (roomy_interact fuel props L N st ev Hroomy Hfuel Hvalid Hev)
      as [Hrun _].
    split.
    + apply interact_Some in Hrun. now destruct Hrun as (_ & Hmid & _).
    + exists (step props st ev). split; [exact Hrun|].
      now apply (Mounted_next fuel props st ev).
Qed.

Lemma reachable_states_render_witness :
  roomy ex_roomy_props 1 5 /\
  exists st view,
    interact 5 ex_roomy_props (initialState ex_roomy_props) (SetColsToShow 2)
      = Some st /\
    neuronNumbers st = [0; 1]%nat /\
    Topk_render 5 ex_roomy_props st = Some view /\
    neuronOptions view = ["0-1"; "2-3"; "4"]%string /\
    exists st',
      interact 5 ex_roomy_props st (SetNeuronNumbers [2; 3]%nat) = Some st' /\
      Mounted 5 ex_roomy_props st'.
Proof.
  assert (Hroomy : roomy ex_roomy_props 1 5).
  { unfold roomy. split; [discriminate|]. split; [simpl; lia|].
    split; [repeat constructor; exists 20%nat;
            (split; [reflexivity | split; [reflexivity | lia]])|].
    split; [lia|]. split; [simpl; lia|].
    unfold maxArrayLength. simpl. lia. }
  split; [exact Hroomy|].
  destruct (reachable_states_render 5 ex_roomy_props 1 5 Hroomy (Nat.le_refl 5))
    as [Hmount Hall].
  assert (Hstep : interact 5 ex_roomy_props (initialState ex_roomy_props)
                    (SetColsToShow 2) = Some (mkState 0 0 2 5 [0; 1]%nat))
    by (vm_compute; reflexivity).
  assert (Hst : Mounted 5 ex_roomy_props (mkState 0 0 2 5 [0; 1]%nat)).
  { apply (Mounted_next 5 ex_roomy_props (initialState ex_roomy_props)
             (SetColsToShow 2)); [now apply Mounted_first | | exact Hstep].
    eexists. split; [vm_compute; reflexivity | simpl; tauto]. }
  destruct (Hall _ Hst) as (_ & _ & Hoffered).
  destruct (Hoffered (SetNeuronNumbers [2; 3]%nat)) as (_ & st' & Hrun & Hst').
  { eexists. split; [vm_compute; reflexivity|].
    exists 20%nat, 1%nat, 5%nat, [(0, 1); (2, 3); (4, 4)], 2, 3.
    repeat split; try reflexivity. simpl. tauto. }
  exists (mkState 0 0 2 5 [0; 1]%nat). eexists.
  split; [exact Hstep|]. split; [reflexivity|].
  split; [vm_compute; reflexivity|]. split; [reflexivity|].
  exists st'. split; [exact Hrun | exact Hst'].
Defined.
